(** * gl-map: geographic coordinate and vector utilities

    A shallow embedding of [src/geo/lng_lat.ts], [src/geo/lng_lat_bounds.ts]
    and the [Point] class, together with the properties stated for them.

    Modelling decisions.

    - A JavaScript [number] is an IEEE-754 double.  It is modelled here as
      an extended real: [NaN], the two infinities, and finite reals.  The
      special values behave as IEEE-754 prescribes; the sign of zero is
      outside the model.
    - The methods are embedded first with exact (unrounded) arithmetic.
      [distanceTo], [getCenter] and [rotate], whose stated properties
      depend on rounding or on the overflow of a finite result, are
      embedded a second time, in [Rounded], over an arithmetic given by its
      rounding and its trigonometric functions.
    - Objects live in a heap and are referred to by location, so that
      aliasing and in-place mutation ([extend], the [_]-prefixed [Point]
      methods) are visible.  A reference that may be [undefined] is an
      [option loc].
    - A method is a computation in a state-and-exception monad over the
      heap.  A thrown exception keeps the heap as it was at the throw. *)

From Stdlib Require Import Reals Lra Lia ZArith String.
From stdpp Require Import base option gmap.

Open Scope R_scope.

(** ** Numbers *)

Inductive number : Type :=
| NaN
| Infinity (negative : bool)
| Finite (r : R).

Definition Rltb (a b : R) : bool := if Rlt_dec a b then true else false.
Definition Reqb (a b : R) : bool := if Req_dec_T a b then true else false.

(** Truncation toward zero, as used by the [%] operator. *)
Definition Rtrunc (r : R) : R :=
  if Rlt_dec r 0 then - IZR (Int_part (- r)) else IZR (Int_part r).

Definition isNaN (a : number) : bool :=
  match a with NaN => true | _ => false end.

Definition isFinite (a : number) : bool :=
  match a with Finite _ => true | _ => false end.

(** [a < b] *)
Definition num_lt (a b : number) : bool :=
  match a, b with
  | NaN, _ | _, NaN => false
  | Infinity sa, Infinity sb => sa && negb sb
  | Infinity sa, Finite _ => sa
  | Finite _, Infinity sb => negb sb
  | Finite x, Finite y => Rltb x y
  end.

(** [a === b] *)
Definition num_eq (a b : number) : bool :=
  match a, b with
  | Infinity sa, Infinity sb => Bool.eqb sa sb
  | Finite x, Finite y => Reqb x y
  | _, _ => false
  end.

(** [a <= b], [a > b], [a >= b] *)
Definition num_le (a b : number) : bool := num_lt a b || num_eq a b.
Definition num_gt (a b : number) : bool := num_lt b a.
Definition num_ge (a b : number) : bool := num_le b a.

(** Unary [+] applied to a number is the identity. *)
Definition num_pos (a : number) : number := a.

Definition num_neg (a : number) : number :=
  match a with
  | NaN => NaN
  | Infinity s => Infinity (negb s)
  | Finite x => Finite (- x)
  end.

Definition num_add (a b : number) : number :=
  match a, b with
  | NaN, _ | _, NaN => NaN
  | Infinity sa, Infinity sb => if Bool.eqb sa sb then Infinity sa else NaN
  | Infinity sa, Finite _ => Infinity sa
  | Finite _, Infinity sb => Infinity sb
  | Finite x, Finite y => Finite (x + y)
  end.

Definition num_sub (a b : number) : number := num_add a (num_neg b).

Definition num_mul (a b : number) : number :=
  match a, b with
  | NaN, _ | _, NaN => NaN
  | Infinity sa, Infinity sb => Infinity (xorb sa sb)
  | Infinity s, Finite x | Finite x, Infinity s =>
      if Reqb x 0 then NaN else Infinity (xorb s (Rltb x 0))
  | Finite x, Finite y => Finite (x * y)
  end.

Definition num_div (a b : number) : number :=
  match a, b with
  | NaN, _ | _, NaN => NaN
  | Infinity _, Infinity _ => NaN
  | Infinity s, Finite y => Infinity (xorb s (Rltb y 0))
  | Finite _, Infinity _ => Finite 0
  | Finite x, Finite y =>
      if Reqb y 0
      then (if Reqb x 0 then NaN else Infinity (Rltb x 0))
      else Finite (x / y)
  end.

(** [a % b]: the remainder has the sign of the dividend. *)
Definition num_rem (a b : number) : number :=
  match a, b with
  | NaN, _ | _, NaN => NaN
  | Infinity _, _ => NaN
  | Finite x, Infinity _ => Finite x
  | Finite x, Finite y =>
      if Reqb y 0 then NaN else Finite (x - y * Rtrunc (x / y))
  end.

(** [Math.min(a, b)] and [Math.max(a, b)] *)
Definition Math_min (a b : number) : number :=
  if isNaN a || isNaN b then NaN else if num_lt a b then a else b.

Definition Math_max (a b : number) : number :=
  if isNaN a || isNaN b then NaN else if num_lt a b then b else a.

Definition Math_PI : number := Finite PI.

Definition Math_sin (a : number) : number :=
  match a with Finite x => Finite (sin x) | _ => NaN end.

Definition Math_cos (a : number) : number :=
  match a with Finite x => Finite (cos x) | _ => NaN end.

Definition Math_acos (a : number) : number :=
  match a with
  | Finite x => if Rltb x (-1) || Rltb 1 x then NaN else Finite (acos x)
  | _ => NaN
  end.

Definition Math_sqrt (a : number) : number :=
  match a with
  | NaN => NaN
  | Infinity s => if s then NaN else Infinity false
  | Finite x => if Rltb x 0 then NaN else Finite (sqrt x)
  end.

(** [Math.round(a)]: the nearest integer, a tie going up. *)
Definition Math_round (a : number) : number :=
  match a with
  | Finite x => Finite (IZR (Int_part (x + / 2)))
  | _ => a
  end.

(** ** The heap and the method monad *)

Abbreviation loc := positive.

Inductive object : Type :=
| LngLat (lng lat : number)
| LngLatBounds (_sw _ne : option loc)
| Point (x y : number).

Abbreviation heap := (gmap loc object).

Inductive error : Type :=
| TypeError
    (* a property of [undefined] was read or written *)
| InvalidLngLat (lng lat : number)
    (* Error(`Invalid LngLat object: (${lng}, ${lat})`) *)
| InvalidLatitude.
    (* Error("Invalid LngLat latitude value: must be between -90 and 90") *)

Inductive outcome (A : Type) : Type :=
| Return (a : A)
| Throw (e : error).
Arguments Return {A} a.
Arguments Throw {A} e.

Definition M (A : Type) : Type := heap -> outcome A * heap.

Definition ret {A} (a : A) : M A := fun h => (Return a, h).
Definition throw {A} (e : error) : M A := fun h => (Throw e, h).
Definition bind {A B} (c : M A) (k : A -> M B) : M B :=
  fun h => match c h with
           | (Return a, h') => k a h'
           | (Throw e, h') => (Throw e, h')
           end.

Notation "'let!' x ':=' c 'in' k" := (bind c (fun x => k))
  (at level 10, x name, c at level 100, k at level 200).
Notation "c ';;' k" := (bind c (fun _ => k))
  (at level 100, k at level 200, right associativity).

(** [new C(...)] takes a location no live object has. *)
Definition alloc (o : object) : M loc :=
  fun h => let l := fresh (dom h) in (Return l, <[l := o]> h).

(** Using a possibly [undefined] reference as the base of a property
    access. *)
Definition defined (r : option loc) : M loc :=
  match r with Some l => ret l | None => throw TypeError end.

Definition load (l : loc) : M object :=
  fun h => match h !! l with
           | Some o => (Return o, h)
           | None => (Throw TypeError, h)
           end.

Definition store (l : loc) (o : object) : M unit :=
  fun h => (Return tt, <[l := o]> h).

(** Field access.  The TypeScript types make the class of every
    reference known; an access at a different class cannot be written in
    the source and is given [TypeError] here. *)
Definition get_lng (l : loc) : M number :=
  let! o := load l in match o with LngLat lng _ => ret lng | _ => throw TypeError end.
Definition get_lat (l : loc) : M number :=
  let! o := load l in match o with LngLat _ lat => ret lat | _ => throw TypeError end.
Definition set_lng (l : loc) (v : number) : M unit :=
  let! o := load l in
  match o with LngLat _ lat => store l (LngLat v lat) | _ => throw TypeError end.
Definition set_lat (l : loc) (v : number) : M unit :=
  let! o := load l in
  match o with LngLat lng _ => store l (LngLat lng v) | _ => throw TypeError end.

Definition get__sw (l : loc) : M (option loc) :=
  let! o := load l in match o with LngLatBounds sw _ => ret sw | _ => throw TypeError end.
Definition get__ne (l : loc) : M (option loc) :=
  let! o := load l in match o with LngLatBounds _ ne => ret ne | _ => throw TypeError end.
Definition set__sw (l : loc) (v : option loc) : M unit :=
  let! o := load l in
  match o with LngLatBounds _ ne => store l (LngLatBounds v ne) | _ => throw TypeError end.
Definition set__ne (l : loc) (v : option loc) : M unit :=
  let! o := load l in
  match o with LngLatBounds sw _ => store l (LngLatBounds sw v) | _ => throw TypeError end.

Definition get_x (l : loc) : M number :=
  let! o := load l in match o with Point x _ => ret x | _ => throw TypeError end.
Definition get_y (l : loc) : M number :=
  let! o := load l in match o with Point _ y => ret y | _ => throw TypeError end.
Definition set_x (l : loc) (v : number) : M unit :=
  let! o := load l in
  match o with Point _ y => store l (Point v y) | _ => throw TypeError end.
Definition set_y (l : loc) (v : number) : M unit :=
  let! o := load l in
  match o with Point x _ => store l (Point x v) | _ => throw TypeError end.

(** [a && b] on computations: [b] is evaluated only when [a] is true. *)
Definition andM (a b : M bool) : M bool :=
  let! x := a in if x then b else ret false.

Declare Scope js_scope.
Delimit Scope js_scope with js.
Bind Scope js_scope with number.
Infix "+" := num_add : js_scope.
Infix "-" := num_sub : js_scope.
Infix "*" := num_mul : js_scope.
Infix "/" := num_div : js_scope.
Infix "mod" := num_rem : js_scope.
Notation "- a" := (num_neg a) : js_scope.
Infix "<?" := num_lt : js_scope.
Infix "<=?" := num_le : js_scope.
Infix ">?" := num_gt : js_scope.
Infix ">=?" := num_ge : js_scope.
Infix "=?" := num_eq : js_scope.

(** [!r] for a reference [r]: true exactly when it is [undefined]. *)
Definition not_ref (r : option loc) : bool :=
  match r with Some _ => false | None => true end.

(** [l instanceof LngLat], [l instanceof LngLatBounds] *)
Definition instanceof_LngLat (l : loc) : M bool :=
  fun h => match h !! l with
           | Some (LngLat _ _) => (Return true, h)
           | _ => (Return false, h)
           end.
Definition instanceof_LngLatBounds (l : loc) : M bool :=
  fun h => match h !! l with
           | Some (LngLatBounds _ _) => (Return true, h)
           | _ => (Return false, h)
           end.

(** ** util *)

(** Modelled from the spec: [wrap] is imported from [../util/util], which
    is not among the sources.  The spec calls it the generic modular wrap
    that maps a value into the interval [(min, max]]: the value is reduced
    modulo the width of the interval, and the lower end is sent to the
    upper one. *)
Definition wrap (n min max : number) : number :=
  let d := (max - min)%js in
  let w := ((((n - min) mod d + d) mod d) + min)%js in
  if (w =? min)%js then max else w.

(** ** geo/lng_lat.ts *)

Definition EARTH_RADIUS : number := Finite 6371008.8.

(** [new LngLat(lng, lat)].  The object is allocated once both checks have
    passed: the one a failing constructor leaves behind is unreachable. *)
Definition LngLat_constructor (lng lat : number) : M loc :=
  if isNaN lng || isNaN lat then throw (InvalidLngLat lng lat)
  else
    let this_lng := num_pos lng in
    let this_lat := num_pos lat in
    if (this_lat >? Finite 90)%js || (this_lat <? Finite (-90))%js
    then throw InvalidLatitude
    else alloc (LngLat this_lng this_lat).

Definition LngLat_wrap (this : loc) : M loc :=
  let! this_lng := get_lng this in
  let! this_lat := get_lat this in
  LngLat_constructor (wrap this_lng (Finite (-180)) (Finite 180)) this_lat.

Definition LngLat_distanceTo (this lngLat : loc) : M number :=
  let rad := (Math_PI / Finite 180)%js in
  let! this_lat := get_lat this in
  let lat1 := (this_lat * rad)%js in
  let! lngLat_lat := get_lat lngLat in
  let lat2 := (lngLat_lat * rad)%js in
  let! lngLat_lng := get_lng lngLat in
  let! this_lng := get_lng this in
  let a :=
    (Math_sin lat1 * Math_sin lat2
     + Math_cos lat1 * Math_cos lat2 * Math_cos ((lngLat_lng - this_lng) * rad))%js in
  let maxMeters := (EARTH_RADIUS * Math_acos (Math_min a (Finite 1)))%js in
  ret maxMeters.

(** ** geo/lng_lat_bounds.ts *)

Definition LngLatBounds_setNorthEast (this ne : loc) : M loc :=
  set__ne this (Some ne) ;; ret this.

Definition LngLatBounds_setSouthWest (this sw : loc) : M loc :=
  set__sw this (Some sw) ;; ret this.

(** [new LngLatBounds(sw, ne)]; either argument may be left out. *)
Definition LngLatBounds_constructor (sw ne : option loc) : M loc :=
  let! this := alloc (LngLatBounds None None) in
  match sw with
  | None => ret this
  | Some sw' =>
      match ne with
      | Some ne' =>
          (let! t := LngLatBounds_setSouthWest this sw' in
           LngLatBounds_setNorthEast t ne') ;;
          ret this
      | None => ret this
      end
  end.

(** [r.lng] and [r.lat] for a reference [r] that may be [undefined]. *)
Definition ref_lng (r : option loc) : M number :=
  let! l := defined r in get_lng l.
Definition ref_lat (r : option loc) : M number :=
  let! l := defined r in get_lat l.

(** [this._sw.lng], [this._sw.lat], [this._ne.lng], [this._ne.lat] *)
Definition this__sw_lng (this : loc) : M number :=
  let! r := get__sw this in ref_lng r.
Definition this__sw_lat (this : loc) : M number :=
  let! r := get__sw this in ref_lat r.
Definition this__ne_lng (this : loc) : M number :=
  let! r := get__ne this in ref_lng r.
Definition this__ne_lat (this : loc) : M number :=
  let! r := get__ne this in ref_lat r.

(** [extend], lines 66 to 74: the corners [sw2] and [ne2] read from the
    argument.  [None] stands for the early [return this]. *)
Definition extend_target (obj : loc) : M (option (option loc * option loc)) :=
  let! isLngLat := instanceof_LngLat obj in
  if isLngLat then ret (Some (Some obj, Some obj))
  else
    let! isBounds := instanceof_LngLatBounds obj in
    if isBounds then
      let! sw2 := get__sw obj in
      let! ne2 := get__ne obj in
      if not_ref sw2 || not_ref ne2 then ret None
      else ret (Some (sw2, ne2))
    else ret (Some (None, None)).

(** [extend], lines 76 to 84: the corners are created or grown. *)
Definition extend_corners (this : loc) (sw ne sw2 ne2 : option loc) : M unit :=
  if not_ref sw && not_ref ne then
    (let! sw2_lng := ref_lng sw2 in
     let! sw2_lat := ref_lat sw2 in
     let! c := LngLat_constructor sw2_lng sw2_lat in
     set__sw this (Some c)) ;;
    (let! ne2_lng := ref_lng ne2 in
     let! ne2_lat := ref_lat ne2 in
     let! c := LngLat_constructor ne2_lng ne2_lat in
     set__ne this (Some c))
  else
    (let! sw2_lng := ref_lng sw2 in
     let! sw_lng := ref_lng sw in
     let! l := defined sw in
     set_lng l (Math_min sw2_lng sw_lng)) ;;
    (let! sw2_lat := ref_lat sw2 in
     let! sw_lat := ref_lat sw in
     let! l := defined sw in
     set_lat l (Math_min sw2_lat sw_lat)) ;;
    (let! ne2_lng := ref_lng ne2 in
     let! ne_lng := ref_lng ne in
     let! l := defined ne in
     set_lng l (Math_max ne2_lng ne_lng)) ;;
    (let! ne2_lat := ref_lat ne2 in
     let! ne_lat := ref_lat ne in
     let! l := defined ne in
     set_lat l (Math_max ne2_lat ne_lat)).

Definition LngLatBounds_extend (this obj : loc) : M loc :=
  let! sw := get__sw this in
  let! ne := get__ne this in
  let! target := extend_target obj in
  match target with
  | None => ret this
  | Some (sw2, ne2) => extend_corners this sw ne sw2 ne2 ;; ret this
  end.

Definition LngLatBounds_getCenter (this : loc) : M loc :=
  let! sw_lng := this__sw_lng this in
  let! ne_lng := this__ne_lng this in
  let! sw_lat := this__sw_lat this in
  let! ne_lat := this__ne_lat this in
  LngLat_constructor ((sw_lng + ne_lng) / Finite 2)%js
                     ((sw_lat + ne_lat) / Finite 2)%js.

Definition LngLatBounds_getSouthWest (this : loc) : M (option loc) :=
  get__sw this.

Definition LngLatBounds_getNorthEast (this : loc) : M (option loc) :=
  get__ne this.

Definition LngLatBounds_getWest (this : loc) : M number := this__sw_lng this.
Definition LngLatBounds_getSouth (this : loc) : M number := this__sw_lat this.
Definition LngLatBounds_getEast (this : loc) : M number := this__ne_lng this.
Definition LngLatBounds_getNorth (this : loc) : M number := this__ne_lat this.

Definition LngLatBounds_getNorthWest (this : loc) : M loc :=
  let! west := LngLatBounds_getWest this in
  let! north := LngLatBounds_getNorth this in
  LngLat_constructor west north.

Definition LngLatBounds_getSouthEast (this : loc) : M loc :=
  let! east := LngLatBounds_getEast this in
  let! south := LngLatBounds_getSouth this in
  LngLat_constructor east south.

Definition LngLatBounds_isEmpty (this : loc) : M bool :=
  let! sw := get__sw this in
  let! ne := get__ne this in
  ret (negb (negb (not_ref sw) && negb (not_ref ne))).

Definition LngLatBounds_contains (this lnglat : loc) : M bool :=
  let! lng := get_lng lnglat in
  let! lat := get_lat lnglat in
  let! containsLatitude :=
    andM (let! sw_lat := this__sw_lat this in ret (sw_lat <=? lat)%js)
         (let! ne_lat := this__ne_lat this in ret (lat <=? ne_lat)%js) in
  let! containsLongitude :=
    andM (let! sw_lng := this__sw_lng this in ret (sw_lng <=? lng)%js)
         (let! ne_lng := this__ne_lng this in ret (lng <=? ne_lng)%js) in
  let! sw_lng := this__sw_lng this in
  let! ne_lng := this__ne_lng this in
  let! containsLongitude :=
    (if (sw_lng >? ne_lng)%js then
       (* wrapped coordinates *)
       andM (let! sw_lng := this__sw_lng this in ret (sw_lng >=? lng)%js)
            (let! ne_lng := this__ne_lng this in ret (lng >=? ne_lng)%js)
     else ret containsLongitude) in
  ret (containsLatitude && containsLongitude).

(** ** geo/lng_lat.ts, continued: [toBounds] needs [LngLatBounds] *)

Definition LngLat_toBounds (this : loc) (radius : option number) : M loc :=
  let radius := default (Finite 0) radius in
  let earthCircumferenceInMetersAtEquator := Finite 40075017 in
  let latAccuracy :=
    ((Finite 360 * radius) / earthCircumferenceInMetersAtEquator)%js in
  let! this_lat := get_lat this in
  let lngAccuracy :=
    (latAccuracy / Math_cos ((Math_PI / Finite 180) * this_lat))%js in
  let! sw :=
    (let! this_lng := get_lng this in
     let! this_lat := get_lat this in
     LngLat_constructor (this_lng - lngAccuracy)%js (this_lat - latAccuracy)%js) in
  let! ne :=
    (let! this_lng := get_lng this in
     let! this_lat := get_lat this in
     LngLat_constructor (this_lng + lngAccuracy)%js (this_lat + latAccuracy)%js) in
  LngLatBounds_constructor (Some sw) (Some ne).

(** ** String conversion *)

Section ToString.

(** [Number.prototype.toString], as a template literal applies it. *)
Variable Number_toString : number -> string.

Definition LngLat_toString (this : loc) : M string :=
  let! this_lng := get_lng this in
  let! this_lat := get_lat this in
  ret ("LngLat(" ++ Number_toString this_lng ++ ", "
         ++ Number_toString this_lat ++ ")")%string.

Definition LngLatBounds_toString (this : loc) : M string :=
  let! sw := get__sw this in
  let! l := defined sw in
  let! s1 := LngLat_toString l in
  let! ne := get__ne this in
  let! l := defined ne in
  let! s2 := LngLat_toString l in
  ret ("LngLatBounds(" ++ s1 ++ ", " ++ s2 ++ ")")%string.

End ToString.

(** ** Point *)

(** [m[i]] for an array of numbers used as an operand: an index past the
    end reads [undefined], which arithmetic turns into [NaN]. *)
Definition index (m : list number) (i : nat) : number :=
  default NaN (m !! i).

Definition Point_constructor (x y : number) : M loc := alloc (Point x y).

Definition Point_clone (this : loc) : M loc :=
  let! this_x := get_x this in
  let! this_y := get_y this in
  Point_constructor this_x this_y.

Definition Point_mag (this : loc) : M number :=
  let! x := get_x this in
  let! y := get_y this in
  ret (Math_sqrt (x * x + y * y))%js.

Definition Point__matMult (this : loc) (m : list number) : M loc :=
  let! this_x := get_x this in
  let! this_y := get_y this in
  let x := (index m 0 * this_x + index m 1 * this_y)%js in
  let! this_x := get_x this in
  let! this_y := get_y this in
  let y := (index m 2 * this_x + index m 3 * this_y)%js in
  set_x this x ;;
  set_y this y ;;
  ret this.

Definition Point__add (this p : loc) : M loc :=
  (let! this_x := get_x this in
   let! p_x := get_x p in
   set_x this (this_x + p_x)%js) ;;
  (let! this_y := get_y this in
   let! p_y := get_y p in
   set_y this (this_y + p_y)%js) ;;
  ret this.

Definition Point__sub (this p : loc) : M loc :=
  (let! this_x := get_x this in
   let! p_x := get_x p in
   set_x this (this_x - p_x)%js) ;;
  (let! this_y := get_y this in
   let! p_y := get_y p in
   set_y this (this_y - p_y)%js) ;;
  ret this.

Definition Point__mult (this : loc) (k : number) : M loc :=
  (let! this_x := get_x this in set_x this (this_x * k)%js) ;;
  (let! this_y := get_y this in set_y this (this_y * k)%js) ;;
  ret this.

Definition Point__div (this : loc) (k : number) : M loc :=
  (let! this_x := get_x this in set_x this (this_x / k)%js) ;;
  (let! this_y := get_y this in set_y this (this_y / k)%js) ;;
  ret this.

Definition Point__multByPoint (this p : loc) : M loc :=
  (let! this_x := get_x this in
   let! p_x := get_x p in
   set_x this (this_x * p_x)%js) ;;
  (let! this_y := get_y this in
   let! p_y := get_y p in
   set_y this (this_y * p_y)%js) ;;
  ret this.

Definition Point__divByPoint (this p : loc) : M loc :=
  (let! this_x := get_x this in
   let! p_x := get_x p in
   set_x this (this_x / p_x)%js) ;;
  (let! this_y := get_y this in
   let! p_y := get_y p in
   set_y this (this_y / p_y)%js) ;;
  ret this.

Definition Point__unit (this : loc) : M loc :=
  (let! mag := Point_mag this in Point__div this mag) ;;
  ret this.

Definition Point__perp (this : loc) : M loc :=
  let! y := get_y this in
  (let! this_x := get_x this in set_y this this_x) ;;
  set_x this (- y)%js ;;
  ret this.

Definition Point__rotate (this : loc) (angle : number) : M loc :=
  let cos := Math_cos angle in
  let sin := Math_sin angle in
  let! this_x := get_x this in
  let! this_y := get_y this in
  let x := (cos * this_x - sin * this_y)%js in
  let! this_x := get_x this in
  let! this_y := get_y this in
  let y := (sin * this_x + cos * this_y)%js in
  set_x this x ;;
  set_y this y ;;
  ret this.

Definition Point__rotateAround (this : loc) (angle : number) (p : loc) : M loc :=
  let cos := Math_cos angle in
  let sin := Math_sin angle in
  let! p_x := get_x p in
  let! this_x := get_x this in
  let! this_y := get_y this in
  let! p_y := get_y p in
  let x := (p_x + cos * (this_x - p_x) - sin * (this_y - p_y))%js in
  let! p_y := get_y p in
  let! this_x := get_x this in
  let! p_x := get_x p in
  let! this_y := get_y this in
  let y := (p_y + sin * (this_x - p_x) + cos * (this_y - p_y))%js in
  set_x this x ;;
  set_y this y ;;
  ret this.

Definition Point__round (this : loc) : M loc :=
  (let! this_x := get_x this in set_x this (Math_round this_x)) ;;
  (let! this_y := get_y this in set_y this (Math_round this_y)) ;;
  ret this.

Definition Point_add (this p : loc) : M loc :=
  let! c := Point_clone this in Point__add c p.

Definition Point_sub (this p : loc) : M loc :=
  let! c := Point_clone this in Point__sub c p.

Definition Point_multByPoint (this p : loc) : M loc :=
  let! c := Point_clone this in Point__multByPoint c p.

Definition Point_divByPoint (this p : loc) : M loc :=
  let! c := Point_clone this in Point__divByPoint c p.

Definition Point_mult (this : loc) (k : number) : M loc :=
  let! c := Point_clone this in Point__mult c k.

Definition Point_div (this : loc) (k : number) : M loc :=
  let! c := Point_clone this in Point__div c k.

Definition Point_rotate (this : loc) (a : number) : M loc :=
  let! c := Point_clone this in Point__rotate c a.

Definition Point_rotateAround (this : loc) (a : number) (p : loc) : M loc :=
  let! c := Point_clone this in Point__rotateAround c a p.

Definition Point_matMult (this : loc) (m : list number) : M loc :=
  let! c := Point_clone this in Point__matMult c m.

Definition Point_unit (this : loc) : M loc :=
  let! c := Point_clone this in Point__unit c.

Definition Point_perp (this : loc) : M loc :=
  let! c := Point_clone this in Point__perp c.

Definition Point_round (this : loc) : M loc :=
  let! c := Point_clone this in Point__round c.

Definition Point_equals (this other : loc) : M bool :=
  andM (let! this_x := get_x this in
        let! other_x := get_x other in
        ret (this_x =? other_x)%js)
       (let! this_y := get_y this in
        let! other_y := get_y other in
        ret (this_y =? other_y)%js).

Definition Point_distSqr (this p : loc) : M number :=
  let! p_x := get_x p in
  let! this_x := get_x this in
  let dx := (p_x - this_x)%js in
  let! p_y := get_y p in
  let! this_y := get_y this in
  let dy := (p_y - this_y)%js in
  ret (dx * dx + dy * dy)%js.

Definition Point_dist (this p : loc) : M number :=
  let! d := Point_distSqr this p in ret (Math_sqrt d).

(** ** Point, continued: the angle methods *)

(** [Math.atan2(y, x)]: the angle of the vector [(x, y)], between [-PI] and
    [PI].  A zero is taken as positive. *)
Definition Math_atan2 (y x : number) : number :=
  match y, x with
  | NaN, _ | _, NaN => NaN
  | Infinity sy, Infinity sx =>
      let a := if sx then 3 * PI / 4 else PI / 4 in
      Finite (if sy then - a else a)
  | Infinity sy, Finite _ => Finite (if sy then - (PI / 2) else PI / 2)
  | Finite b, Infinity sx =>
      if sx then Finite (if Rltb b 0 then - PI else PI) else Finite 0
  | Finite b, Finite a =>
      if Rltb 0 a then Finite (atan (b / a))
      else if Rltb a 0 then
        Finite (if Rltb b 0 then atan (b / a) - PI else atan (b / a) + PI)
      else if Rltb 0 b then Finite (PI / 2)
      else if Rltb b 0 then Finite (- (PI / 2))
      else Finite 0
  end.

Definition Point_angle (this : loc) : M number :=
  let! this_y := get_y this in
  let! this_x := get_x this in
  ret (Math_atan2 this_y this_x).

Definition Point_angleTo (this b : loc) : M number :=
  let! this_y := get_y this in
  let! b_y := get_y b in
  let! this_x := get_x this in
  let! b_x := get_x b in
  ret (Math_atan2 (this_y - b_y) (this_x - b_x))%js.

Definition Point_angleWithSep (this : loc) (x y : number) : M number :=
  let! this_x := get_x this in
  let! this_y := get_y this in
  let cross := (this_x * y - this_y * x)%js in
  let! this_x := get_x this in
  let! this_y := get_y this in
  let dot := (this_x * x + this_y * y)%js in
  ret (Math_atan2 cross dot).

Definition Point_angleWith (this b : loc) : M number :=
  let! b_x := get_x b in
  let! b_y := get_y b in
  Point_angleWithSep this b_x b_y.

(** * The methods that compute, over rounded arithmetic

    The methods above take [+ - * /] exact.  A double operation returns
    the exact result rounded, or an infinity when that result is beyond
    the range of doubles, and ECMAScript leaves the accuracy of
    [Math.sin], [Math.cos] and [Math.acos] to the implementation.  The
    methods whose stated properties depend on this are embedded here a
    second time, over an arithmetic given by its rounding and by its three
    trigonometric functions; everything else about them (the heap, the
    constructor, the order of the reads) is as above. *)

(** [pow2 e] is 2 to the power [e]. *)
Definition pow2 (e : Z) : R := powerRZ 2 e.
Arguments pow2 : simpl never.

(** The reals that are doubles: [m * 2^e] with [|m| < 2^53] and
    [-1074 <= e <= 971]. *)
Definition is_double (r : R) : Prop :=
  exists m e : Z,
    (Z.abs m < 2 ^ 53)%Z /\ (-1074 <= e <= 971)%Z /\ r = IZR m * pow2 e.

(** A [number] that a double can hold. *)
Definition double (a : number) : Prop :=
  match a with Finite r => is_double r | _ => True end.

Module Rounded.
Section Arithmetic.

(** [rnd r]: the double the exact result [r] of an operation is rounded
    to, an infinity when [r] is out of range. *)
Variable rnd : R -> number.

(** [Math.sin], [Math.cos] and [Math.acos], as the platform computes
    them. *)
Variables Math_sin Math_cos Math_acos : number -> number.

Definition round (a : number) : number :=
  match a with Finite r => rnd r | _ => a end.

(** [a + b], [a - b], [a * b], [a / b]: the special values as above, a
    finite result rounded.  They are written with circled signs here. *)
Definition add (a b : number) : number := round (a + b)%js.
Definition sub (a b : number) : number := round (a - b)%js.
Definition mul (a b : number) : number := round (a * b)%js.
Definition div (a b : number) : number := round (a / b)%js.

Local Infix "⊕" := add (at level 50, left associativity).
Local Infix "⊖" := sub (at level 50, left associativity).
Local Infix "⊗" := mul (at level 40, left associativity).
Local Infix "⊘" := div (at level 40, left associativity).

(** A literal denotes the double nearest to it.  The small integers
    [1], [2] and [180] are doubles and are written [Finite 1],
    [Finite 2], [Finite 180]. *)
Definition Math_PI : number := round (Finite PI).

Definition EARTH_RADIUS : number := round (Finite 6371008.8).

Definition LngLat_distanceTo (this lngLat : loc) : M number :=
  let rad := Math_PI ⊘ Finite 180 in
  let! this_lat := get_lat this in
  let lat1 := this_lat ⊗ rad in
  let! lngLat_lat := get_lat lngLat in
  let lat2 := lngLat_lat ⊗ rad in
  let! lngLat_lng := get_lng lngLat in
  let! this_lng := get_lng this in
  let a :=
    Math_sin lat1 ⊗ Math_sin lat2
    ⊕ Math_cos lat1 ⊗ Math_cos lat2 ⊗ Math_cos ((lngLat_lng ⊖ this_lng) ⊗ rad) in
  let maxMeters := EARTH_RADIUS ⊗ Math_acos (Math_min a (Finite 1)) in
  ret maxMeters.

Definition LngLatBounds_getCenter (this : loc) : M loc :=
  let! sw_lng := this__sw_lng this in
  let! ne_lng := this__ne_lng this in
  let! sw_lat := this__sw_lat this in
  let! ne_lat := this__ne_lat this in
  LngLat_constructor ((sw_lng ⊕ ne_lng) ⊘ Finite 2)
                     ((sw_lat ⊕ ne_lat) ⊘ Finite 2).

Definition Point__rotate (this : loc) (angle : number) : M loc :=
  let cos := Math_cos angle in
  let sin := Math_sin angle in
  let! this_x := get_x this in
  let! this_y := get_y this in
  let x := cos ⊗ this_x ⊖ sin ⊗ this_y in
  let! this_x := get_x this in
  let! this_y := get_y this in
  let y := sin ⊗ this_x ⊕ cos ⊗ this_y in
  set_x this x ;;
  set_y this y ;;
  ret this.

Definition Point_rotate (this : loc) (a : number) : M loc :=
  let! c := Point_clone this in Point__rotate c a.

End Arithmetic.
End Rounded.

(** * Vocabulary of the properties *)

(** The computation [c], run on heap [h], throws. *)
Definition fails {A} (c : M A) (h : heap) : Prop :=
  exists e, fst (c h) = Throw e.

(** [lat] lies in the closed interval from -90 to 90. *)
Definition lat_in_range (lat : number) : Prop :=
  (Finite (-90) <=? lat)%js = true /\ (lat <=? Finite 90)%js = true.

(** The class invariant of [LngLat], which its constructor enforces. *)
Definition LngLat_inv (lng lat : number) : Prop :=
  isNaN lng = false /\ lat_in_range lat.

(** Both corners of the bounds at [b] are set, and [sw.lat <= ne.lat]. *)
Definition lat_ordered (h : heap) (b : loc) : Prop :=
  exists sw ne lng1 lat1 lng2 lat2,
    h !! b = Some (LngLatBounds (Some sw) (Some ne))
    /\ h !! sw = Some (LngLat lng1 lat1)
    /\ h !! ne = Some (LngLat lng2 lat2)
    /\ (lat1 <=? lat2)%js = true.

(** What [extend] may be given: a [LngLat], or a [LngLatBounds] whose
    corners, when both are set, are [LngLat] objects; no latitude is NaN. *)
Definition extend_arg (h : heap) (obj : loc) : Prop :=
  match h !! obj with
  | Some (LngLat _ lat) => isNaN lat = false
  | Some (LngLatBounds (Some sw2) (Some ne2)) =>
      exists lng1 lat1 lng2 lat2,
        h !! sw2 = Some (LngLat lng1 lat1) /\ isNaN lat1 = false
        /\ h !! ne2 = Some (LngLat lng2 lat2) /\ isNaN lat2 = false
  | Some (LngLatBounds _ _) => True
  | _ => False
  end.

(** A box given as [sw.lng = 170], [ne.lng = -170], and a point on the
    antimeridian at a latitude the box covers. *)
Definition antimeridian_box : heap :=
  {[ 1%positive := LngLatBounds (Some 2%positive) (Some 3%positive);
     2%positive := LngLat (Finite 170) (Finite (-10));
     3%positive := LngLat (Finite (-170)) (Finite 10);
     4%positive := LngLat (Finite 180) (Finite 0) ]}.

(** An empty bounds and a point. *)
Definition empty_bounds_and_point : heap :=
  {[ 1%positive := LngLatBounds None None;
     2%positive := LngLat (Finite 30) (Finite 40) ]}.

(** [new LngLatBounds(new LngLat(lng1, lat1), new LngLat(lng2, lat2))],
    returning the three objects. *)
Definition two_corner_construction
    (lng1 lat1 lng2 lat2 : number) : M (loc * loc * loc) :=
  let! sw := LngLat_constructor lng1 lat1 in
  let! ne := LngLat_constructor lng2 lat2 in
  let! b := LngLatBounds_constructor (Some sw) (Some ne) in
  ret (sw, ne, b).

(** The distance formula in the words of the specification: both
    latitudes and the difference of the longitudes converted to radians,
    the spherical law of cosines, the result clamped to at most 1, and the
    arc cosine scaled by the radius 6371008.8. *)
Definition to_radians (degrees : number) : number :=
  (degrees * (Math_PI / Finite 180))%js.

Definition law_of_cosines (lng1 lat1 lng2 lat2 : number) : number :=
  (Math_sin (to_radians lat1) * Math_sin (to_radians lat2)
   + Math_cos (to_radians lat1) * Math_cos (to_radians lat2)
     * Math_cos (to_radians (lng2 - lng1)))%js.

Definition clamp_at_most_1 (a : number) : number :=
  if (a >? Finite 1)%js then Finite 1 else a.

Definition great_circle_distance (lng1 lat1 lng2 lat2 : number) : number :=
  (Finite 6371008.8
   * Math_acos (clamp_at_most_1 (law_of_cosines lng1 lat1 lng2 lat2)))%js.

(** One point, at longitude 200. *)
Definition point_200_10 : heap :=
  {[ 1%positive := LngLat (Finite 200) (Finite 10) ]}.

(** New York and Los Angeles, the two points of the example in the source. *)
Definition new_york_los_angeles : heap :=
  {[ 1%positive := LngLat (Finite (-74.0060)) (Finite 40.7128);
     2%positive := LngLat (Finite (-118.2437)) (Finite 34.0522) ]}.

(** The computation [c] leaves every object other than the one at [l] as
    it was, whether it returns or throws. *)
Definition writes_only {A} (c : M A) (l : loc) : Prop :=
  forall (h : heap) (l' : loc), l' <> l -> snd (c h) !! l' = h !! l'.

(** The computation [c] leaves the heap as it was. *)
Definition read_only {A} (c : M A) : Prop :=
  forall h : heap, snd (c h) = h.

(** The point (3, 4). *)
Definition point_3_4 : heap :=
  {[ 1%positive := Point (Finite 3) (Finite 4) ]}.

(** The box of the example in the source of [contains], and the point the
    example tests. *)
Definition manhattan_box : heap :=
  {[ 1%positive := LngLatBounds (Some 2%positive) (Some 3%positive);
     2%positive := LngLat (Finite (-73.9876)) (Finite 40.7661);
     3%positive := LngLat (Finite (-73.9397)) (Finite 40.8002);
     4%positive := LngLat (Finite (-73.9567)) (Finite 40.7789) ]}.

(** Every [LngLat] object of the heap satisfies the class invariant. *)
Definition heap_inv (h : heap) : Prop :=
  forall (l : loc) (lng lat : number),
    h !! l = Some (LngLat lng lat) -> LngLat_inv lng lat.

(** Run on a heap that satisfies [heap_inv], the computation [c] leaves a
    heap that satisfies it, whether it returns or throws, and a value it
    returns satisfies [Q]. *)
Definition keeps_inv {A} (c : M A) (Q : A -> Prop) : Prop :=
  forall h : heap,
    heap_inv h ->
    heap_inv (snd (c h)) /\ forall a, fst (c h) = Return a -> Q a.

(** The bounds at [b] is empty, or both its corners are set to [LngLat]
    objects. *)
Definition empty_or_full (h : heap) (b : loc) : Prop :=
  h !! b = Some (LngLatBounds None None)
  \/ exists sw ne a b' c d,
       h !! b = Some (LngLatBounds (Some sw) (Some ne))
       /\ h !! sw = Some (LngLat a b') /\ h !! ne = Some (LngLat c d).

(** A bounds whose southwest corner alone is set, and a point. *)
Definition half_set_bounds : heap :=
  {[ 1%positive := LngLatBounds (Some 2%positive) None;
     2%positive := LngLat (Finite 10) (Finite 20);
     3%positive := LngLat (Finite 0) (Finite 0) ]}.

(** Three points, and no bounds yet. *)
Definition three_points : heap :=
  {[ 1%positive := LngLat (Finite 10) (Finite 20);
     2%positive := LngLat (Finite 30) (Finite 40);
     3%positive := LngLat (Finite 50) (Finite 0) ]}.

(** [new LngLatBounds().setSouthWest(sw).setNorthEast(ne)] *)
Definition construct_then_set (sw ne : loc) : M loc :=
  let! b := LngLatBounds_constructor None None in
  let! b := LngLatBounds_setSouthWest b sw in
  LngLatBounds_setNorthEast b ne.

(** [new LngLatBounds(sw, ne).extend(p)] *)
Definition construct_then_extend (sw ne p : loc) : M loc :=
  let! b := LngLatBounds_constructor (Some sw) (Some ne) in
  LngLatBounds_extend b p.

(** A point with an infinite longitude, which the constructor accepts, and
    a point with finite coordinates. *)
Definition infinite_longitude : heap :=
  {[ 1%positive := LngLat (Infinity false) (Finite 10);
     2%positive := LngLat (Finite 20) (Finite 30) ]}.

(** A point with a NaN coordinate. *)
Definition point_NaN : heap :=
  {[ 1%positive := Point NaN (Finite 4) ]}.

(** The points (3, 4) and (0, 0). *)
Definition point_and_origin : heap :=
  {[ 1%positive := Point (Finite 3) (Finite 4);
     2%positive := Point (Finite 0) (Finite 0) ]}.

(** [q.sub(p).mag()] *)
Definition sub_then_mag (q p : loc) : M number :=
  let! d := Point_sub q p in Point_mag d.

(** [p._perp()._perp()] and [p._perp()._perp()._perp()._perp()] *)
Definition perp_twice (p : loc) : M loc :=
  let! p := Point__perp p in Point__perp p.
Definition perp_four_times (p : loc) : M loc :=
  let! p := perp_twice p in perp_twice p.

(** [p._round()._round()] *)
Definition round_twice (p : loc) : M loc :=
  let! p := Point__round p in Point__round p.

(** [p.perp()], then [p.angleWith] of the result *)
Definition angleWith_perp (p : loc) : M number :=
  let! q := Point_perp p in Point_angleWith p q.

(** [p.sub(q).angle()] *)
Definition sub_then_angle (p q : loc) : M number :=
  let! d := Point_sub p q in Point_angle d.

(** ** Vocabulary for the rounded methods *)

(** The rounding returns a double unchanged, as the rounding of every
    IEEE operation does. *)
Definition exact_on_doubles (rnd : R -> number) : Prop :=
  forall r, is_double r -> rnd r = Finite r.

(** The arithmetic does not round at all: the reading of "over real
    arithmetic". *)
Definition exact_arithmetic
    (rnd : R -> number) (sin_fl cos_fl : number -> number) : Prop :=
  (forall r, rnd r = Finite r)
  /\ (forall t, sin_fl (Finite t) = Finite (sin t))
  /\ (forall t, cos_fl (Finite t) = Finite (cos t)).

(** The accuracy of double operations: an exact result of magnitude up to
    a million is rounded to a finite number, with a relative error of at
    most 1.2e-16 (the unit roundoff of doubles is [2^-53], about 1.11e-16)
    and an absolute error of at most 1e-20 (for a result in the subnormal
    range, where the error is at most [2^-1075]). *)
Definition rounds_within (rnd : R -> number) : Prop :=
  forall r, Rabs r <= 1000000 ->
    exists r', rnd r = Finite r'
               /\ Rabs (r' - r) <= 1.2e-16 * Rabs r + 1e-20.

(** The sine and the cosine of a finite angle are finite and within
    2.3e-16 (more than [2^-52]) of those of the reals. *)
Definition trig_within (sin_fl cos_fl : number -> number) : Prop :=
  forall t, exists s c,
    sin_fl (Finite t) = Finite s /\ cos_fl (Finite t) = Finite c
    /\ Rabs (s - sin t) <= 2.3e-16 /\ Rabs (c - cos t) <= 2.3e-16.

(** A rounding that overflows to an infinity from [2^1024] on, as that of
    doubles does, and is exact below. *)
Definition round_overflow (r : R) : number :=
  if Rle_dec (pow2 1024) (Rabs r) then Infinity (Rltb r 0) else Finite r.

(** The distance formula in the words of the specification, in rounded
    arithmetic. *)
Module RoundedSpec.
Section Arithmetic.

Variable rnd : R -> number.
Variables Math_sin Math_cos Math_acos : number -> number.

Definition to_radians (degrees : number) : number :=
  Rounded.mul rnd degrees (Rounded.div rnd (Rounded.Math_PI rnd) (Finite 180)).

Definition law_of_cosines (lng1 lat1 lng2 lat2 : number) : number :=
  Rounded.add rnd
    (Rounded.mul rnd (Math_sin (to_radians lat1)) (Math_sin (to_radians lat2)))
    (Rounded.mul rnd
       (Rounded.mul rnd (Math_cos (to_radians lat1))
                        (Math_cos (to_radians lat2)))
       (Math_cos (to_radians (Rounded.sub rnd lng2 lng1)))).

Definition great_circle_distance (lng1 lat1 lng2 lat2 : number) : number :=
  Rounded.mul rnd (rnd 6371008.8)
    (Math_acos (clamp_at_most_1 (law_of_cosines lng1 lat1 lng2 lat2))).

End Arithmetic.
End RoundedSpec.

(** An empty bounds and a point whose longitude is the double [2^1023]. *)
Definition empty_bounds_and_far_point : heap :=
  {[ 1%positive := LngLatBounds None None;
     2%positive := LngLat (Finite (pow2 1023)) (Finite 0) ]}.

(** The point whose coordinates are both the double [3 * 2^1022]. *)
Definition far_point : heap :=
  {[ 1%positive := Point (Finite (3 * pow2 1022)) (Finite (3 * pow2 1022)) ]}.

(** * Properties *)

(** ** Numbers *)

Lemma Rltb_true (a b : R) : Rltb a b = true <-> a < b.
Proof. unfold Rltb. destruct (Rlt_dec a b); split; intros; (lra || discriminate || reflexivity). Qed.

Lemma Rltb_false (a b : R) : Rltb a b = false <-> b <= a.
Proof. unfold Rltb. destruct (Rlt_dec a b); split; intros; (lra || discriminate || reflexivity). Qed.

Lemma Reqb_true (a b : R) : Reqb a b = true <-> a = b.
Proof. unfold Reqb. destruct (Req_dec_T a b); split; intros; (lra || discriminate || reflexivity). Qed.

Lemma Reqb_false (a b : R) : Reqb a b = false <-> a <> b.
Proof. unfold Reqb. destruct (Req_dec_T a b); split; intros; (congruence || reflexivity). Qed.

(** Decides the comparisons of reals that occur in a goal, closing the
    branches that contradict linear arithmetic. *)
Ltac Rcases_step :=
  first
    [ progress (unfold Rltb, Reqb in *)
    | match goal with
      | |- context [Rlt_dec ?a ?b] => destruct (Rlt_dec a b)
      | |- context [Req_dec_T ?a ?b] => destruct (Req_dec_T a b)
      | H : context [Rlt_dec ?a ?b] |- _ => destruct (Rlt_dec a b)
      | H : context [Req_dec_T ?a ?b] |- _ => destruct (Req_dec_T a b)
      end
    | progress cbn in * ].

Ltac Rcases :=
  repeat Rcases_step;
  try discriminate; try reflexivity; try tauto; try lra.

Ltac num_unfold :=
  unfold Math_min, Math_max, num_ge, num_gt, num_le, num_lt, num_eq, isNaN,
    isFinite, num_pos in *.

Lemma num_le_refl (a : number) : isNaN a = false -> (a <=? a)%js = true.
Proof. destruct a as [|[]|]; num_unfold; intros; Rcases. Qed.

Lemma num_le_trans (a b c : number) :
  (a <=? b)%js = true -> (b <=? c)%js = true -> (a <=? c)%js = true.
Proof.
  destruct a as [|[]|], b as [|[]|], c as [|[]|]; num_unfold; intros; Rcases.
Qed.

Lemma num_le_not_NaN (a b : number) :
  (a <=? b)%js = true -> isNaN a = false /\ isNaN b = false.
Proof. destruct a as [|[]|], b as [|[]|]; num_unfold; intros; Rcases. Qed.

Lemma num_gt_le (a b : number) :
  isNaN a = false -> isNaN b = false -> (a >? b)%js = negb (a <=? b)%js.
Proof. destruct a as [|[]|], b as [|[]|]; num_unfold; intros; Rcases. Qed.

Lemma num_le_Finite (x y : R) : (Finite x <=? Finite y)%js = true <-> x <= y.
Proof. num_unfold. split; intros; Rcases. Qed.

Lemma num_lt_Finite (x y : R) : (Finite x <? Finite y)%js = true <-> x < y.
Proof. num_unfold. split; intros; Rcases. Qed.

Lemma Math_min_not_NaN (a b : number) :
  isNaN a = false -> isNaN b = false -> isNaN (Math_min a b) = false.
Proof. destruct a as [|[]|], b as [|[]|]; num_unfold; intros; Rcases. Qed.

Lemma Math_max_not_NaN (a b : number) :
  isNaN a = false -> isNaN b = false -> isNaN (Math_max a b) = false.
Proof. destruct a as [|[]|], b as [|[]|]; num_unfold; intros; Rcases. Qed.

Lemma Math_min_le_r (a b : number) :
  isNaN a = false -> isNaN b = false -> (Math_min a b <=? b)%js = true.
Proof. destruct a as [|[]|], b as [|[]|]; num_unfold; intros; Rcases. Qed.

Lemma Math_min_le_l (a b : number) :
  isNaN a = false -> isNaN b = false -> (Math_min a b <=? a)%js = true.
Proof. destruct a as [|[]|], b as [|[]|]; num_unfold; intros; Rcases. Qed.

Lemma Math_max_ge_r (a b : number) :
  isNaN a = false -> isNaN b = false -> (b <=? Math_max a b)%js = true.
Proof. destruct a as [|[]|], b as [|[]|]; num_unfold; intros; Rcases. Qed.

Lemma Math_max_ge_l (a b : number) :
  isNaN a = false -> isNaN b = false -> (a <=? Math_max a b)%js = true.
Proof. destruct a as [|[]|], b as [|[]|]; num_unfold; intros; Rcases. Qed.

(** ** The heap and the monad *)

Lemma fresh_None (h : heap) : h !! fresh (dom h) = None.
Proof. apply not_elem_of_dom, is_fresh. Qed.

Lemma fresh_ne (h : heap) (l : loc) (o : object) :
  h !! l = Some o -> l <> fresh (dom h).
Proof. intros H ->. rewrite fresh_None in H. discriminate. Qed.

Lemma bind_Return {A B} (c : M A) (k : A -> M B) h a h' :
  c h = (Return a, h') -> bind c k h = k a h'.
Proof. unfold bind. now intros ->. Qed.

Lemma bind_Throw {A B} (c : M A) (k : A -> M B) h e h' :
  c h = (Throw e, h') -> bind c k h = (Throw e, h').
Proof. unfold bind. now intros ->. Qed.

Lemma get_lng_run h l lng lat :
  h !! l = Some (LngLat lng lat) -> get_lng l h = (Return lng, h).
Proof. intros H. unfold get_lng, bind, load. now rewrite H. Qed.

Lemma get_lat_run h l lng lat :
  h !! l = Some (LngLat lng lat) -> get_lat l h = (Return lat, h).
Proof. intros H. unfold get_lat, bind, load. now rewrite H. Qed.

Lemma set_lng_run h l lng lat v :
  h !! l = Some (LngLat lng lat) ->
  set_lng l v h = (Return tt, <[l := LngLat v lat]> h).
Proof. intros H. unfold set_lng, bind, load. now rewrite H. Qed.

Lemma set_lat_run h l lng lat v :
  h !! l = Some (LngLat lng lat) ->
  set_lat l v h = (Return tt, <[l := LngLat lng v]> h).
Proof. intros H. unfold set_lat, bind, load. now rewrite H. Qed.

Lemma get__sw_run h l sw ne :
  h !! l = Some (LngLatBounds sw ne) -> get__sw l h = (Return sw, h).
Proof. intros H. unfold get__sw, bind, load. now rewrite H. Qed.

Lemma get__ne_run h l sw ne :
  h !! l = Some (LngLatBounds sw ne) -> get__ne l h = (Return ne, h).
Proof. intros H. unfold get__ne, bind, load. now rewrite H. Qed.

Lemma set__sw_run h l sw ne v :
  h !! l = Some (LngLatBounds sw ne) ->
  set__sw l v h = (Return tt, <[l := LngLatBounds v ne]> h).
Proof. intros H. unfold set__sw, bind, load. now rewrite H. Qed.

Lemma set__ne_run h l sw ne v :
  h !! l = Some (LngLatBounds sw ne) ->
  set__ne l v h = (Return tt, <[l := LngLatBounds sw v]> h).
Proof. intros H. unfold set__ne, bind, load. now rewrite H. Qed.

Lemma get_x_run h l x y :
  h !! l = Some (Point x y) -> get_x l h = (Return x, h).
Proof. intros H. unfold get_x, bind, load. now rewrite H. Qed.

Lemma get_y_run h l x y :
  h !! l = Some (Point x y) -> get_y l h = (Return y, h).
Proof. intros H. unfold get_y, bind, load. now rewrite H. Qed.

Lemma set_x_run h l x y v :
  h !! l = Some (Point x y) -> set_x l v h = (Return tt, <[l := Point v y]> h).
Proof. intros H. unfold set_x, bind, load. now rewrite H. Qed.

Lemma set_y_run h l x y v :
  h !! l = Some (Point x y) -> set_y l v h = (Return tt, <[l := Point x v]> h).
Proof. intros H. unfold set_y, bind, load. now rewrite H. Qed.

(** ** LngLat: construction *)

Lemma LngLat_constructor_ok (lng lat : number) (h : heap) :
  isNaN lng = false -> isNaN lat = false -> lat_in_range lat ->
  LngLat_constructor lng lat h
  = (Return (fresh (dom h)), <[fresh (dom h) := LngLat lng lat]> h).
Proof.
  intros Hlng Hlat [Hlo Hhi]. unfold LngLat_constructor, num_pos. cbv zeta.
  change (lat <? Finite (-90))%js with (Finite (-90) >? lat)%js.
  rewrite !num_gt_le by (auto; reflexivity).
  rewrite Hlng, Hlat, Hlo, Hhi. reflexivity.
Qed.

Lemma LngLat_constructor_NaN (lng lat : number) (h : heap) :
  isNaN lng = true \/ isNaN lat = true ->
  LngLat_constructor lng lat h = (Throw (InvalidLngLat lng lat), h).
Proof.
  intros H. unfold LngLat_constructor.
  destruct (isNaN lng), (isNaN lat); try reflexivity.
  destruct H; discriminate.
Qed.

Lemma LngLat_constructor_range (lng lat : number) (h : heap) :
  isNaN lng = false -> isNaN lat = false -> ~ lat_in_range lat ->
  LngLat_constructor lng lat h = (Throw InvalidLatitude, h).
Proof.
  intros Hlng Hlat Hr. unfold LngLat_constructor, num_pos. cbv zeta.
  change (lat <? Finite (-90))%js with (Finite (-90) >? lat)%js.
  rewrite !num_gt_le by (auto; reflexivity).
  rewrite Hlng, Hlat.
  destruct (lat <=? Finite 90)%js eqn:Hhi; [|reflexivity].
  destruct (Finite (-90) <=? lat)%js eqn:Hlo; [|reflexivity].
  exfalso. apply Hr. now split.
Qed.

(** C1, as amended.  Construction throws exactly when [lng] or [lat] is NaN
    or [lat] lies outside the interval from -90 to 90; otherwise it stores
    the given values in a new object.  It throws for [lat = 90.0001], for
    [lat = -90.0001], for NaN and for an infinite [lat]; an infinite [lng]
    is accepted when [lat] is in range. *)
Theorem LngLat_constructor_spec (lng lat : number) (h : heap) :
  (fails (LngLat_constructor lng lat) h
   <-> isNaN lng = true \/ isNaN lat = true \/ ~ lat_in_range lat)
  /\ (isNaN lng = false /\ isNaN lat = false /\ lat_in_range lat ->
      exists l, h !! l = None
                /\ LngLat_constructor lng lat h
                   = (Return l, <[l := LngLat lng lat]> h))
  /\ fails (LngLat_constructor lng (Finite 90.0001)) h
  /\ fails (LngLat_constructor lng (Finite (-90.0001))) h
  /\ fails (LngLat_constructor NaN lat) h
  /\ fails (LngLat_constructor lng NaN) h
  /\ (forall s, fails (LngLat_constructor lng (Infinity s)) h)
  /\ (forall s, isNaN lat = false -> lat_in_range lat ->
                ~ fails (LngLat_constructor (Infinity s) lat) h).
Proof.
  assert (Hdec : forall lat', lat_in_range lat' \/ ~ lat_in_range lat').
  { intros lat'. unfold lat_in_range.
    destruct (Finite (-90) <=? lat')%js, (lat' <=? Finite 90)%js;
      intuition discriminate. }
  assert (Hout : forall lng' lat',
             isNaN lat' = false -> ~ lat_in_range lat' ->
             fails (LngLat_constructor lng' lat') h).
  { intros lng' lat' Hlat Hr. destruct (isNaN lng') eqn:Hlng.
    - exists (InvalidLngLat lng' lat').
      rewrite LngLat_constructor_NaN by auto. reflexivity.
    - exists InvalidLatitude.
      rewrite LngLat_constructor_range by auto. reflexivity. }
  repeat split.
  - intros [e He].
    destruct (isNaN lng) eqn:Hlng; [now left|].
    destruct (isNaN lat) eqn:Hlat; [now right; left|].
    right; right. intros Hr.
    rewrite LngLat_constructor_ok in He by auto. discriminate.
  - intros [Hlng | [Hlat | Hr]].
    + exists (InvalidLngLat lng lat).
      rewrite LngLat_constructor_NaN by auto. reflexivity.
    + exists (InvalidLngLat lng lat).
      rewrite LngLat_constructor_NaN by auto. reflexivity.
    + destruct (isNaN lat) eqn:Hlat.
      * exists (InvalidLngLat lng lat).
        rewrite LngLat_constructor_NaN by auto. reflexivity.
      * now apply Hout.
  - intros (Hlng & Hlat & Hr). exists (fresh (dom h)). split.
    + apply fresh_None.
    + now apply LngLat_constructor_ok.
  - apply Hout; [reflexivity|]. intros [_ H]. apply num_le_Finite in H. lra.
  - apply Hout; [reflexivity|]. intros [H _]. apply num_le_Finite in H. lra.
  - exists (InvalidLngLat NaN lat).
    rewrite LngLat_constructor_NaN by auto. reflexivity.
  - exists (InvalidLngLat lng NaN).
    rewrite LngLat_constructor_NaN by auto. reflexivity.
  - intros s. apply Hout; [reflexivity|].
    intros [H1 H2]. destruct s; discriminate.
  - intros s Hlat Hr [e He].
    rewrite LngLat_constructor_ok in He by auto. discriminate.
Qed.

(** C1, as stated, fails: a longitude that is not finite is accepted. *)
Lemma LngLat_constructor_accepts_Infinity :
  isFinite (Infinity false) = false
  /\ exists l, LngLat_constructor (Infinity false) (Finite 0) ∅
               = (Return l, {[ l := LngLat (Infinity false) (Finite 0) ]}).
Proof.
  split; [reflexivity|]. exists (fresh (dom (∅ : heap))).
  rewrite LngLat_constructor_ok; [reflexivity| reflexivity | reflexivity |].
  split; apply num_le_Finite; lra.
Qed.

(** The constructor on the coordinates (30, 40), on an empty heap. *)
Lemma LngLat_constructor_spec_witness :
  exists l, LngLat_constructor (Finite 30) (Finite 40) ∅
            = (Return l, {[ l := LngLat (Finite 30) (Finite 40) ]}).
Proof.
  destruct (LngLat_constructor_spec (Finite 30) (Finite 40) ∅)
    as (_ & Hok & _).
  destruct Hok as (l & _ & Hrun).
  - repeat split; try reflexivity; apply num_le_Finite; lra.
  - exists l. exact Hrun.
Defined.

(** ** LngLatBounds: [extend] *)

Lemma extend_target_LngLat h obj lng lat :
  h !! obj = Some (LngLat lng lat) ->
  extend_target obj h = (Return (Some (Some obj, Some obj)), h).
Proof.
  intros H. unfold extend_target, bind, instanceof_LngLat. now rewrite H.
Qed.

Lemma extend_target_Bounds h obj sw2 ne2 :
  h !! obj = Some (LngLatBounds sw2 ne2) ->
  extend_target obj h
  = (Return (if not_ref sw2 || not_ref ne2 then None else Some (sw2, ne2)), h).
Proof.
  intros H.
  unfold extend_target, bind, instanceof_LngLat, instanceof_LngLatBounds.
  rewrite H. cbv beta iota. rewrite H. cbv beta iota.
  rewrite (get__sw_run _ _ _ _ H). cbv beta iota.
  rewrite (get__ne_run _ _ _ _ H). cbv beta iota.
  now destruct (not_ref sw2 || not_ref ne2).
Qed.

(** One assignment of the growing branch, [s.lng = f(s2.lng, s.lng)]. *)
Lemma grow_lng_run (f : number -> number -> number) h s s2 a b a2 b2 :
  h !! s = Some (LngLat a b) -> h !! s2 = Some (LngLat a2 b2) ->
  (let! x := ref_lng (Some s2) in
   let! y := ref_lng (Some s) in
   let! l := defined (Some s) in
   set_lng l (f x y)) h
  = (Return tt, <[s := LngLat (f a2 a) b]> h).
Proof.
  intros Hs Hs2. unfold ref_lng, defined.
  rewrite (bind_Return _ _ h a2 h)
    by (rewrite (bind_Return _ _ h s2 h) by reflexivity; eapply get_lng_run; eauto).
  rewrite (bind_Return _ _ h a h)
    by (rewrite (bind_Return _ _ h s h) by reflexivity; eapply get_lng_run; eauto).
  rewrite (bind_Return _ _ h s h) by reflexivity.
  eapply set_lng_run; eauto.
Qed.

(** One assignment of the growing branch, [s.lat = f(s2.lat, s.lat)]. *)
Lemma grow_lat_run (f : number -> number -> number) h s s2 a b a2 b2 :
  h !! s = Some (LngLat a b) -> h !! s2 = Some (LngLat a2 b2) ->
  (let! x := ref_lat (Some s2) in
   let! y := ref_lat (Some s) in
   let! l := defined (Some s) in
   set_lat l (f x y)) h
  = (Return tt, <[s := LngLat a (f b2 b)]> h).
Proof.
  intros Hs Hs2. unfold ref_lat, defined.
  rewrite (bind_Return _ _ h b2 h)
    by (rewrite (bind_Return _ _ h s2 h) by reflexivity; eapply get_lat_run; eauto).
  rewrite (bind_Return _ _ h b h)
    by (rewrite (bind_Return _ _ h s h) by reflexivity; eapply get_lat_run; eauto).
  rewrite (bind_Return _ _ h s h) by reflexivity.
  eapply set_lat_run; eauto.
Qed.

(** Reading the latitude stored at a location, whatever else an update at
    [s] did to the object there. *)
Lemma lookup_LngLat_insert (h : heap) (s l : loc) a b a' b' :
  h !! s = Some (LngLat a b) ->
  (exists c d, h !! l = Some (LngLat c d) /\ isNaN d = false) ->
  isNaN b' = false ->
  exists c d, <[s := LngLat a' b']> h !! l = Some (LngLat c d) /\ isNaN d = false.
Proof.
  intros Hs (c & d & Hl & Hd) Hb'. destruct (decide (s = l)) as [->|Hne].
  - rewrite lookup_insert_eq. eauto.
  - rewrite lookup_insert_ne by done. eauto.
Qed.

(** The creating branch of [extend]: both corners are new objects holding
    the coordinates read from the argument. *)
Lemma extend_corners_create (h : heap) (this s2 n2 : loc) a b c d :
  h !! this = Some (LngLatBounds None None) ->
  h !! s2 = Some (LngLat a b) -> LngLat_inv a b ->
  h !! n2 = Some (LngLat c d) -> LngLat_inv c d ->
  exists c1 c2 h',
    extend_corners this None None (Some s2) (Some n2) h = (Return tt, h')
    /\ c1 <> c2 /\ h !! c1 = None /\ h !! c2 = None
    /\ h' !! this = Some (LngLatBounds (Some c1) (Some c2))
    /\ h' !! c1 = Some (LngLat a b)
    /\ h' !! c2 = Some (LngLat c d)
    /\ (forall l, l <> this -> l <> c1 -> l <> c2 -> h' !! l = h !! l).
Proof.
  intros Hthis Hs2 [Ha Hb] Hn2 [Hc Hd].
  set (c1 := fresh (dom h)).
  set (h1 := <[c1 := LngLat a b]> h).
  set (h2 := <[this := LngLatBounds (Some c1) None]> h1).
  set (c2 := fresh (dom h2)).
  set (h3 := <[c2 := LngLat c d]> h2).
  set (h4 := <[this := LngLatBounds (Some c1) (Some c2)]> h3).
  assert (Hc1 : h !! c1 = None) by apply fresh_None.
  assert (Hc2 : h2 !! c2 = None) by apply fresh_None.
  assert (Ht1 : this <> c1) by (intros ->; congruence).
  assert (H2this : h2 !! this = Some (LngLatBounds (Some c1) None))
    by apply lookup_insert_eq.
  assert (Ht2 : this <> c2) by (intros E; rewrite E in H2this; congruence).
  assert (H2c1 : h2 !! c1 = Some (LngLat a b)).
  { unfold h2, h1. rewrite lookup_insert_ne by done. apply lookup_insert_eq. }
  assert (H12 : c1 <> c2) by (intros E; rewrite E in H2c1; congruence).
  assert (H2n2 : h2 !! n2 = Some (LngLat c d)).
  { unfold h2, h1.
    rewrite lookup_insert_ne by (intros ->; congruence).
    rewrite lookup_insert_ne by (intros E; rewrite <- E in Hn2; congruence).
    exact Hn2. }
  exists c1, c2, h4. repeat split.
  - unfold extend_corners. cbn [not_ref andb].
    rewrite (bind_Return _ _ h tt h2).
    2:{ unfold ref_lng, ref_lat, defined.
        rewrite (bind_Return _ _ h a h)
          by (rewrite (bind_Return _ _ h s2 h) by reflexivity;
              eapply get_lng_run; eauto).
        rewrite (bind_Return _ _ h b h)
          by (rewrite (bind_Return _ _ h s2 h) by reflexivity;
              eapply get_lat_run; eauto).
        rewrite (bind_Return _ _ h c1 h1)
          by (now apply LngLat_constructor_ok; [| eapply num_le_not_NaN, Hb |]).
        eapply set__sw_run. unfold h1. rewrite lookup_insert_ne by done. eauto. }
    unfold ref_lng, ref_lat, defined.
    rewrite (bind_Return _ _ h2 c h2)
      by (rewrite (bind_Return _ _ h2 n2 h2) by reflexivity;
          eapply get_lng_run; eauto).
    rewrite (bind_Return _ _ h2 d h2)
      by (rewrite (bind_Return _ _ h2 n2 h2) by reflexivity;
          eapply get_lat_run; eauto).
    rewrite (bind_Return _ _ h2 c2 h3)
      by (now apply LngLat_constructor_ok; [| eapply num_le_not_NaN, Hd |]).
    eapply set__ne_run. unfold h3. rewrite lookup_insert_ne by done. eauto.
  - exact H12.
  - exact Hc1.
  - destruct (h !! c2) eqn:E; [|reflexivity]. exfalso.
    unfold h2, h1 in Hc2.
    rewrite lookup_insert_ne in Hc2 by done.
    rewrite lookup_insert_ne in Hc2 by done. congruence.
  - apply lookup_insert_eq.
  - unfold h4, h3. rewrite !lookup_insert_ne by done. exact H2c1.
  - unfold h4, h3. rewrite lookup_insert_ne by done. apply lookup_insert_eq.
  - intros l Hl1 Hl2 Hl3. unfold h4, h3, h2, h1.
    now rewrite !lookup_insert_ne by done.
Qed.

(** The growing branch of [extend]: the objects the corners refer to are
    updated in place; [sw.lat <= ne.lat] survives, whatever aliasing there
    is among the four objects involved. *)
Lemma extend_corners_grow (h : heap) (this sw ne s2 n2 : loc)
      a b c d a2 b2 c2 d2 :
  h !! sw = Some (LngLat a b) -> h !! ne = Some (LngLat c d) ->
  h !! s2 = Some (LngLat a2 b2) -> h !! n2 = Some (LngLat c2 d2) ->
  isNaN b2 = false -> isNaN d2 = false ->
  (b <=? d)%js = true ->
  exists h' a' b' c' d',
    extend_corners this (Some sw) (Some ne) (Some s2) (Some n2) h
    = (Return tt, h')
    /\ (forall l, l <> sw -> l <> ne -> h' !! l = h !! l)
    /\ h' !! sw = Some (LngLat a' b')
    /\ h' !! ne = Some (LngLat c' d')
    /\ (b' <=? d')%js = true.
Proof.
  intros Hsw Hne Hs2 Hn2 Nb2 Nd2 Hle.
  destruct (num_le_not_NaN _ _ Hle) as [Nb Nd].
  (* sw.lng = Math.min(sw2.lng, sw.lng) *)
  set (h1 := <[sw := LngLat (Math_min a2 a) b]> h).
  assert (H1sw : h1 !! sw = Some (LngLat (Math_min a2 a) b))
    by apply lookup_insert_eq.
  assert (H1s2 : exists x, h1 !! s2 = Some (LngLat x b2)).
  { unfold h1. destruct (decide (sw = s2)) as [->|].
    - rewrite lookup_insert_eq. rewrite Hsw in Hs2. injection Hs2 as -> ->. eauto.
    - rewrite lookup_insert_ne by done. eauto. }
  destruct H1s2 as [a2' H1s2].
  (* sw.lat = Math.min(sw2.lat, sw.lat) *)
  set (b' := Math_min b2 b).
  assert (Nb' : isNaN b' = false) by now apply Math_min_not_NaN.
  set (h2 := <[sw := LngLat (Math_min a2 a) b']> h1).
  assert (H2sw : h2 !! sw = Some (LngLat (Math_min a2 a) b'))
    by apply lookup_insert_eq.
  assert (H2ne : exists x y, h2 !! ne = Some (LngLat x y) /\ isNaN y = false
                             /\ (sw <> ne -> y = d)).
  { unfold h2, h1. destruct (decide (sw = ne)) as [->|].
    - rewrite lookup_insert_eq. eexists _, _. repeat split; [done|done].
    - rewrite !lookup_insert_ne by done. eexists _, _. repeat split; eauto. }
  destruct H2ne as (c' & d' & H2ne & Nd' & Hd').
  assert (H2n2 : exists x y, h2 !! n2 = Some (LngLat x y) /\ isNaN y = false).
  { unfold h2. eapply lookup_LngLat_insert; eauto.
    unfold h1. eapply lookup_LngLat_insert; eauto. }
  destruct H2n2 as (c2' & d2' & H2n2 & Nd2').
  (* ne.lng = Math.max(ne2.lng, ne.lng) *)
  set (h3 := <[ne := LngLat (Math_max c2' c') d']> h2).
  assert (H3ne : h3 !! ne = Some (LngLat (Math_max c2' c') d'))
    by apply lookup_insert_eq.
  assert (H3n2 : exists x, h3 !! n2 = Some (LngLat x d2')).
  { unfold h3. destruct (decide (ne = n2)) as [->|].
    - rewrite lookup_insert_eq. rewrite H2ne in H2n2. injection H2n2 as -> ->. eauto.
    - rewrite lookup_insert_ne by done. eauto. }
  destruct H3n2 as [c2'' H3n2].
  (* ne.lat = Math.max(ne2.lat, ne.lat) *)
  set (d'' := Math_max d2' d').
  set (h4 := <[ne := LngLat (Math_max c2' c') d'']> h3).
  assert (H4sw : exists x y, h4 !! sw = Some (LngLat x y)
                             /\ (y <=? d'')%js = true).
  { unfold h4. destruct (decide (ne = sw)) as [->|Hneq].
    - rewrite lookup_insert_eq. eexists _, _. split; [done|].
      apply num_le_refl. now apply Math_max_not_NaN.
    - unfold h3. rewrite !lookup_insert_ne by done. rewrite H2sw.
      eexists _, _. split; [done|].
      assert (Ed : d' = d) by (apply Hd'; done). subst d'.
      eapply num_le_trans; [apply Math_min_le_r; done|].
      eapply num_le_trans; [exact Hle|].
      apply Math_max_ge_r; done. }
  destruct H4sw as (a4 & b4 & H4sw & Hle4).
  exists h4, a4, b4, (Math_max c2' c'), d''. repeat split.
  - unfold extend_corners. cbn [not_ref andb].
    rewrite (bind_Return _ _ h tt h1) by (eapply grow_lng_run; eauto).
    rewrite (bind_Return _ _ h1 tt h2) by (eapply grow_lat_run; eauto).
    rewrite (bind_Return _ _ h2 tt h3) by (eapply grow_lng_run; eauto).
    eapply grow_lat_run; eauto.
  - intros l Hl1 Hl2. unfold h4, h3, h2, h1.
    now rewrite !lookup_insert_ne by done.
  - exact H4sw.
  - apply lookup_insert_eq.
  - exact Hle4.
Qed.

Lemma LngLatBounds_extend_run (h : heap) (this obj : loc) sw ne t :
  h !! this = Some (LngLatBounds sw ne) ->
  extend_target obj h = (Return t, h) ->
  LngLatBounds_extend this obj h
  = match t with
    | None => (Return this, h)
    | Some (sw2, ne2) =>
        match extend_corners this sw ne sw2 ne2 h with
        | (Return _, h') => (Return this, h')
        | (Throw e, h') => (Throw e, h')
        end
    end.
Proof.
  intros Hthis Ht. unfold LngLatBounds_extend.
  rewrite (bind_Return _ _ h sw h) by (eapply get__sw_run; eauto).
  rewrite (bind_Return _ _ h ne h) by (eapply get__ne_run; eauto).
  rewrite (bind_Return _ _ h t h) by exact Ht.
  destruct t as [[sw2 ne2]|]; [|reflexivity].
  unfold bind. destruct (extend_corners this sw ne sw2 ne2 h) as [[|] ?]; reflexivity.
Qed.

(** Extending an empty bounds by a point: both corners become new objects
    with the coordinates of the point. *)
Lemma LngLatBounds_extend_empty_point (h : heap) (this p : loc) lng lat :
  h !! this = Some (LngLatBounds None None) ->
  h !! p = Some (LngLat lng lat) -> LngLat_inv lng lat ->
  exists sw ne h',
    LngLatBounds_extend this p h = (Return this, h')
    /\ sw <> ne /\ h !! sw = None /\ h !! ne = None
    /\ h' !! this = Some (LngLatBounds (Some sw) (Some ne))
    /\ h' !! sw = Some (LngLat lng lat)
    /\ h' !! ne = Some (LngLat lng lat)
    /\ (forall l, l <> this -> l <> sw -> l <> ne -> h' !! l = h !! l).
Proof.
  intros Hthis Hp Hinv.
  destruct (extend_corners_create h this p p lng lat lng lat Hthis Hp Hinv Hp Hinv)
    as (c1 & c2 & h' & Hrun & Hrest).
  exists c1, c2, h'. split; [|exact Hrest].
  rewrite (LngLatBounds_extend_run h this p None None
             (Some (Some p, Some p)) Hthis)
    by (eapply extend_target_LngLat; eauto).
  now rewrite Hrun.
Qed.

(** C2, as amended.  [extend] on an empty bounds, given a point, or given
    a bounds with [sw.lat <= ne.lat], sets both corners with
    [sw.lat <= ne.lat]; and [extend] on a bounds whose corners are set with
    [sw.lat <= ne.lat] keeps both properties. *)
Theorem LngLatBounds_extend_lat_ordered (h : heap) (this obj : loc) :
  (h !! this = Some (LngLatBounds None None) ->
   (exists lng lat, h !! obj = Some (LngLat lng lat) /\ LngLat_inv lng lat) ->
   exists h', LngLatBounds_extend this obj h = (Return this, h')
              /\ lat_ordered h' this)
  /\ (h !! this = Some (LngLatBounds None None) ->
      (exists sw2 ne2 lng1 lat1 lng2 lat2,
          h !! obj = Some (LngLatBounds (Some sw2) (Some ne2))
          /\ h !! sw2 = Some (LngLat lng1 lat1) /\ LngLat_inv lng1 lat1
          /\ h !! ne2 = Some (LngLat lng2 lat2) /\ LngLat_inv lng2 lat2
          /\ (lat1 <=? lat2)%js = true) ->
      exists h', LngLatBounds_extend this obj h = (Return this, h')
                 /\ lat_ordered h' this)
  /\ (lat_ordered h this -> extend_arg h obj ->
      exists h', LngLatBounds_extend this obj h = (Return this, h')
                 /\ lat_ordered h' this).
Proof.
  split; [|split].
  - intros Hthis (lng & lat & Hobj & Hinv).
    destruct (LngLatBounds_extend_empty_point h this obj lng lat Hthis Hobj Hinv)
      as (sw & ne & h' & Hrun & _ & _ & _ & Ht & Hsw & Hne & _).
    exists h'. split; [exact Hrun|].
    exists sw, ne, lng, lat, lng, lat. repeat split; try done.
    apply num_le_refl. destruct Hinv as [_ [_ H]].
    now destruct (num_le_not_NaN _ _ H).
  - intros Hthis (sw2 & ne2 & a & b & c & d & Hobj & Hs2 & I1 & Hn2 & I2 & Hle).
    destruct (extend_corners_create h this sw2 ne2 a b c d Hthis Hs2 I1 Hn2 I2)
      as (c1 & c2 & h' & Hrun & _ & _ & _ & Ht & Hc1 & Hc2 & _).
    exists h'. split.
    + rewrite (LngLatBounds_extend_run h this obj None None
                 (Some (Some sw2, Some ne2)) Hthis)
        by (rewrite (extend_target_Bounds h obj _ _ Hobj); reflexivity).
      now rewrite Hrun.
    + exists c1, c2, a, b, c, d. done.
  - intros (sw & ne & a & b & c & d & Hthis & Hsw & Hne & Hle) Harg.
    assert (Hgrow : forall s2 n2 a2 b2 c2 d2,
               extend_target obj h = (Return (Some (Some s2, Some n2)), h) ->
               h !! s2 = Some (LngLat a2 b2) -> h !! n2 = Some (LngLat c2 d2) ->
               isNaN b2 = false -> isNaN d2 = false ->
               exists h', LngLatBounds_extend this obj h = (Return this, h')
                          /\ lat_ordered h' this).
    { intros s2 n2 a2 b2 c2 d2 Ht Hs2 Hn2 Nb2 Nd2.
      destruct (extend_corners_grow h this sw ne s2 n2 a b c d a2 b2 c2 d2
                  Hsw Hne Hs2 Hn2 Nb2 Nd2 Hle)
        as (h' & a' & b' & c' & d' & Hrun & Hframe & Hsw' & Hne' & Hle').
      exists h'. split.
      - rewrite (LngLatBounds_extend_run h this obj _ _ _ Hthis Ht).
        now rewrite Hrun.
      - exists sw, ne, a', b', c', d'. repeat split; try done.
        rewrite Hframe; [exact Hthis | |]; intros ->; congruence. }
    unfold extend_arg in Harg.
    destruct (h !! obj) as [[lng lat|sw2 ne2|]|] eqn:Hobj; try contradiction.
    + apply (Hgrow obj obj lng lat lng lat); try done.
      eapply extend_target_LngLat; eauto.
    + destruct sw2 as [s2|], ne2 as [n2|].
      * destruct Harg as (a2 & b2 & c2 & d2 & Hs2 & Nb2 & Hn2 & Nd2).
        apply (Hgrow s2 n2 a2 b2 c2 d2); try done.
        rewrite (extend_target_Bounds h obj _ _ Hobj). reflexivity.
      * exists h. split.
        -- rewrite (LngLatBounds_extend_run h this obj _ _ None Hthis); [done|].
           rewrite (extend_target_Bounds h obj _ _ Hobj). reflexivity.
        -- exists sw, ne, a, b, c, d. done.
      * exists h. split.
        -- rewrite (LngLatBounds_extend_run h this obj _ _ None Hthis); [done|].
           rewrite (extend_target_Bounds h obj _ _ Hobj). reflexivity.
        -- exists sw, ne, a, b, c, d. done.
      * exists h. split.
        -- rewrite (LngLatBounds_extend_run h this obj _ _ None Hthis); [done|].
           rewrite (extend_target_Bounds h obj _ _ Hobj). reflexivity.
        -- exists sw, ne, a, b, c, d. done.
Qed.

(** ** LngLatBounds: construction and the setters *)

Lemma LngLatBounds_constructor_two (h : heap) (sw ne : loc) :
  LngLatBounds_constructor (Some sw) (Some ne) h
  = (Return (fresh (dom h)),
     <[fresh (dom h) := LngLatBounds (Some sw) (Some ne)]> h).
Proof.
  unfold LngLatBounds_constructor.
  set (b := fresh (dom h)).
  rewrite (bind_Return _ _ h b (<[b := LngLatBounds None None]> h))
    by reflexivity.
  rewrite (bind_Return _ _ _ b (<[b := LngLatBounds (Some sw) (Some ne)]> h)).
  - reflexivity.
  - unfold LngLatBounds_setSouthWest, LngLatBounds_setNorthEast.
    erewrite (bind_Return _ _ _ b).
    2:{ erewrite bind_Return; [reflexivity|].
        eapply set__sw_run. apply lookup_insert_eq. }
    erewrite bind_Return; [|eapply set__ne_run; apply lookup_insert_eq].
    unfold ret. now rewrite !insert_insert_eq.
Qed.

(** ** Running read-only methods *)

(** Unfolds the monad and the methods down to heap lookups and updates. *)
Ltac munfold :=
  cbv beta iota zeta delta
    [bind ret throw load store defined andM
     get_lng get_lat set_lng set_lat get__sw get__ne set__sw set__ne
     get_x get_y set_x set_y ref_lng ref_lat
     this__sw_lng this__sw_lat this__ne_lng this__ne_lat
     LngLatBounds_getWest LngLatBounds_getSouth LngLatBounds_getEast
     LngLatBounds_getNorth LngLatBounds_getNorthWest LngLatBounds_getSouthEast
     LngLatBounds_getCenter LngLatBounds_getSouthWest LngLatBounds_getNorthEast
     LngLatBounds_isEmpty LngLatBounds_contains
     LngLat_toString LngLatBounds_toString LngLat_wrap LngLat_distanceTo].

(** Replaces the lookups the context knows the result of. *)
Ltac mlookup :=
  match goal with
  | H : ?h !! ?l = _ |- context [?h !! ?l] => rewrite H
  end.

Ltac mrun := repeat (munfold; try mlookup).

(** Splits on the condition of a conditional that blocks the run. *)
Ltac mcase :=
  match goal with
  | |- context [if ?c then _ else _] => destruct c eqn:?
  end.

Lemma LngLatBounds_contains_run (h : heap) (this p sw ne : loc) a b c d x y :
  h !! this = Some (LngLatBounds (Some sw) (Some ne)) ->
  h !! sw = Some (LngLat a b) -> h !! ne = Some (LngLat c d) ->
  h !! p = Some (LngLat x y) ->
  LngLatBounds_contains this p h
  = (Return (((b <=? y) && (y <=? d))
             && (if a >? c then (a >=? x) && (x >=? c)
                 else (a <=? x) && (x <=? c)))%js, h).
Proof.
  intros Hthis Hsw Hne Hp. mrun. repeat (mcase; mrun); reflexivity.
Qed.

Lemma two_corner_construction_run (h : heap) lng1 lat1 lng2 lat2 :
  LngLat_inv lng1 lat1 -> LngLat_inv lng2 lat2 ->
  exists sw ne b h',
    two_corner_construction lng1 lat1 lng2 lat2 h = (Return (sw, ne, b), h')
    /\ h' !! b = Some (LngLatBounds (Some sw) (Some ne))
    /\ h' !! sw = Some (LngLat lng1 lat1)
    /\ h' !! ne = Some (LngLat lng2 lat2).
Proof.
  intros [N1 R1] [N2 R2].
  assert (isNaN lat1 = false) by (destruct R1 as [_ R]; now destruct (num_le_not_NaN _ _ R)).
  assert (isNaN lat2 = false) by (destruct R2 as [_ R]; now destruct (num_le_not_NaN _ _ R)).
  set (sw := fresh (dom h)). set (h1 := <[sw := LngLat lng1 lat1]> h).
  set (ne := fresh (dom h1)). set (h2 := <[ne := LngLat lng2 lat2]> h1).
  set (b := fresh (dom h2)).
  assert (H2ne : h2 !! ne = Some (LngLat lng2 lat2)) by apply lookup_insert_eq.
  assert (Hne : sw <> ne).
  { intros E. pose proof (fresh_None h1) as F. fold ne in F. rewrite <- E in F.
    unfold h1 in F. rewrite lookup_insert_eq in F. discriminate. }
  assert (H2sw : h2 !! sw = Some (LngLat lng1 lat1)).
  { unfold h2. rewrite lookup_insert_ne by done. apply lookup_insert_eq. }
  assert (Hb : h2 !! b = None) by apply fresh_None.
  exists sw, ne, b, (<[b := LngLatBounds (Some sw) (Some ne)]> h2).
  repeat split.
  - unfold two_corner_construction.
    rewrite (bind_Return _ _ h sw h1) by now apply LngLat_constructor_ok.
    rewrite (bind_Return _ _ h1 ne h2) by now apply LngLat_constructor_ok.
    rewrite (bind_Return _ _ h2 b _) by apply LngLatBounds_constructor_two.
    reflexivity.
  - apply lookup_insert_eq.
  - rewrite lookup_insert_ne by (intros E; rewrite E in Hb; congruence). done.
  - rewrite lookup_insert_ne by (intros E; rewrite E in Hb; congruence). done.
Qed.

(** C2, as stated, fails: the two-corner constructor assigns the corners it
    is given, so [sw.lat <= ne.lat] need not hold once both are set. *)
Lemma LngLatBounds_constructor_unordered :
  exists sw ne b h,
    two_corner_construction (Finite 0) (Finite 10) (Finite 0) (Finite (-10)) ∅
    = (Return (sw, ne, b), h)
    /\ h !! b = Some (LngLatBounds (Some sw) (Some ne))
    /\ h !! sw = Some (LngLat (Finite 0) (Finite 10))
    /\ h !! ne = Some (LngLat (Finite 0) (Finite (-10)))
    /\ ~ lat_ordered h b.
Proof.
  destruct (two_corner_construction_run ∅
              (Finite 0) (Finite 10) (Finite 0) (Finite (-10)))
    as (sw & ne & b & h & Hrun & Hb & Hsw & Hne).
  { split; [reflexivity|]. split; apply num_le_Finite; lra. }
  { split; [reflexivity|]. split; apply num_le_Finite; lra. }
  exists sw, ne, b, h. repeat split; try done.
  intros (sw' & ne' & a1 & b1 & a2 & b2 & Hb' & Hsw' & Hne' & Hle).
  rewrite Hb in Hb'. injection Hb' as <- <-.
  rewrite Hsw in Hsw'. injection Hsw' as <- <-.
  rewrite Hne in Hne'. injection Hne' as <- <-.
  apply num_le_Finite in Hle. lra.
Qed.

Lemma empty_bounds_and_point_inv : LngLat_inv (Finite 30) (Finite 40).
Proof. split; [reflexivity|]. split; apply num_le_Finite; lra. Qed.

(** [LngLatBounds_extend_lat_ordered] applies: an empty bounds extended by
    the point (30, 40), and the result extended by the same point again. *)
Lemma LngLatBounds_extend_lat_ordered_witness :
  exists h' h'',
    LngLatBounds_extend 1%positive 2%positive empty_bounds_and_point
    = (Return 1%positive, h')
    /\ lat_ordered h' 1%positive
    /\ LngLatBounds_extend 1%positive 2%positive h' = (Return 1%positive, h'')
    /\ lat_ordered h'' 1%positive.
Proof.
  destruct (LngLatBounds_extend_lat_ordered
              empty_bounds_and_point 1%positive 2%positive) as [Hcreate _].
  destruct Hcreate as (h' & Hrun & Hord).
  { reflexivity. }
  { exists (Finite 30), (Finite 40). split; [reflexivity|].
    exact empty_bounds_and_point_inv. }
  assert (H2 : h' !! 2%positive = Some (LngLat (Finite 30) (Finite 40))).
  { destruct (LngLatBounds_extend_empty_point
                empty_bounds_and_point 1%positive 2%positive (Finite 30) (Finite 40))
      as (sw & ne & h1 & Hrun1 & _ & Hsw & Hne & _ & _ & _ & Hframe);
      [reflexivity | reflexivity | exact empty_bounds_and_point_inv |].
    rewrite Hrun in Hrun1. injection Hrun1 as <-.
    assert (E : empty_bounds_and_point !! 2%positive
                = Some (LngLat (Finite 30) (Finite 40))) by reflexivity.
    rewrite Hframe; [exact E | discriminate | |]; intros <-; congruence. }
  destruct (LngLatBounds_extend_lat_ordered h' 1%positive 2%positive)
    as (_ & _ & Hkeep).
  destruct Hkeep as (h'' & Hrun' & Hord'); [exact Hord | |].
  { unfold extend_arg. rewrite H2. reflexivity. }
  exists h', h''. repeat split; assumption.
Defined.

(** ** Doubles and rounding *)

Lemma pow2_pos (e : Z) : 0 < pow2 e.
Proof. apply powerRZ_lt. lra. Qed.

Lemma pow2_add (a b : Z) : pow2 (a + b) = pow2 a * pow2 b.
Proof. apply powerRZ_add. lra. Qed.

Lemma pow2_0 : pow2 0 = 1.
Proof. reflexivity. Qed.

Lemma pow2_1 : pow2 1 = 2.
Proof. exact (powerRZ_1 2). Qed.

Lemma pow2_IZR (n : Z) : (0 <= n)%Z -> pow2 n = IZR (2 ^ n).
Proof.
  intros Hn. unfold pow2. rewrite <- (Z2Nat.id n Hn) at 2.
  rewrite <- pow_IZR, pow_powerRZ. now rewrite Z2Nat.id.
Qed.

Lemma pow2_ge_1 (n : Z) : (0 <= n)%Z -> 1 <= pow2 n.
Proof.
  intros Hn. unfold pow2. rewrite <- (Z2Nat.id n Hn), <- pow_powerRZ.
  apply pow_R1_Rle. lra.
Qed.

Lemma pow2_le (a b : Z) : (a <= b)%Z -> pow2 a <= pow2 b.
Proof.
  intros H. replace b with (a + (b - a))%Z by lia. rewrite pow2_add.
  pose proof (pow2_pos a). pose proof (pow2_ge_1 (b - a) ltac:(lia)).
  rewrite <- (Rmult_1_r (pow2 a)) at 1.
  apply Rmult_le_compat_l; lra.
Qed.

Lemma is_double_IZR (n : Z) : (Z.abs n < 2 ^ 53)%Z -> is_double (IZR n).
Proof.
  intros H. exists n, 0%Z. split; [exact H|]. split; [lia|].
  rewrite pow2_0. lra.
Qed.

Lemma Rabs_double (m e : Z) : Rabs (IZR m * pow2 e) = IZR (Z.abs m) * pow2 e.
Proof.
  rewrite Rabs_mult, <- abs_IZR. f_equal.
  apply Rabs_pos_eq. left. apply pow2_pos.
Qed.

(** Every double is below [2^1024] in magnitude. *)
Lemma is_double_bound (r : R) : is_double r -> Rabs r < pow2 1024.
Proof.
  intros (m & e & Hm & He & ->). rewrite Rabs_double.
  replace 1024%Z with (53 + 971)%Z by lia. rewrite pow2_add.
  rewrite (pow2_IZR 53) by lia.
  pose proof (pow2_pos e) as P1. pose proof (pow2_le e 971 ltac:(lia)) as P2.
  assert (H0 : 0 <= IZR (Z.abs m)) by (apply IZR_le; lia).
  assert (H1 : IZR (Z.abs m) < IZR (2 ^ 53)) by (now apply IZR_lt).
  apply Rle_lt_trans with (IZR (Z.abs m) * pow2 971).
  - now apply Rmult_le_compat_l.
  - apply Rmult_lt_compat_r; [apply pow2_pos | exact H1].
Qed.

(** The sum of a double below [2^1023] with itself is a double. *)
Lemma is_double_twice (r : R) :
  is_double r -> Rabs r < pow2 1023 -> is_double (r + r).
Proof.
  intros (m & e & Hm & He & ->) Hr.
  destruct (Z.eq_dec e 971%Z) as [-> | Hne].
  - exists (2 * m)%Z, 971%Z. split; [|split; [lia|]].
    + rewrite Rabs_double in Hr.
      replace 1023%Z with (52 + 971)%Z in Hr by lia. rewrite pow2_add in Hr.
      rewrite (pow2_IZR 52) in Hr by lia.
      apply Rmult_lt_reg_r in Hr; [|apply pow2_pos].
      apply lt_IZR in Hr. lia.
    + rewrite mult_IZR. lra.
  - exists m, (e + 1)%Z. split; [exact Hm|]. split; [lia|].
    rewrite pow2_add, pow2_1. lra.
Qed.

Lemma round_overflow_below (r : R) :
  Rabs r < pow2 1024 -> round_overflow r = Finite r.
Proof.
  intros H. unfold round_overflow.
  destruct (Rle_dec (pow2 1024) (Rabs r)); [lra | reflexivity].
Qed.

Lemma round_overflow_above (r : R) :
  pow2 1024 <= r -> round_overflow r = Infinity false.
Proof.
  intros H. pose proof (pow2_pos 1024) as P. unfold round_overflow.
  rewrite Rabs_pos_eq by lra.
  destruct (Rle_dec (pow2 1024) r); [|lra].
  unfold Rltb. destruct (Rlt_dec r 0); [lra | reflexivity].
Qed.

(** [round_overflow] returns a double unchanged. *)
Lemma round_overflow_exact : exact_on_doubles round_overflow.
Proof.
  intros r H. apply round_overflow_below. now apply is_double_bound.
Qed.

(** ** The rounded methods at the exact rounding

    With a rounding that does nothing and the sine, cosine and arc cosine
    of the reals, the rounded methods are the methods of the first
    embedding. *)

Lemma round_Finite (a : number) : Rounded.round Finite a = a.
Proof. now destruct a. Qed.

Lemma bind_ext {A B} (c : M A) (k k' : A -> M B) :
  (forall a, k a = k' a) -> bind c k = bind c k'.
Proof.
  intros H. f_equal.
  apply FunctionalExtensionality.functional_extensionality. exact H.
Qed.

Ltac exact_instance :=
  cbv zeta; unfold Rounded.add, Rounded.sub, Rounded.mul, Rounded.div,
    Rounded.Math_PI, Rounded.EARTH_RADIUS;
  repeat (apply bind_ext; intros ?);
  rewrite ?round_Finite; reflexivity.

Lemma LngLat_distanceTo_exact (this lngLat : loc) :
  Rounded.LngLat_distanceTo Finite Math_sin Math_cos Math_acos this lngLat
  = LngLat_distanceTo this lngLat.
Proof.
  unfold Rounded.LngLat_distanceTo, LngLat_distanceTo, Math_PI, EARTH_RADIUS.
  exact_instance.
Qed.

Lemma LngLatBounds_getCenter_exact (this : loc) :
  Rounded.LngLatBounds_getCenter Finite this = LngLatBounds_getCenter this.
Proof.
  unfold Rounded.LngLatBounds_getCenter, LngLatBounds_getCenter.
  exact_instance.
Qed.

Lemma Point__rotate_exact (this : loc) (angle : number) :
  Rounded.Point__rotate Finite Math_sin Math_cos this angle
  = Point__rotate this angle.
Proof.
  unfold Rounded.Point__rotate, Point__rotate. exact_instance.
Qed.

Lemma Point_rotate_exact (this : loc) (a : number) :
  Rounded.Point_rotate Finite Math_sin Math_cos this a = Point_rotate this a.
Proof.
  unfold Rounded.Point_rotate, Point_rotate.
  apply bind_ext. intros c. apply Point__rotate_exact.
Qed.
(** ** LngLatBounds: [getCenter] of a one-point box *)

Lemma LngLatBounds_getCenter_run (h : heap) (this sw ne : loc) a b c d :
  h !! this = Some (LngLatBounds (Some sw) (Some ne)) ->
  h !! sw = Some (LngLat a b) -> h !! ne = Some (LngLat c d) ->
  LngLatBounds_getCenter this h
  = LngLat_constructor ((a + c) / Finite 2)%js ((b + d) / Finite 2)%js h.
Proof. intros Hthis Hsw Hne. mrun. reflexivity. Qed.

Lemma Rounded_getCenter_run
    (rnd : R -> number) (h : heap) (this sw ne : loc) a b c d :
  h !! this = Some (LngLatBounds (Some sw) (Some ne)) ->
  h !! sw = Some (LngLat a b) -> h !! ne = Some (LngLat c d) ->
  Rounded.LngLatBounds_getCenter rnd this h
  = LngLat_constructor
      (Rounded.div rnd (Rounded.add rnd a c) (Finite 2))
      (Rounded.div rnd (Rounded.add rnd b d) (Finite 2)) h.
Proof.
  intros Hthis Hsw Hne. unfold Rounded.LngLatBounds_getCenter. mrun.
  reflexivity.
Qed.

(** Half the sum of a double with itself is that double, when the sum
    does not overflow: doubling and halving are exact. *)
Lemma Rounded_mid_self (rnd : R -> number) (a : number) :
  exact_on_doubles rnd ->
  isNaN a = false -> double a ->
  (forall r, a = Finite r -> Rabs r < pow2 1023) ->
  Rounded.div rnd (Rounded.add rnd a a) (Finite 2) = a.
Proof.
  intros Hex N Hd Hb. destruct a as [|s|x]; [discriminate| |].
  - unfold Rounded.div, Rounded.add. destruct s; cbn; Rcases.
  - cbn in Hd. specialize (Hb x eq_refl).
    unfold Rounded.div, Rounded.add. cbn [num_add Rounded.round].
    rewrite (Hex (x + x)) by now apply is_double_twice.
    cbn [num_div]. unfold Reqb. destruct (Req_dec_T 2 0); [lra|].
    cbn [Rounded.round]. replace ((x + x) / 2) with x by lra.
    now apply Hex.
Qed.

Lemma lat_below_pow2_1023 (lat : number) (r : R) :
  lat_in_range lat -> lat = Finite r -> Rabs r < pow2 1023.
Proof.
  intros [Hlo Hhi] ->. apply num_le_Finite in Hlo, Hhi.
  pose proof (pow2_le 7 1023 ltac:(lia)) as P.
  rewrite (pow2_IZR 7) in P by lia.
  change (IZR (2 ^ 7)) with 128 in P.
  apply Rabs_def1; lra.
Qed.

(** C6, as amended.  Extending an empty bounds by a point [p] sets both
    corners to new objects, distinct from [p] and from each other, that
    hold the coordinates of [p]; [p] itself is left as it was.  In every
    arithmetic whose rounding returns a double unchanged, [getCenter] of
    the result has the coordinates of [p], provided the longitude of [p]
    is infinite or below [2^1023] in magnitude, so that [lng + lng] does
    not overflow. *)
Theorem LngLatBounds_extend_empty_getCenter
    (rnd : R -> number) (h : heap) (this p : loc) (lng lat : number) :
  h !! this = Some (LngLatBounds None None) ->
  h !! p = Some (LngLat lng lat) ->
  LngLat_inv lng lat ->
  exists sw ne h',
    LngLatBounds_extend this p h = (Return this, h')
    /\ h' !! this = Some (LngLatBounds (Some sw) (Some ne))
    /\ h' !! sw = Some (LngLat lng lat)
    /\ h' !! ne = Some (LngLat lng lat)
    /\ h !! sw = None /\ h !! ne = None
    /\ sw <> ne /\ sw <> p /\ ne <> p
    /\ h' !! p = Some (LngLat lng lat)
    /\ (exact_on_doubles rnd ->
        double lng -> double lat ->
        (forall r, lng = Finite r -> Rabs r < pow2 1023) ->
        exists c h'',
          Rounded.LngLatBounds_getCenter rnd this h' = (Return c, h'')
          /\ h'' !! c = Some (LngLat lng lat)).
Proof.
  intros Hthis Hp Hinv.
  destruct (LngLatBounds_extend_empty_point h this p lng lat Hthis Hp Hinv)
    as (sw & ne & h' & Hrun & Hdiff & Hsw0 & Hne0 & Hthis' & Hsw & Hne & Hframe).
  assert (Hswp : sw <> p) by (intros ->; congruence).
  assert (Hnep : ne <> p) by (intros ->; congruence).
  assert (Hpt : p <> this) by (intros ->; congruence).
  destruct Hinv as [Nlng Hlat].
  assert (Nlat : isNaN lat = false)
    by (destruct Hlat as [_ R]; now destruct (num_le_not_NaN _ _ R)).
  exists sw, ne, h'.
  repeat (split; [done|]).
  split; [rewrite Hframe by done; exact Hp|].
  intros Hex Dlng Dlat Hbound.
  exists (fresh (dom h')), (<[fresh (dom h') := LngLat lng lat]> h').
  split; [|apply lookup_insert_eq].
  rewrite (Rounded_getCenter_run rnd h' this sw ne lng lat lng lat) by done.
  rewrite (Rounded_mid_self rnd lng) by done.
  rewrite (Rounded_mid_self rnd lat)
    by (try done; intros r; now apply lat_below_pow2_1023).
  now apply LngLat_constructor_ok.
Qed.

(** [LngLatBounds_extend_empty_getCenter] applies to an empty bounds and
    the point (30, 40), in the arithmetic that only overflows. *)
Lemma LngLatBounds_extend_empty_getCenter_witness :
  exists sw ne h' c h'',
    LngLatBounds_extend 1%positive 2%positive empty_bounds_and_point
    = (Return 1%positive, h')
    /\ h' !! 1%positive = Some (LngLatBounds (Some sw) (Some ne))
    /\ sw <> 2%positive /\ ne <> 2%positive
    /\ Rounded.LngLatBounds_getCenter round_overflow 1%positive h'
       = (Return c, h'')
    /\ h'' !! c = Some (LngLat (Finite 30) (Finite 40)).
Proof.
  destruct (LngLatBounds_extend_empty_getCenter round_overflow
              empty_bounds_and_point 1%positive 2%positive (Finite 30) (Finite 40))
    as (sw & ne & h' & H1 & H2 & _ & _ & _ & _ & _ & H3 & H4 & _ & Hc);
    [reflexivity | reflexivity | exact empty_bounds_and_point_inv |].
  destruct Hc as (c & h'' & Hc1 & Hc2).
  - exact round_overflow_exact.
  - apply (is_double_IZR 30). reflexivity.
  - apply (is_double_IZR 40). reflexivity.
  - intros r [= <-]. apply (lat_below_pow2_1023 (Finite 30)); [|reflexivity].
    split; apply num_le_Finite; lra.
  - exists sw, ne, h', c, h''. repeat split; assumption.
Defined.

(** C6, as stated, fails.  The double [2^1023] is a longitude the
    constructor accepts; [lng + lng] is then [2^1024], which overflows,
    and [getCenter] of the box [extend] makes of the point returns a point
    of longitude [Infinity]. *)
Lemma LngLatBounds_getCenter_overflow :
  is_double (pow2 1023)
  /\ LngLat_inv (Finite (pow2 1023)) (Finite 0)
  /\ exists h' c h'',
       LngLatBounds_extend 1%positive 2%positive empty_bounds_and_far_point
       = (Return 1%positive, h')
       /\ Rounded.LngLatBounds_getCenter round_overflow 1%positive h'
          = (Return c, h'')
       /\ h'' !! c = Some (LngLat (Infinity false) (Finite 0)).
Proof.
  assert (Hinv : LngLat_inv (Finite (pow2 1023)) (Finite 0)).
  { split; [reflexivity|]. split; apply num_le_Finite; lra. }
  split; [|split; [exact Hinv|]].
  - exists (2 ^ 52)%Z, 971%Z. split; [reflexivity|]. split; [lia|].
    rewrite <- (pow2_IZR 52) by lia. now rewrite <- pow2_add.
  - destruct (LngLatBounds_extend_empty_point empty_bounds_and_far_point
                1%positive 2%positive (Finite (pow2 1023)) (Finite 0))
      as (sw & ne & h' & Hrun & _ & _ & _ & Hthis & Hsw & Hne & _);
      [reflexivity | reflexivity | exact Hinv |].
    exists h', (fresh (dom h')),
      (<[fresh (dom h') := LngLat (Infinity false) (Finite 0)]> h').
    split; [exact Hrun|]. split; [|apply lookup_insert_eq].
    rewrite (Rounded_getCenter_run round_overflow h' 1%positive sw ne
               _ _ _ _ Hthis Hsw Hne).
    assert (E1 : Rounded.div round_overflow
                   (Rounded.add round_overflow (Finite (pow2 1023))
                      (Finite (pow2 1023))) (Finite 2) = Infinity false).
    { unfold Rounded.div, Rounded.add. cbn [num_add Rounded.round].
      rewrite round_overflow_above.
      - cbn. Rcases.
      - replace 1024%Z with (1023 + 1)%Z by lia.
        rewrite pow2_add, pow2_1. lra. }
    assert (E2 : Rounded.div round_overflow
                   (Rounded.add round_overflow (Finite 0) (Finite 0))
                   (Finite 2) = Finite 0).
    { apply Rounded_mid_self; [exact round_overflow_exact | reflexivity | |].
      - apply (is_double_IZR 0). reflexivity.
      - intros r [= <-]. rewrite Rabs_R0. apply pow2_pos. }
    rewrite E1, E2.
    apply LngLat_constructor_ok; [reflexivity | reflexivity | apply Hinv].
Qed.

(** ** LngLatBounds: [contains] *)

(** C3, as amended.  On a bounds with both corners set, [contains] returns
    true exactly when the latitude is in the closed range of the corners
    and the longitude is in [sw.lng <= lng <= ne.lng] when
    [sw.lng <= ne.lng], in [sw.lng >= lng >= ne.lng] when [sw.lng > ne.lng].
    A box with [sw.lng = 170] and [ne.lng = -170] therefore does not
    contain a point with [lng = 180]. *)
Theorem LngLatBounds_contains_spec
    (h : heap) (this p sw ne : loc) (a b c d x y : number) :
  h !! this = Some (LngLatBounds (Some sw) (Some ne)) ->
  h !! sw = Some (LngLat a b) -> h !! ne = Some (LngLat c d) ->
  h !! p = Some (LngLat x y) ->
  isNaN a = false -> isNaN c = false ->
  exists r,
    LngLatBounds_contains this p h = (Return r, h)
    /\ (r = true <->
        ((b <=? y)%js = true /\ (y <=? d)%js = true)
        /\ ((a <=? c)%js = true -> (a <=? x)%js = true /\ (x <=? c)%js = true)
        /\ ((a >? c)%js = true -> (a >=? x)%js = true /\ (x >=? c)%js = true))
    /\ (a = Finite 170 -> c = Finite (-170) -> x = Finite 180 -> r = false).
Proof.
  intros Hthis Hsw Hne Hp Na Nc.
  eexists. split; [eapply LngLatBounds_contains_run; eauto|].
  rewrite (num_gt_le a c) by done. split.
  - destruct (a <=? c)%js; cbn [negb]; rewrite !andb_true_iff; intuition congruence.
  - intros -> -> ->. rewrite andb_false_iff. right.
    assert (E : (Finite 170 <=? Finite (-170))%js = false) by (num_unfold; Rcases).
    rewrite E. cbn [negb]. rewrite andb_false_iff. left. num_unfold; Rcases.
Qed.

(** C3, as stated, fails: the box [sw.lng = 170], [ne.lng = -170] does not
    contain the point at [lng = 180], whose latitude it covers. *)
Lemma LngLatBounds_contains_antimeridian :
  LngLatBounds_contains 1%positive 4%positive antimeridian_box
  = (Return false, antimeridian_box)
  /\ (Finite (-10) <=? Finite 0)%js = true
  /\ (Finite 0 <=? Finite 10)%js = true.
Proof.
  split.
  - rewrite (LngLatBounds_contains_run antimeridian_box 1%positive 4%positive
               2%positive 3%positive
               (Finite 170) (Finite (-10)) (Finite (-170)) (Finite 10)
               (Finite 180) (Finite 0)) by reflexivity.
    f_equal. num_unfold; Rcases.
  - split; apply num_le_Finite; lra.
Qed.

(** [LngLatBounds_contains_spec] applies to the box of
    [antimeridian_box]. *)
Lemma LngLatBounds_contains_spec_witness :
  exists r,
    LngLatBounds_contains 1%positive 4%positive antimeridian_box
    = (Return r, antimeridian_box)
    /\ r = false.
Proof.
  destruct (LngLatBounds_contains_spec antimeridian_box 1%positive 4%positive
              2%positive 3%positive
              (Finite 170) (Finite (-10)) (Finite (-170)) (Finite 10)
              (Finite 180) (Finite 0)) as (r & Hrun & _ & Hex);
    try reflexivity.
  exists r. split; [exact Hrun | now apply Hex].
Defined.

(** ** LngLatBounds: methods on a bounds with an unset corner *)

Lemma LngLat_constructor_not_TypeError (lng lat : number) (h : heap) :
  fst (LngLat_constructor lng lat h) <> Throw TypeError.
Proof.
  unfold LngLat_constructor.
  destruct (isNaN lng || isNaN lat); [discriminate|]. cbv zeta.
  destruct (_ || _); discriminate.
Qed.

(** C10.  [contains], [getCenter], [getNorthWest], [getSouthEast] and
    [toString] read a property of both corners.  On a bounds for which
    [isEmpty()] is true each of them throws the error of a property access
    on [undefined]; on a bounds for which it is false none of them does.
    An edge getter reads one corner, and throws that error exactly when
    this corner is unset. *)
Theorem LngLatBounds_TypeError_iff_isEmpty
    (Number_toString : number -> string)
    (h : heap) (this p : loc) (sw ne : option loc) :
  h !! this = Some (LngLatBounds sw ne) ->
  (forall l, sw = Some l \/ ne = Some l ->
             exists lng lat, h !! l = Some (LngLat lng lat)) ->
  (exists lng lat, h !! p = Some (LngLat lng lat)) ->
  exists e,
    LngLatBounds_isEmpty this h = (Return e, h)
    /\ (e = true <-> sw = None \/ ne = None)
    /\ (e = true ->
        LngLatBounds_contains this p h = (Throw TypeError, h)
        /\ LngLatBounds_getCenter this h = (Throw TypeError, h)
        /\ LngLatBounds_getNorthWest this h = (Throw TypeError, h)
        /\ LngLatBounds_getSouthEast this h = (Throw TypeError, h)
        /\ LngLatBounds_toString Number_toString this h = (Throw TypeError, h))
    /\ (e = false ->
        (exists r, LngLatBounds_contains this p h = (Return r, h))
        /\ fst (LngLatBounds_getCenter this h) <> Throw TypeError
        /\ fst (LngLatBounds_getNorthWest this h) <> Throw TypeError
        /\ fst (LngLatBounds_getSouthEast this h) <> Throw TypeError
        /\ (exists s,
              LngLatBounds_toString Number_toString this h = (Return s, h)))
    /\ (fst (LngLatBounds_getWest this h) = Throw TypeError <-> sw = None)
    /\ (fst (LngLatBounds_getSouth this h) = Throw TypeError <-> sw = None)
    /\ (fst (LngLatBounds_getEast this h) = Throw TypeError <-> ne = None)
    /\ (fst (LngLatBounds_getNorth this h) = Throw TypeError <-> ne = None).
Proof.
  intros Hthis Hwf (x & y & Hp).
  exists (negb (negb (not_ref sw) && negb (not_ref ne))). split.
  { mrun. reflexivity. }
  destruct sw as [sw|], ne as [ne|]; cbn [not_ref negb andb].
  - (* both corners set *)
    destruct (Hwf sw) as (a & b & Hsw); [now left|].
    destruct (Hwf ne) as (c & d & Hne); [now right|].
    split; [intuition discriminate|]. split; [discriminate|].
    split; [|repeat split; mrun; cbn [fst]; discriminate]. intros _.
    repeat split.
    + eexists. eapply LngLatBounds_contains_run; eauto.
    + rewrite (LngLatBounds_getCenter_run h this sw ne a b c d) by done.
      apply LngLat_constructor_not_TypeError.
    + mrun. apply LngLat_constructor_not_TypeError.
    + mrun. apply LngLat_constructor_not_TypeError.
    + eexists. mrun. reflexivity.
  - (* only the southwest corner set *)
    destruct (Hwf sw) as (a & b & Hsw); [now left|].
    split; [intuition|]. split; [|split; [discriminate|]].
    + intros _. repeat split; mrun; repeat (mcase; mrun); reflexivity.
    + repeat split; mrun; cbn [fst]; (discriminate || reflexivity).
  - (* only the northeast corner set *)
    destruct (Hwf ne) as (c & d & Hne); [now right|].
    split; [intuition|]. split; [|split; [discriminate|]].
    + intros _. repeat split; mrun; reflexivity.
    + repeat split; mrun; cbn [fst]; (discriminate || reflexivity).
  - (* no corner set *)
    split; [intuition|]. split; [|split; [discriminate|]].
    + intros _. repeat split; mrun; reflexivity.
    + repeat split; mrun; reflexivity.
Qed.

(** [LngLatBounds_TypeError_iff_isEmpty] applies to the empty bounds of
    [empty_bounds_and_point]. *)
Lemma LngLatBounds_TypeError_iff_isEmpty_witness :
  LngLatBounds_isEmpty 1%positive empty_bounds_and_point
  = (Return true, empty_bounds_and_point)
  /\ LngLatBounds_contains 1%positive 2%positive empty_bounds_and_point
     = (Throw TypeError, empty_bounds_and_point)
  /\ LngLatBounds_getCenter 1%positive empty_bounds_and_point
     = (Throw TypeError, empty_bounds_and_point).
Proof.
  destruct (LngLatBounds_TypeError_iff_isEmpty (fun _ => EmptyString)
              empty_bounds_and_point 1%positive 2%positive None None)
    as (e & Hrun & Hiff & Hempty & _ & _).
  - reflexivity.
  - intros l [H|H]; discriminate.
  - exists (Finite 30), (Finite 40). reflexivity.
  - assert (He : e = true) by (apply Hiff; now left). subst e.
    destruct (Hempty eq_refl) as (Hc & Hg & _).
    repeat split; assumption.
Defined.

(** ** LngLat: [toBounds] *)

(** The two corner constructions of [toBounds] read [this.lng] and
    [this.lat] and call the constructor. *)
Lemma corner_run (F : number -> number -> M loc) (h : heap) (p : loc) lng lat :
  h !! p = Some (LngLat lng lat) ->
  (let! this_lng := get_lng p in
   let! this_lat := get_lat p in
   F this_lng this_lat) h = F lng lat h.
Proof.
  intros Hp.
  rewrite (bind_Return _ _ h lng h) by (eapply get_lng_run; eauto).
  rewrite (bind_Return _ _ h lat h) by (eapply get_lat_run; eauto).
  reflexivity.
Qed.

Lemma LngLat_constructor_preserves (lng lat : number) (h h' : heap) (l p : loc) o :
  LngLat_constructor lng lat h = (Return l, h') ->
  h !! p = Some o -> h' !! p = Some o.
Proof.
  unfold LngLat_constructor. destruct (isNaN lng || isNaN lat); [discriminate|].
  cbv zeta. destruct (_ || _); [discriminate|].
  unfold alloc. intros [= <- <-] Hp.
  rewrite lookup_insert_ne; [exact Hp|].
  intros E. rewrite <- E in Hp. rewrite fresh_None in Hp. discriminate.
Qed.

(** C9.  [new LngLat(0, 90)] succeeds, and [toBounds(1)] on it throws the
    latitude error of the constructor: the northeast corner would have
    latitude [90 + 360 / 40075017].  Likewise at the south pole, where it
    is the southwest corner that fails. *)
Theorem LngLat_toBounds_pole_throws (h : heap) :
  (exists p h' h'',
      LngLat_constructor (Finite 0) (Finite 90) h = (Return p, h')
      /\ LngLat_toBounds p (Some (Finite 1)) h' = (Throw InvalidLatitude, h''))
  /\ (exists p h' h'',
         LngLat_constructor (Finite 0) (Finite (-90)) h = (Return p, h')
         /\ LngLat_toBounds p (Some (Finite 1)) h' = (Throw InvalidLatitude, h'')).
Proof.
  assert (EA : (Finite 360 * Finite 1 / Finite 40075017)%js
               = Finite (360 * 1 / 40075017)) by (cbn; Rcases).
  assert (HL : forall lat : R,
             (exists s, (Finite (360 * 1 / 40075017)
                / Math_cos (Math_PI / Finite 180 * Finite lat))%js = Infinity s)
             \/ exists x, (Finite (360 * 1 / 40075017)
                / Math_cos (Math_PI / Finite 180 * Finite lat))%js = Finite x).
  { intros lat. cbn. Rcases; eauto. }
  split.
  - set (p := fresh (dom h)). set (h' := <[p := LngLat (Finite 0) (Finite 90)]> h).
    assert (Hp : h' !! p = Some (LngLat (Finite 0) (Finite 90)))
      by apply lookup_insert_eq.
    assert (Hctor : LngLat_constructor (Finite 0) (Finite 90) h = (Return p, h')).
    { apply LngLat_constructor_ok; [reflexivity|reflexivity|].
      split; apply num_le_Finite; lra. }
    exists p, h'. unfold LngLat_toBounds. cbv zeta.
    change (default (Finite 0) (Some (Finite 1))) with (Finite 1).
    rewrite (bind_Return _ _ h' (Finite 90) h') by (eapply get_lat_run; eauto).
    rewrite EA. pose proof (HL 90) as HL'. set (L := (_ / Math_cos _)%js) in *.
    assert (Hsw : exists sw h1,
               LngLat_constructor (Finite 0 - L)%js
                 (Finite 90 - Finite (360 * 1 / 40075017))%js h' = (Return sw, h1)).
    { eexists _, _. apply LngLat_constructor_ok.
      - destruct HL' as [[s ->] | [x ->]]; reflexivity.
      - reflexivity.
      - split; apply num_le_Finite; lra. }
    destruct Hsw as (sw & h1 & Hsw). exists h1. split; [exact Hctor|].
    unfold bind at 1.
    rewrite (corner_run (fun x y => LngLat_constructor (x - L)%js
                                      (y - Finite (360 * 1 / 40075017))%js) h' p _ _ Hp).
    rewrite Hsw.
    unfold bind at 1.
    rewrite (corner_run (fun x y => LngLat_constructor (x + L)%js
                                      (y + Finite (360 * 1 / 40075017))%js) h1 p
               (Finite 0) (Finite 90))
      by (eapply LngLat_constructor_preserves; eauto).
    rewrite LngLat_constructor_range; [reflexivity | | reflexivity |].
    + destruct HL' as [[s ->] | [x ->]]; reflexivity.
    + intros [_ H]. apply num_le_Finite in H. lra.
  - set (p := fresh (dom h)). set (h' := <[p := LngLat (Finite 0) (Finite (-90))]> h).
    assert (Hp : h' !! p = Some (LngLat (Finite 0) (Finite (-90))))
      by apply lookup_insert_eq.
    assert (Hctor : LngLat_constructor (Finite 0) (Finite (-90)) h = (Return p, h')).
    { apply LngLat_constructor_ok; [reflexivity|reflexivity|].
      split; apply num_le_Finite; lra. }
    exists p, h', h'. split; [exact Hctor|].
    unfold LngLat_toBounds. cbv zeta.
    change (default (Finite 0) (Some (Finite 1))) with (Finite 1).
    rewrite (bind_Return _ _ h' (Finite (-90)) h') by (eapply get_lat_run; eauto).
    rewrite EA. pose proof (HL (-90)) as HL'. set (L := (_ / Math_cos _)%js) in *.
    unfold bind at 1.
    rewrite (corner_run (fun x y => LngLat_constructor (x - L)%js
                                      (y - Finite (360 * 1 / 40075017))%js) h' p _ _ Hp).
    rewrite LngLat_constructor_range; [reflexivity | | reflexivity |].
    + destruct HL' as [[s ->] | [x ->]]; reflexivity.
    + intros [H _]. apply num_le_Finite in H. lra.
Qed.

(** [toBounds(1)] at the north pole, starting from an empty heap. *)
Lemma LngLat_toBounds_pole_throws_witness :
  exists p h' h'',
    LngLat_constructor (Finite 0) (Finite 90) ∅ = (Return p, h')
    /\ LngLat_toBounds p (Some (Finite 1)) h' = (Throw InvalidLatitude, h'').
Proof. exact (proj1 (LngLat_toBounds_pole_throws ∅)). Defined.

(** ** LngLat: [distanceTo] *)

Lemma Math_min_clamp (a : number) : Math_min a (Finite 1) = clamp_at_most_1 a.
Proof.
  unfold clamp_at_most_1. destruct a as [|[]|x]; num_unfold; Rcases.
  f_equal. lra.
Qed.

Lemma clamp_at_most_1_bound (a : number) :
  (clamp_at_most_1 a >? Finite 1)%js = false.
Proof. unfold clamp_at_most_1. destruct a as [|[]|x]; num_unfold; Rcases. Qed.

Lemma sin_cos_square (x : R) : sin x * sin x + cos x * cos x = 1.
Proof. pose proof (sin2_cos2 x) as H. unfold Rsqr in H. exact H. Qed.

Lemma Rounded_distanceTo_run
    (rnd : R -> number) (sin_fl cos_fl acos_fl : number -> number)
    (h : heap) (p q : loc) (lng1 lat1 lng2 lat2 : number) :
  h !! p = Some (LngLat lng1 lat1) ->
  h !! q = Some (LngLat lng2 lat2) ->
  Rounded.LngLat_distanceTo rnd sin_fl cos_fl acos_fl p q h
  = (Return
       (Rounded.mul rnd (Rounded.EARTH_RADIUS rnd)
          (acos_fl
             (Math_min
                (RoundedSpec.law_of_cosines rnd sin_fl cos_fl
                   lng1 lat1 lng2 lat2)
                (Finite 1)))), h).
Proof.
  intros Hp Hq. unfold Rounded.LngLat_distanceTo. mrun. reflexivity.
Qed.

(** C4.  In every arithmetic, whatever its rounding and its sine, cosine
    and arc cosine, [distanceTo] returns the radius, the double nearest
    to 6371008.8, times the arc cosine of [a] clamped to at most 1, where
    [a] is the spherical law of cosines on the coordinates in radians.
    The argument of the arc cosine never exceeds 1: when rounding makes
    [a] overshoot, the arc cosine is taken of 1.  There is no guard on
    the other side: when [a] falls below -1, where the arc cosine is NaN,
    the result is NaN. *)
Theorem LngLat_distanceTo_spec
    (rnd : R -> number) (sin_fl cos_fl acos_fl : number -> number)
    (h : heap) (p q : loc) (lng1 lat1 lng2 lat2 : number) :
  h !! p = Some (LngLat lng1 lat1) ->
  h !! q = Some (LngLat lng2 lat2) ->
  Rounded.LngLat_distanceTo rnd sin_fl cos_fl acos_fl p q h
  = (Return (RoundedSpec.great_circle_distance rnd sin_fl cos_fl acos_fl
               lng1 lat1 lng2 lat2), h)
  /\ Rounded.EARTH_RADIUS rnd = rnd 6371008.8
  /\ (clamp_at_most_1
        (RoundedSpec.law_of_cosines rnd sin_fl cos_fl lng1 lat1 lng2 lat2)
      >? Finite 1)%js = false
  /\ ((RoundedSpec.law_of_cosines rnd sin_fl cos_fl lng1 lat1 lng2 lat2
       >? Finite 1)%js = true ->
      Rounded.LngLat_distanceTo rnd sin_fl cos_fl acos_fl p q h
      = (Return (Rounded.mul rnd (rnd 6371008.8) (acos_fl (Finite 1))), h))
  /\ ((RoundedSpec.law_of_cosines rnd sin_fl cos_fl lng1 lat1 lng2 lat2
       >? Finite 1)%js = false ->
      Rounded.LngLat_distanceTo rnd sin_fl cos_fl acos_fl p q h
      = (Return (Rounded.mul rnd (rnd 6371008.8)
                   (acos_fl
                      (RoundedSpec.law_of_cosines rnd sin_fl cos_fl
                         lng1 lat1 lng2 lat2))), h))
  /\ ((forall t, t < -1 -> acos_fl (Finite t) = NaN) ->
      forall t,
        RoundedSpec.law_of_cosines rnd sin_fl cos_fl lng1 lat1 lng2 lat2
        = Finite t ->
        t < -1 ->
        Rounded.LngLat_distanceTo rnd sin_fl cos_fl acos_fl p q h
        = (Return NaN, h)).
Proof.
  intros Hp Hq.
  rewrite (Rounded_distanceTo_run rnd sin_fl cos_fl acos_fl h p q
             lng1 lat1 lng2 lat2 Hp Hq).
  rewrite Math_min_clamp.
  split; [reflexivity|]. split; [reflexivity|].
  split; [apply clamp_at_most_1_bound|].
  unfold clamp_at_most_1. split; [|split]; try (intros ->; reflexivity).
  intros Hacos t -> Ht.
  assert (E : (Finite t >? Finite 1)%js = false) by (num_unfold; Rcases).
  rewrite E, (Hacos t Ht). unfold Rounded.mul.
  now destruct (Rounded.EARTH_RADIUS rnd).
Qed.

(** [LngLat_distanceTo_spec] applies to the two points of
    [new_york_los_angeles], in the arithmetic that does not round. *)
Lemma LngLat_distanceTo_spec_witness :
  Rounded.LngLat_distanceTo Finite Math_sin Math_cos Math_acos
    1%positive 2%positive new_york_los_angeles
  = (Return (RoundedSpec.great_circle_distance Finite Math_sin Math_cos
               Math_acos
               (Finite (-74.0060)) (Finite 40.7128)
               (Finite (-118.2437)) (Finite 34.0522)),
     new_york_los_angeles).
Proof.
  apply (LngLat_distanceTo_spec Finite Math_sin Math_cos Math_acos
           new_york_los_angeles 1%positive 2%positive
           (Finite (-74.0060)) (Finite 40.7128)
           (Finite (-118.2437)) (Finite 34.0522)); reflexivity.
Defined.

(** ** util: [wrap], and LngLat: [wrap] *)

(** The remainder of a division by a positive [y]: an integer multiple of
    [y] is taken off, and what is left is smaller than [y] in magnitude and
    has the sign of the dividend. *)
Lemma Rtrunc_rem (x y : R) :
  0 < y ->
  exists k : Z,
    Rtrunc (x / y) = IZR k
    /\ (0 <= x -> 0 <= x - y * IZR k < y)
    /\ (x < 0 -> - y < x - y * IZR k <= 0).
Proof.
  intros Hy. assert (Ex : x = x / y * y) by (field; lra).
  unfold Rtrunc. destruct (Rlt_dec (x / y) 0) as [Hneg | Hpos].
  - exists (- Int_part (- (x / y)))%Z. rewrite opp_IZR.
    destruct (base_Int_part (- (x / y))) as [B1 B2].
    set (t := x / y) in *. set (i := IZR (Int_part (- t))) in *.
    assert (Hx : x < 0) by nra.
    split; [reflexivity|]. split; [lra|]. intros _.
    assert (x - y * - i = y * (t + i)) by nra.
    assert (0 <= y * (- (t + i))) by (apply Rmult_le_pos; lra).
    assert (0 < y * (1 + (t + i))) by (apply Rmult_lt_0_compat; lra).
    lra.
  - exists (Int_part (x / y)).
    destruct (base_Int_part (x / y)) as [B1 B2].
    set (t := x / y) in *. set (i := IZR (Int_part t)) in *.
    assert (Hx : 0 <= x).
    { rewrite Ex. apply Rmult_le_pos; lra. }
    split; [reflexivity|]. split; [|lra]. intros _.
    assert (x - y * i = y * (t - i)) by nra.
    assert (0 <= y * (t - i)) by (apply Rmult_le_pos; lra).
    assert (0 < y * (1 - (t - i))) by (apply Rmult_lt_0_compat; lra).
    lra.
Qed.

Lemma num_rem_Finite (x y : R) :
  y <> 0 -> (Finite x mod Finite y)%js = Finite (x - y * Rtrunc (x / y)).
Proof. intros Hy. unfold num_rem. now rewrite (proj2 (Reqb_false y 0)). Qed.

(** On a finite number, the wrap into the interval from -180 to 180 takes
    off a multiple of 360 and lands in the interval, open below and closed
    above. *)
Lemma wrap_Finite (n : R) :
  exists (w : R) (k : Z),
    wrap (Finite n) (Finite (-180)) (Finite 180) = Finite w
    /\ -180 < w <= 180
    /\ w = n + 360 * IZR k.
Proof.
  unfold wrap. cbn [num_sub num_neg num_add].
  replace (180 + - -180) with 360 by lra.
  rewrite num_rem_Finite by lra. cbn [num_add].
  rewrite num_rem_Finite by lra. cbn [num_add num_eq].
  destruct (Rtrunc_rem (n + - -180) 360) as (k1 & -> & Hpos1 & Hneg1); [lra|].
  set (r1 := n + - -180 - 360 * IZR k1) in *.
  assert (Hr1 : -360 < r1 < 360).
  { destruct (Rle_dec 0 (n + - -180)); [specialize (Hpos1 ltac:(lra))
                                      | specialize (Hneg1 ltac:(lra))]; lra. }
  destruct (Rtrunc_rem (r1 + 360) 360) as (k2 & -> & Hpos2 & _); [lra|].
  specialize (Hpos2 ltac:(lra)).
  set (r2 := r1 + 360 - 360 * IZR k2) in *.
  unfold Reqb. destruct (Req_dec_T (r2 + -180) (-180)) as [E | NE].
  - exists 180, (1 - k1 - k2 + 1)%Z. repeat split; try lra.
    rewrite !plus_IZR, !minus_IZR. unfold r2, r1 in *. lra.
  - exists (r2 + -180), (1 - k1 - k2)%Z. repeat split; try lra.
    rewrite !minus_IZR. unfold r2, r1 in *. lra.
Qed.

(** C5, as amended.  On a LngLat with a finite longitude, [wrap()] returns
    a new LngLat whose longitude differs from the original by a multiple of
    360 and lies in the interval from -180 (excluded) to 180 (included),
    and whose latitude is the original one; longitude 200 becomes -160. *)
Theorem LngLat_wrap_spec (h : heap) (p : loc) (lng : R) (lat : number) :
  h !! p = Some (LngLat (Finite lng) lat) ->
  lat_in_range lat ->
  exists (q : loc) (w : R) (k : Z),
    LngLat_wrap p h = (Return q, <[q := LngLat (Finite w) lat]> h)
    /\ h !! q = None
    /\ -180 < w <= 180
    /\ w = lng + 360 * IZR k
    /\ (lng = 200 -> w = -160).
Proof.
  intros Hp Hlat.
  destruct (wrap_Finite lng) as (w & k & Hw & Hrange & Hk).
  exists (fresh (dom h)), w, k. repeat split; try lra.
  - mrun. rewrite Hw.
    apply LngLat_constructor_ok; [reflexivity | | exact Hlat].
    destruct Hlat as [_ R]. now destruct (num_le_not_NaN _ _ R).
  - apply fresh_None.
  - intros ->.
    assert (H1 : IZR (-2) < IZR k) by lra.
    assert (H2 : IZR k < IZR 0) by lra.
    apply lt_IZR in H1, H2.
    assert (k = (-1)%Z) by lia. subst k. lra.
Qed.

(** C5, as stated, fails: [new LngLat(Infinity, 10)] is a LngLat, and
    [wrap()] on it throws, because the wrapped longitude is NaN. *)
Lemma LngLat_wrap_Infinity_throws :
  exists p h,
    LngLat_constructor (Infinity false) (Finite 10) ∅ = (Return p, h)
    /\ LngLat_wrap p h = (Throw (InvalidLngLat NaN (Finite 10)), h).
Proof.
  exists (fresh (dom (∅ : heap))), {[ fresh (dom (∅ : heap)) := LngLat (Infinity false) (Finite 10) ]}.
  split.
  - apply LngLat_constructor_ok; [reflexivity | reflexivity |].
    split; apply num_le_Finite; lra.
  - unfold LngLat_wrap.
    rewrite (bind_Return _ _ _ (Infinity false) _)
      by (eapply get_lng_run; apply lookup_insert_eq).
    rewrite (bind_Return _ _ _ (Finite 10) _)
      by (eapply get_lat_run; apply lookup_insert_eq).
    reflexivity.
Qed.

(** [LngLat_wrap_spec] applies to the point (200, 10). *)
Lemma LngLat_wrap_spec_witness :
  exists q,
    LngLat_wrap 1%positive point_200_10
    = (Return q, <[q := LngLat (Finite (-160)) (Finite 10)]> point_200_10)
    /\ point_200_10 !! q = None.
Proof.
  destruct (LngLat_wrap_spec point_200_10 1%positive 200 (Finite 10))
    as (q & w & k & Hrun & Hq & _ & _ & H200).
  - reflexivity.
  - split; apply num_le_Finite; lra.
  - exists q. rewrite (H200 eq_refl) in Hrun. split; assumption.
Defined.

(** ** Point: what the methods write *)

Lemma read_only_writes_only {A} (c : M A) (l : loc) :
  read_only c -> writes_only c l.
Proof. intros H h l' _. now rewrite H. Qed.

Lemma read_only_ret {A} (a : A) : read_only (ret a).
Proof. now intros h. Qed.

Lemma read_only_throw {A} (e : error) : read_only (@throw A e).
Proof. now intros h. Qed.

Lemma read_only_bind {A B} (c : M A) (k : A -> M B) :
  read_only c -> (forall a, read_only (k a)) -> read_only (bind c k).
Proof.
  intros Hc Hk h. unfold bind. specialize (Hc h).
  destruct (c h) as [[a|e] h']; cbn in *; subst; [apply Hk | reflexivity].
Qed.

Lemma writes_only_bind {A B} (c : M A) (k : A -> M B) (l : loc) :
  writes_only c l -> (forall a, writes_only (k a) l) ->
  writes_only (bind c k) l.
Proof.
  intros Hc Hk h l' Hl. unfold bind. specialize (Hc h l' Hl).
  destruct (c h) as [[a|e] h']; cbn in *; [|exact Hc].
  rewrite Hk by exact Hl. exact Hc.
Qed.

Lemma read_only_load (l : loc) : read_only (load l).
Proof. intros h. unfold load. now destruct (h !! l). Qed.

Lemma read_only_get_x (l : loc) : read_only (get_x l).
Proof.
  apply read_only_bind; [apply read_only_load|].
  intros []; (apply read_only_ret || apply read_only_throw).
Qed.

Lemma read_only_get_y (l : loc) : read_only (get_y l).
Proof.
  apply read_only_bind; [apply read_only_load|].
  intros []; (apply read_only_ret || apply read_only_throw).
Qed.

Lemma writes_only_store (l : loc) (o : object) : writes_only (store l o) l.
Proof. intros h l' Hl. cbn. now rewrite lookup_insert_ne. Qed.

Lemma writes_only_set_x (l : loc) (v : number) : writes_only (set_x l v) l.
Proof.
  apply writes_only_bind; [apply read_only_writes_only, read_only_load|].
  intros []; (apply writes_only_store
              || apply read_only_writes_only, read_only_throw).
Qed.

Lemma writes_only_set_y (l : loc) (v : number) : writes_only (set_y l v) l.
Proof.
  apply writes_only_bind; [apply read_only_writes_only, read_only_load|].
  intros []; (apply writes_only_store
              || apply read_only_writes_only, read_only_throw).
Qed.

Lemma read_only_Point_mag (l : loc) : read_only (Point_mag l).
Proof.
  unfold Point_mag.
  repeat (apply read_only_bind; [apply read_only_get_x || apply read_only_get_y|];
          intros ?).
  apply read_only_ret.
Qed.

Lemma read_only_Point_equals (this other : loc) :
  read_only (Point_equals this other).
Proof.
  unfold Point_equals, andM.
  apply read_only_bind.
  - repeat (apply read_only_bind; [apply read_only_get_x|]; intros ?).
    apply read_only_ret.
  - intros []; [|apply read_only_ret].
    repeat (apply read_only_bind; [apply read_only_get_y|]; intros ?).
    apply read_only_ret.
Qed.

Lemma read_only_Point_distSqr (this p : loc) : read_only (Point_distSqr this p).
Proof.
  unfold Point_distSqr. cbv zeta.
  repeat (apply read_only_bind; [apply read_only_get_x || apply read_only_get_y|];
          intros ?).
  apply read_only_ret.
Qed.

Lemma read_only_Point_dist (this p : loc) : read_only (Point_dist this p).
Proof.
  unfold Point_dist. apply read_only_bind; [apply read_only_Point_distSqr|].
  intros ?. apply read_only_ret.
Qed.

(** Decomposes a method body into reads and writes of [l]. *)
Ltac writes_only_tac :=
  repeat first
    [ apply writes_only_set_x
    | apply writes_only_set_y
    | apply read_only_writes_only, read_only_get_x
    | apply read_only_writes_only, read_only_get_y
    | apply read_only_writes_only, read_only_Point_mag
    | apply read_only_writes_only, read_only_ret
    | apply read_only_writes_only, read_only_throw
    | apply writes_only_bind; [|intros ?] ].

Lemma writes_only_Point__add (this p : loc) : writes_only (Point__add this p) this.
Proof. unfold Point__add. writes_only_tac. Qed.

Lemma writes_only_Point__sub (this p : loc) : writes_only (Point__sub this p) this.
Proof. unfold Point__sub. writes_only_tac. Qed.

Lemma writes_only_Point__multByPoint (this p : loc) :
  writes_only (Point__multByPoint this p) this.
Proof. unfold Point__multByPoint. writes_only_tac. Qed.

Lemma writes_only_Point__divByPoint (this p : loc) :
  writes_only (Point__divByPoint this p) this.
Proof. unfold Point__divByPoint. writes_only_tac. Qed.

Lemma writes_only_Point__mult (this : loc) (k : number) :
  writes_only (Point__mult this k) this.
Proof. unfold Point__mult. writes_only_tac. Qed.

Lemma writes_only_Point__div (this : loc) (k : number) :
  writes_only (Point__div this k) this.
Proof. unfold Point__div. writes_only_tac. Qed.

Lemma writes_only_Point__rotate (this : loc) (a : number) :
  writes_only (Point__rotate this a) this.
Proof. unfold Point__rotate. cbv zeta. writes_only_tac. Qed.

Lemma writes_only_Point__rotateAround (this : loc) (a : number) (p : loc) :
  writes_only (Point__rotateAround this a p) this.
Proof. unfold Point__rotateAround. cbv zeta. writes_only_tac. Qed.

Lemma writes_only_Point__matMult (this : loc) (m : list number) :
  writes_only (Point__matMult this m) this.
Proof. unfold Point__matMult. cbv zeta. writes_only_tac. Qed.

Lemma writes_only_Point__unit (this : loc) : writes_only (Point__unit this) this.
Proof. unfold Point__unit. writes_only_tac. Qed.

Lemma writes_only_Point__perp (this : loc) : writes_only (Point__perp this) this.
Proof. unfold Point__perp. writes_only_tac. Qed.

Lemma writes_only_Point__round (this : loc) : writes_only (Point__round this) this.
Proof. unfold Point__round. writes_only_tac. Qed.

Lemma Point_clone_run (h : heap) (this : loc) (x y : number) :
  h !! this = Some (Point x y) ->
  Point_clone this h = (Return (fresh (dom h)), <[fresh (dom h) := Point x y]> h).
Proof.
  intros H. unfold Point_clone.
  rewrite (bind_Return _ _ h x h) by (eapply get_x_run; eauto).
  rewrite (bind_Return _ _ h y h) by (eapply get_y_run; eauto).
  reflexivity.
Qed.

(** A copy-returning method, clone followed by an in-place method on the
    clone, leaves every object of the heap as it was. *)
Lemma clone_then_frame (op : loc -> M loc) (h : heap) (this : loc) (x y : number) :
  (forall c, writes_only (op c) c) ->
  h !! this = Some (Point x y) ->
  forall (l : loc) (o : object),
    h !! l = Some o ->
    snd ((let! c := Point_clone this in op c) h) !! l = Some o.
Proof.
  intros Hop Hthis l o Hl.
  rewrite (bind_Return _ _ h _ _ (Point_clone_run h this x y Hthis)).
  assert (Hne : l <> fresh (dom h)) by (eapply fresh_ne; eauto).
  rewrite Hop by exact Hne.
  now rewrite lookup_insert_ne.
Qed.

Lemma Point__mult_run (h : heap) (this : loc) (x y k : number) :
  h !! this = Some (Point x y) ->
  Point__mult this k h = (Return this, <[this := Point (x * k) (y * k)]> h).
Proof.
  intros H. unfold Point__mult.
  rewrite (bind_Return _ _ h tt (<[this := Point (x * k)%js y]> h)).
  2:{ rewrite (bind_Return _ _ h x h) by (eapply get_x_run; eauto).
      eapply set_x_run; eauto. }
  rewrite (bind_Return _ _ _ tt (<[this := Point (x * k)%js (y * k)%js]> h)).
  - reflexivity.
  - rewrite (bind_Return _ _ _ y _)
      by (eapply get_y_run; apply lookup_insert_eq).
    erewrite set_y_run by apply lookup_insert_eq.
    now rewrite insert_insert_eq.
Qed.

Lemma Point__rotate_run (h : heap) (this : loc) (x y a : number) :
  h !! this = Some (Point x y) ->
  Point__rotate this a h
  = (Return this,
     <[this := Point (Math_cos a * x - Math_sin a * y)
                     (Math_sin a * x + Math_cos a * y)]> h).
Proof.
  intros H. unfold Point__rotate. cbv zeta.
  rewrite (bind_Return _ _ h x h) by (eapply get_x_run; eauto).
  rewrite (bind_Return _ _ h y h) by (eapply get_y_run; eauto).
  rewrite (bind_Return _ _ h x h) by (eapply get_x_run; eauto).
  rewrite (bind_Return _ _ h y h) by (eapply get_y_run; eauto).
  erewrite bind_Return by (eapply set_x_run; eauto).
  erewrite bind_Return by (eapply set_y_run; apply lookup_insert_eq).
  unfold ret. now rewrite insert_insert_eq.
Qed.

(** C7.  Each copy-returning method of a point leaves the [x] and [y] of
    the receiver as they were, whatever the argument, and so do [clone] and
    the methods that only read; an in-place method writes its result into
    the receiver. *)
Theorem Point_copy_methods_frame (h : heap) (this : loc) (x y : number) :
  h !! this = Some (Point x y) ->
  (forall p, snd (Point_add this p h) !! this = Some (Point x y))
  /\ (forall p, snd (Point_sub this p h) !! this = Some (Point x y))
  /\ (forall p, snd (Point_multByPoint this p h) !! this = Some (Point x y))
  /\ (forall p, snd (Point_divByPoint this p h) !! this = Some (Point x y))
  /\ (forall k, snd (Point_mult this k h) !! this = Some (Point x y))
  /\ (forall k, snd (Point_div this k h) !! this = Some (Point x y))
  /\ (forall a, snd (Point_rotate this a h) !! this = Some (Point x y))
  /\ (forall a p, snd (Point_rotateAround this a p h) !! this = Some (Point x y))
  /\ (forall m, snd (Point_matMult this m h) !! this = Some (Point x y))
  /\ snd (Point_unit this h) !! this = Some (Point x y)
  /\ snd (Point_perp this h) !! this = Some (Point x y)
  /\ snd (Point_round this h) !! this = Some (Point x y)
  /\ snd (Point_clone this h) !! this = Some (Point x y)
  /\ snd (Point_mag this h) = h
  /\ (forall p, snd (Point_equals this p h) = h)
  /\ (forall p, snd (Point_distSqr this p h) = h)
  /\ (forall p, snd (Point_dist this p h) = h)
  /\ (forall k, Point__mult this k h
                = (Return this, <[this := Point (x * k) (y * k)]> h))
  /\ (forall a, Point__rotate this a h
                = (Return this,
                   <[this := Point (Math_cos a * x - Math_sin a * y)
                                   (Math_sin a * x + Math_cos a * y)]> h)).
Proof.
  intros H.
  repeat split; intros;
    try (eapply (clone_then_frame _ h this x y); [intros c|exact H|exact H]).
  - apply writes_only_Point__add.
  - apply writes_only_Point__sub.
  - apply writes_only_Point__multByPoint.
  - apply writes_only_Point__divByPoint.
  - apply writes_only_Point__mult.
  - apply writes_only_Point__div.
  - apply writes_only_Point__rotate.
  - apply writes_only_Point__rotateAround.
  - apply writes_only_Point__matMult.
  - apply writes_only_Point__unit.
  - apply writes_only_Point__perp.
  - apply writes_only_Point__round.
  - rewrite (Point_clone_run h this x y H). cbn [snd].
    rewrite lookup_insert_ne; [exact H|]. apply not_eq_sym. eapply fresh_ne; eauto.
  - apply read_only_Point_mag.
  - apply read_only_Point_equals.
  - apply read_only_Point_distSqr.
  - apply read_only_Point_dist.
  - now apply Point__mult_run.
  - now apply Point__rotate_run.
Qed.

(** [Point_copy_methods_frame] applies to the point (3, 4): [mult(2)]
    leaves it at (3, 4), and [_mult(2)] changes it. *)
Lemma Point_copy_methods_frame_witness :
  snd (Point_mult 1%positive (Finite 2) point_3_4) !! 1%positive
  = Some (Point (Finite 3) (Finite 4))
  /\ snd (Point__mult 1%positive (Finite 2) point_3_4) !! 1%positive
     = Some (Point (Finite 3 * Finite 2) (Finite 4 * Finite 2)).
Proof.
  destruct (Point_copy_methods_frame point_3_4 1%positive (Finite 3) (Finite 4))
    as (_ & _ & _ & _ & Hmult & _ & _ & _ & _ & _ & _ & _ & _ & _ & _ & _ & _
        & Hinplace & _);
    [reflexivity|].
  split; [apply Hmult|].
  rewrite Hinplace. cbn [snd]. apply lookup_insert_eq.
Defined.

(** ** Point: rotation *)

Lemma Point_rotate_run (h : heap) (this : loc) (x y a : number) :
  h !! this = Some (Point x y) ->
  Point_rotate this a h
  = (Return (fresh (dom h)),
     <[fresh (dom h) := Point (Math_cos a * x - Math_sin a * y)
                              (Math_sin a * x + Math_cos a * y)]> h).
Proof.
  intros H. unfold Point_rotate.
  rewrite (bind_Return _ _ h _ _ (Point_clone_run h this x y H)).
  erewrite Point__rotate_run by apply lookup_insert_eq.
  now rewrite insert_insert_eq.
Qed.

Lemma Point_equals_run (h : heap) (this other : loc) (x1 y1 x2 y2 : number) :
  h !! this = Some (Point x1 y1) -> h !! other = Some (Point x2 y2) ->
  Point_equals this other h = (Return ((x1 =? x2) && (y1 =? y2))%js, h).
Proof.
  intros H1 H2. unfold Point_equals, andM.
  rewrite (bind_Return _ _ h (x1 =? x2)%js h).
  2:{ rewrite (bind_Return _ _ h x1 h) by (eapply get_x_run; eauto).
      rewrite (bind_Return _ _ h x2 h) by (eapply get_x_run; eauto).
      reflexivity. }
  destruct (x1 =? x2)%js; [|reflexivity].
  rewrite (bind_Return _ _ h y1 h) by (eapply get_y_run; eauto).
  rewrite (bind_Return _ _ h y2 h) by (eapply get_y_run; eauto).
  reflexivity.
Qed.

(** Rotating by an angle and then by its opposite, on reals. *)
Lemma rotate_back (x y a : R) :
  cos (- a) * (cos a * x - sin a * y) - sin (- a) * (sin a * x + cos a * y) = x
  /\ sin (- a) * (cos a * x - sin a * y) + cos (- a) * (sin a * x + cos a * y) = y.
Proof.
  rewrite cos_neg, sin_neg. pose proof (sin_cos_square a) as H. split.
  - replace (cos a * (cos a * x - sin a * y) - - sin a * (sin a * x + cos a * y))
      with (x * (sin a * sin a + cos a * cos a)) by ring.
    rewrite H. ring.
  - replace (- sin a * (cos a * x - sin a * y) + cos a * (sin a * x + cos a * y))
      with (y * (sin a * sin a + cos a * cos a)) by ring.
    rewrite H. ring.
Qed.

Lemma Rounded_rotate_run
    (rnd : R -> number) (sin_fl cos_fl : number -> number)
    (h : heap) (this : loc) (x y a : number) :
  h !! this = Some (Point x y) ->
  Rounded.Point_rotate rnd sin_fl cos_fl this a h
  = (Return (fresh (dom h)),
     <[fresh (dom h) :=
         Point (Rounded.sub rnd (Rounded.mul rnd (cos_fl a) x)
                                (Rounded.mul rnd (sin_fl a) y))
               (Rounded.add rnd (Rounded.mul rnd (sin_fl a) x)
                                (Rounded.mul rnd (cos_fl a) y))]> h).
Proof.
  intros H. unfold Rounded.Point_rotate.
  rewrite (bind_Return _ _ h _ _ (Point_clone_run h this x y H)).
  set (c := fresh (dom h)). set (h1 := <[c := Point x y]> h).
  assert (Hc : h1 !! c = Some (Point x y)) by apply lookup_insert_eq.
  unfold Rounded.Point__rotate. cbv zeta.
  rewrite (bind_Return _ _ h1 x h1) by (eapply get_x_run; eauto).
  rewrite (bind_Return _ _ h1 y h1) by (eapply get_y_run; eauto).
  rewrite (bind_Return _ _ h1 x h1) by (eapply get_x_run; eauto).
  rewrite (bind_Return _ _ h1 y h1) by (eapply get_y_run; eauto).
  erewrite bind_Return by (eapply set_x_run; eauto).
  erewrite bind_Return by (eapply set_y_run; apply lookup_insert_eq).
  unfold ret, h1. now rewrite !insert_insert_eq.
Qed.

(** In an arithmetic that does not round, the rounded operations are the
    exact ones. *)
Lemma round_exact (rnd : R -> number) (a : number) :
  (forall r, rnd r = Finite r) -> Rounded.round rnd a = a.
Proof. intros H. destruct a; cbn; auto. Qed.

(** ** The rounding error of a rotation and back *)

Lemma Rabs_add_le (u U e B : R) : Rabs (u - U) <= e -> Rabs U <= B -> Rabs u <= B + e.
Proof.
  intros H1 H2. replace u with (U + (u - U)) by ring.
  eapply Rle_trans; [apply Rabs_triang|]. lra.
Qed.

(** The product of an approximation [c] of a factor [C] of magnitude at
    most 1 by an approximation [x] of [X], rounded. *)
Lemma Rounded_mul_error (rnd : R -> number) (c x C X ec ex B E : R) :
  rounds_within rnd ->
  Rabs (c - C) <= ec -> Rabs (x - X) <= ex -> Rabs C <= 1 -> Rabs X <= B ->
  B + ec * (B + ex) + ex <= 1000000 ->
  ec * (B + ex) + ex + 1.2e-16 * (B + ec * (B + ex) + ex) + 1e-20 <= E ->
  exists p, Rounded.mul rnd (Finite c) (Finite x) = Finite p
            /\ Rabs (p - C * X) <= E.
Proof.
  intros Hrnd Hc Hx HC HX Hrange HE.
  pose proof (Rabs_pos (c - C)) as P1. pose proof (Rabs_pos (x - X)) as P2.
  pose proof (Rabs_pos X) as P3. pose proof (Rabs_pos C) as P4.
  pose proof (Rabs_pos x) as P5.
  assert (Hx' : Rabs x <= B + ex) by (eapply Rabs_add_le; eauto).
  assert (Hd : Rabs (c * x - C * X) <= ec * (B + ex) + ex).
  { replace (c * x - C * X) with ((c - C) * x + C * (x - X)) by ring.
    eapply Rle_trans; [apply Rabs_triang|]. rewrite !Rabs_mult.
    assert (Rabs (c - C) * Rabs x <= ec * (B + ex))
      by (apply Rmult_le_compat; lra).
    assert (Rabs C * Rabs (x - X) <= 1 * ex)
      by (apply Rmult_le_compat; lra).
    lra. }
  set (K := ec * (B + ex)) in *.
  assert (Hcx : Rabs (c * x) <= B + K + ex).
  { replace (c * x) with (C * X + (c * x - C * X)) by ring.
    eapply Rle_trans; [apply Rabs_triang|]. rewrite (Rabs_mult C X).
    assert (Rabs C * Rabs X <= 1 * B) by (apply Rmult_le_compat; lra).
    lra. }
  destruct (Hrnd (c * x)) as (p & Ep & Herr); [lra|].
  exists p. split; [exact Ep|].
  replace (p - C * X) with ((p - c * x) + (c * x - C * X)) by ring.
  eapply Rle_trans; [apply Rabs_triang|]. lra.
Qed.

(** The sum and the difference of two approximations, rounded. *)
Lemma Rounded_add_error (rnd : R -> number) (x y X Y ex ey B E : R) :
  rounds_within rnd ->
  Rabs (x - X) <= ex -> Rabs (y - Y) <= ey -> Rabs (X + Y) <= B ->
  B + ex + ey <= 1000000 ->
  ex + ey + 1.2e-16 * (B + ex + ey) + 1e-20 <= E ->
  exists z, Rounded.add rnd (Finite x) (Finite y) = Finite z
            /\ Rabs (z - (X + Y)) <= E.
Proof.
  intros Hrnd Hx Hy HB Hrange HE.
  assert (Hd : Rabs (x + y - (X + Y)) <= ex + ey).
  { replace (x + y - (X + Y)) with ((x - X) + (y - Y)) by ring.
    eapply Rle_trans; [apply Rabs_triang|]. lra. }
  assert (Hs : Rabs (x + y) <= B + (ex + ey)) by (eapply Rabs_add_le; eauto).
  destruct (Hrnd (x + y)) as (z & Ez & Herr); [lra|].
  exists z. split; [exact Ez|].
  replace (z - (X + Y)) with ((z - (x + y)) + (x + y - (X + Y))) by ring.
  eapply Rle_trans; [apply Rabs_triang|]. lra.
Qed.

Lemma Rounded_sub_error (rnd : R -> number) (x y X Y ex ey B E : R) :
  rounds_within rnd ->
  Rabs (x - X) <= ex -> Rabs (y - Y) <= ey -> Rabs (X - Y) <= B ->
  B + ex + ey <= 1000000 ->
  ex + ey + 1.2e-16 * (B + ex + ey) + 1e-20 <= E ->
  exists z, Rounded.sub rnd (Finite x) (Finite y) = Finite z
            /\ Rabs (z - (X - Y)) <= E.
Proof.
  intros Hrnd Hx Hy HB Hrange HE.
  assert (Hy' : Rabs (- y - - Y) <= ey).
  { replace (- y - - Y) with (- (y - Y)) by ring. now rewrite Rabs_Ropp. }
  destruct (Rounded_add_error rnd x (- y) X (- Y) ex ey B E)
    as (z & Ez & Herr); try done.
  exists z. split; [exact Ez | exact Herr].
Qed.

Lemma rotation_bound (c s x y : R) :
  Rabs c <= 1 -> Rabs s <= 1 -> Rabs x <= 100000 -> Rabs y <= 100000 ->
  Rabs (c * x - s * y) <= 200000 /\ Rabs (s * x + c * y) <= 200000.
Proof.
  intros Hc Hs Hx Hy.
  pose proof (Rabs_pos c). pose proof (Rabs_pos s).
  pose proof (Rabs_pos x). pose proof (Rabs_pos y).
  assert (Rabs c * Rabs x <= 1 * 100000) by (apply Rmult_le_compat; lra).
  assert (Rabs s * Rabs y <= 1 * 100000) by (apply Rmult_le_compat; lra).
  assert (Rabs s * Rabs x <= 1 * 100000) by (apply Rmult_le_compat; lra).
  assert (Rabs c * Rabs y <= 1 * 100000) by (apply Rmult_le_compat; lra).
  split.
  - unfold Rminus. eapply Rle_trans; [apply Rabs_triang|].
    rewrite Rabs_Ropp, !Rabs_mult. lra.
  - eapply Rle_trans; [apply Rabs_triang|]. rewrite !Rabs_mult. lra.
Qed.

Lemma Rabs_sin_le_1 (t : R) : Rabs (sin t) <= 1.
Proof. apply Rabs_le. apply SIN_bound. Qed.

Lemma Rabs_cos_le_1 (t : R) : Rabs (cos t) <= 1.
Proof. apply Rabs_le. apply COS_bound. Qed.

(** One rotation of the approximations [(x, y)] of [(X, Y)], of magnitude
    at most [B] and with errors at most [e], by the platform's cosine [c]
    and sine [s] of an angle [t]: the result approximates the rotation of
    [(X, Y)] with errors at most [E]. *)
Lemma Rounded_rotation_error
    (rnd : R -> number) (c s t x y X Y e B Em E : R) :
  rounds_within rnd ->
  Rabs (c - cos t) <= 2.3e-16 -> Rabs (s - sin t) <= 2.3e-16 ->
  Rabs (x - X) <= e -> Rabs (y - Y) <= e ->
  Rabs X <= B -> Rabs Y <= B ->
  Rabs (cos t * X - sin t * Y) <= 2 * B ->
  Rabs (sin t * X + cos t * Y) <= 2 * B ->
  B + 2.3e-16 * (B + e) + e <= 1000000 ->
  2.3e-16 * (B + e) + e + 1.2e-16 * (B + 2.3e-16 * (B + e) + e) + 1e-20 <= Em ->
  2 * B + Em + Em <= 1000000 ->
  Em + Em + 1.2e-16 * (2 * B + Em + Em) + 1e-20 <= E ->
  exists x' y',
    Rounded.sub rnd (Rounded.mul rnd (Finite c) (Finite x))
                    (Rounded.mul rnd (Finite s) (Finite y)) = Finite x'
    /\ Rounded.add rnd (Rounded.mul rnd (Finite s) (Finite x))
                       (Rounded.mul rnd (Finite c) (Finite y)) = Finite y'
    /\ Rabs (x' - (cos t * X - sin t * Y)) <= E
    /\ Rabs (y' - (sin t * X + cos t * Y)) <= E.
Proof.
  intros Hrnd Hc Hs Hx Hy HX HY HB1 HB2 Hr1 HEm Hr2 HE.
  pose proof (Rabs_cos_le_1 t) as HC. pose proof (Rabs_sin_le_1 t) as HS.
  destruct (Rounded_mul_error rnd c x (cos t) X 2.3e-16 e B Em)
    as (p1 & E1 & H1); try done.
  destruct (Rounded_mul_error rnd s y (sin t) Y 2.3e-16 e B Em)
    as (p2 & E2 & H2); try done.
  destruct (Rounded_mul_error rnd s x (sin t) X 2.3e-16 e B Em)
    as (p3 & E3 & H3); try done.
  destruct (Rounded_mul_error rnd c y (cos t) Y 2.3e-16 e B Em)
    as (p4 & E4 & H4); try done.
  destruct (Rounded_sub_error rnd p1 p2 (cos t * X) (sin t * Y) Em Em (2 * B) E)
    as (x' & Ex' & Hx'); try done.
  destruct (Rounded_add_error rnd p3 p4 (sin t * X) (cos t * Y) Em Em (2 * B) E)
    as (y' & Ey' & Hy'); try done.
  exists x', y'. rewrite E1, E2, E3, E4. repeat split; assumption.
Qed.

(** A rotation and the rotation back, on the coordinates: for magnitudes
    up to 100000 the result is within 1e-9 of the start. *)
Lemma Rounded_rotate_back_error
    (rnd : R -> number) (sin_fl cos_fl : number -> number) (x y a : R) :
  rounds_within rnd -> trig_within sin_fl cos_fl ->
  Rabs x <= 100000 -> Rabs y <= 100000 ->
  exists x1 y1 x2 y2,
    Rounded.sub rnd (Rounded.mul rnd (cos_fl (Finite a)) (Finite x))
                    (Rounded.mul rnd (sin_fl (Finite a)) (Finite y))
    = Finite x1
    /\ Rounded.add rnd (Rounded.mul rnd (sin_fl (Finite a)) (Finite x))
                       (Rounded.mul rnd (cos_fl (Finite a)) (Finite y))
       = Finite y1
    /\ Rounded.sub rnd (Rounded.mul rnd (cos_fl (Finite (- a))) (Finite x1))
                       (Rounded.mul rnd (sin_fl (Finite (- a))) (Finite y1))
       = Finite x2
    /\ Rounded.add rnd (Rounded.mul rnd (sin_fl (Finite (- a))) (Finite x1))
                       (Rounded.mul rnd (cos_fl (Finite (- a))) (Finite y1))
       = Finite y2
    /\ Rabs (x2 - x) <= 1e-9 /\ Rabs (y2 - y) <= 1e-9.
Proof.
  intros Hrnd Htrig Hx Hy.
  destruct (Htrig a) as (s1 & c1 & -> & -> & Hs1 & Hc1).
  destruct (Htrig (- a)) as (s2 & c2 & -> & -> & Hs2 & Hc2).
  destruct (rotation_bound (cos a) (sin a) x y) as [B1 B2];
    try apply Rabs_cos_le_1; try apply Rabs_sin_le_1; try done.
  destruct (rotate_back x y a) as [Bx By].
  set (X1 := cos a * x - sin a * y) in *.
  set (Y1 := sin a * x + cos a * y) in *.
  assert (Z0 : forall u : R, Rabs (u - u) <= 0).
  { intros u. replace (u - u) with 0 by ring. rewrite Rabs_R0. lra. }
  destruct (Rounded_rotation_error rnd c1 s1 a x y x y 0 100000 3.6e-11 1e-10)
    as (x1 & y1 & E1 & E2 & H1 & H2); try done; try lra.
  fold X1 in H1. fold Y1 in H2.
  destruct (Rounded_rotation_error rnd c2 s2 (- a) x1 y1 X1 Y1
              1e-10 200000 1.71e-10 1e-9)
    as (x2 & y2 & E3 & E4 & H3 & H4); try done; try lra.
  { rewrite Bx. lra. }
  { rewrite By. lra. }
  rewrite Bx in H3. rewrite By in H4.
  exists x1, y1, x2, y2. repeat split; assumption.
Qed.

Lemma round_overflow_within : rounds_within round_overflow.
Proof.
  intros r Hr. exists r. split.
  - apply round_overflow_below.
    pose proof (pow2_le 20 1024 ltac:(lia)) as P.
    rewrite (pow2_IZR 20) in P by lia.
    change (IZR (2 ^ 20)) with 1048576 in P. lra.
  - replace (r - r) with 0 by ring. rewrite Rabs_R0.
    pose proof (Rabs_pos r). lra.
Qed.

Lemma Math_trig_within : trig_within Math_sin Math_cos.
Proof.
  intros t. exists (sin t), (cos t). repeat split.
  - replace (sin t - sin t) with 0 by ring. rewrite Rabs_R0. lra.
  - replace (cos t - cos t) with 0 by ring. rewrite Rabs_R0. lra.
Qed.

(** C8, as amended.  [p.rotate(a).rotate(-a)], for a point with finite
    coordinates and a finite angle, is a new point, and [p] itself is as
    it was.  When the arithmetic does not round and its sine and cosine
    are those of the reals, the new point has the coordinates of [p] and
    [equals] holds.  When the arithmetic rounds as doubles do and the
    coordinates are at most 100000 in magnitude, each coordinate of the
    new point is within 1e-9 of that of [p]. *)
Theorem Point_rotate_inverse
    (rnd : R -> number) (sin_fl cos_fl : number -> number)
    (h : heap) (p : loc) (x y a : R) :
  h !! p = Some (Point (Finite x) (Finite y)) ->
  (exact_arithmetic rnd sin_fl cos_fl ->
   exists (q : loc) (h1 : heap) (r : loc) (h2 : heap),
     Rounded.Point_rotate rnd sin_fl cos_fl p (Finite a) h = (Return q, h1)
     /\ Rounded.Point_rotate rnd sin_fl cos_fl q (- Finite a)%js h1
        = (Return r, h2)
     /\ h2 !! r = Some (Point (Finite x) (Finite y))
     /\ h2 !! p = Some (Point (Finite x) (Finite y))
     /\ r <> p
     /\ Point_equals r p h2 = (Return true, h2))
  /\ (rounds_within rnd -> trig_within sin_fl cos_fl ->
      Rabs x <= 100000 -> Rabs y <= 100000 ->
      exists (q : loc) (h1 : heap) (r : loc) (h2 : heap) (x2 y2 : R),
        Rounded.Point_rotate rnd sin_fl cos_fl p (Finite a) h
        = (Return q, h1)
        /\ Rounded.Point_rotate rnd sin_fl cos_fl q (- Finite a)%js h1
           = (Return r, h2)
        /\ h2 !! r = Some (Point (Finite x2) (Finite y2))
        /\ Rabs (x2 - x) <= 1e-9 /\ Rabs (y2 - y) <= 1e-9
        /\ h2 !! p = Some (Point (Finite x) (Finite y))
        /\ r <> p).
Proof.
  intros Hp. split.
  - intros (Hrnd & Hsin & Hcos).
    set (q := fresh (dom h)).
    set (h1 := <[q := Point (Finite (cos a * x - sin a * y))
                            (Finite (sin a * x + cos a * y))]> h).
    set (r := fresh (dom h1)).
    assert (Hrun1 : Rounded.Point_rotate rnd sin_fl cos_fl p (Finite a) h
                    = (Return q, h1)).
    { rewrite (Rounded_rotate_run rnd sin_fl cos_fl h p _ _ _ Hp).
      unfold Rounded.sub, Rounded.add, Rounded.mul.
      rewrite Hsin, Hcos, !round_exact by exact Hrnd. reflexivity. }
    assert (Hq : h1 !! q = Some (Point (Finite (cos a * x - sin a * y))
                                       (Finite (sin a * x + cos a * y))))
      by apply lookup_insert_eq.
    assert (Hpq : p <> q) by (eapply fresh_ne; eauto).
    assert (Hp1 : h1 !! p = Some (Point (Finite x) (Finite y)))
      by (unfold h1; now rewrite lookup_insert_ne).
    assert (Hpr : p <> r) by (eapply fresh_ne; eauto).
    destruct (rotate_back x y a) as [Ex Ey].
    set (h2 := <[r := Point (Finite x) (Finite y)]> h1).
    assert (Hrun2 : Rounded.Point_rotate rnd sin_fl cos_fl q
                      (- Finite a)%js h1 = (Return r, h2)).
    { rewrite (Rounded_rotate_run rnd sin_fl cos_fl h1 q _ _ _ Hq).
      unfold Rounded.sub, Rounded.add, Rounded.mul. cbn [num_neg].
      rewrite Hsin, Hcos, !round_exact by exact Hrnd.
      cbn [num_mul num_sub num_neg num_add].
      unfold h2, r. do 3 f_equal.
      - f_equal. exact Ex.
      - f_equal. exact Ey. }
    exists q, h1, r, h2. repeat split.
    + exact Hrun1.
    + exact Hrun2.
    + apply lookup_insert_eq.
    + unfold h2. now rewrite lookup_insert_ne.
    + done.
    + rewrite (Point_equals_run h2 r p (Finite x) (Finite y) (Finite x) (Finite y)).
      * f_equal. num_unfold. Rcases.
      * apply lookup_insert_eq.
      * unfold h2. now rewrite lookup_insert_ne.
  - intros Hrnd Htrig Hx Hy.
    destruct (Rounded_rotate_back_error rnd sin_fl cos_fl x y a
                Hrnd Htrig Hx Hy)
      as (x1 & y1 & x2 & y2 & E1 & E2 & E3 & E4 & Hx2 & Hy2).
    set (q := fresh (dom h)).
    set (h1 := <[q := Point (Finite x1) (Finite y1)]> h).
    set (r := fresh (dom h1)).
    set (h2 := <[r := Point (Finite x2) (Finite y2)]> h1).
    assert (Hq : h1 !! q = Some (Point (Finite x1) (Finite y1)))
      by apply lookup_insert_eq.
    assert (Hpq : p <> q) by (eapply fresh_ne; eauto).
    assert (Hp1 : h1 !! p = Some (Point (Finite x) (Finite y)))
      by (unfold h1; now rewrite lookup_insert_ne).
    assert (Hpr : p <> r) by (eapply fresh_ne; eauto).
    exists q, h1, r, h2, x2, y2. repeat split; try done.
    + rewrite (Rounded_rotate_run rnd sin_fl cos_fl h p _ _ _ Hp).
      now rewrite E1, E2.
    + rewrite (Rounded_rotate_run rnd sin_fl cos_fl h1 q _ _ _ Hq).
      cbn [num_neg]. now rewrite E3, E4.
    + apply lookup_insert_eq.
    + unfold h2. now rewrite lookup_insert_ne.
Qed.

(** [Point_rotate_inverse] applies to the point (3, 4) and the angle 1:
    in the arithmetic of the reals, and in the arithmetic that only
    overflows. *)
Lemma Point_rotate_inverse_witness :
  (exists (q : loc) (h1 : heap) (r : loc) (h2 : heap),
      Rounded.Point_rotate Finite Math_sin Math_cos 1%positive (Finite 1)
        point_3_4 = (Return q, h1)
      /\ Rounded.Point_rotate Finite Math_sin Math_cos q (- Finite 1)%js h1
         = (Return r, h2)
      /\ h2 !! r = Some (Point (Finite 3) (Finite 4)))
  /\ (exists (q : loc) (h1 : heap) (r : loc) (h2 : heap) (x2 y2 : R),
         Rounded.Point_rotate round_overflow Math_sin Math_cos 1%positive
           (Finite 1) point_3_4 = (Return q, h1)
         /\ Rounded.Point_rotate round_overflow Math_sin Math_cos q
              (- Finite 1)%js h1 = (Return r, h2)
         /\ h2 !! r = Some (Point (Finite x2) (Finite y2))
         /\ Rabs (x2 - 3) <= 1e-9 /\ Rabs (y2 - 4) <= 1e-9).
Proof.
  split.
  - destruct (Point_rotate_inverse Finite Math_sin Math_cos point_3_4
                1%positive 3 4 1) as [H _]; [reflexivity|].
    destruct H as (q & h1 & r & h2 & H1 & H2 & H3 & _); [repeat split|].
    exists q, h1, r, h2. repeat split; assumption.
  - destruct (Point_rotate_inverse round_overflow Math_sin Math_cos point_3_4
                1%positive 3 4 1) as [_ H]; [reflexivity|].
    destruct H as (q & h1 & r & h2 & x2 & y2 & H1 & H2 & H3 & H4 & H5 & _).
    + exact round_overflow_within.
    + exact Math_trig_within.
    + rewrite Rabs_pos_eq; lra.
    + rewrite Rabs_pos_eq; lra.
    + exists q, h1, r, h2, x2, y2. repeat split; assumption.
Defined.

Lemma sqrt2_bounds : 1 <= sqrt 2 <= 3 / 2.
Proof.
  split.
  - rewrite <- sqrt_1 at 1. apply sqrt_le_1_alt. lra.
  - rewrite <- (sqrt_square (3 / 2)) by lra. apply sqrt_le_1_alt. lra.
Qed.

Lemma inv_sqrt2_bounds : 2 / 3 <= 1 / sqrt 2 <= 1.
Proof.
  destruct sqrt2_bounds as [Hlo Hhi].
  assert (Hpos : 0 < sqrt 2) by lra.
  split.
  - apply Rmult_le_reg_r with (sqrt 2); [exact Hpos|].
    replace (1 / sqrt 2 * sqrt 2) with 1 by (field; lra). lra.
  - apply Rmult_le_reg_r with (sqrt 2); [exact Hpos|].
    replace (1 / sqrt 2 * sqrt 2) with 1 by (field; lra). lra.
Qed.

Lemma pow2_1024 : pow2 1024 = 4 * pow2 1022.
Proof.
  replace 1024%Z with (2 + 1022)%Z by lia.
  rewrite pow2_add, (pow2_IZR 2) by lia. reflexivity.
Qed.

(** C8, as stated, fails under floating point, by any tolerance, in an
    arithmetic as accurate as the theorem asks.  The point whose
    coordinates are both the double [3 * 2^1022], rotated by a quarter of
    PI, gets a [y] beyond the range of doubles, which is [Infinity];
    rotated back, both coordinates are [Infinity], and [equals] is
    false. *)
Lemma Point_rotate_inverse_overflow :
  is_double (3 * pow2 1022)
  /\ rounds_within round_overflow
  /\ trig_within Math_sin Math_cos
  /\ exists (q : loc) (h1 : heap) (r : loc) (h2 : heap),
       Rounded.Point_rotate round_overflow Math_sin Math_cos
         1%positive (Finite (PI / 4)) far_point = (Return q, h1)
       /\ (exists x1, h1 !! q = Some (Point (Finite x1) (Infinity false)))
       /\ Rounded.Point_rotate round_overflow Math_sin Math_cos
            q (- Finite (PI / 4))%js h1 = (Return r, h2)
       /\ h2 !! r = Some (Point (Infinity false) (Infinity false))
       /\ Point_equals r 1%positive h2 = (Return false, h2).
Proof.
  split.
  - exists (3 * 2 ^ 51)%Z, 971%Z. split; [reflexivity|]. split; [lia|].
    rewrite mult_IZR, <- (pow2_IZR 51) by lia.
    replace 1022%Z with (51 + 971)%Z by lia. rewrite pow2_add. ring.
  - split; [exact round_overflow_within|].
    split; [exact Math_trig_within|].
    pose proof (pow2_pos 1022) as HP. pose proof pow2_1024 as H1024.
    destruct inv_sqrt2_bounds as [Slo Shi].
    set (s := 1 / sqrt 2) in *. set (X := 3 * pow2 1022).
    set (v := s * X).
    assert (Hv : 2 * pow2 1022 <= v <= 3 * pow2 1022).
    { unfold v, X. split.
      - replace (2 * pow2 1022) with (2 / 3 * (3 * pow2 1022)) by field.
        apply Rmult_le_compat_r; lra.
      - rewrite <- (Rmult_1_l (3 * pow2 1022)) at 2.
        apply Rmult_le_compat_r; lra. }
    assert (Emul : Rounded.mul round_overflow (Finite s) (Finite X) = Finite v).
    { unfold Rounded.mul. cbn [num_mul Rounded.round].
      apply round_overflow_below. rewrite Rabs_pos_eq; fold v; lra. }
    assert (Ex' : Rounded.sub round_overflow (Finite v) (Finite v) = Finite 0).
    { unfold Rounded.sub. cbn [num_sub num_neg num_add Rounded.round].
      replace (v + - v) with 0 by ring.
      apply round_overflow_below. rewrite Rabs_R0. apply pow2_pos. }
    assert (Ey' : Rounded.add round_overflow (Finite v) (Finite v)
                  = Infinity false).
    { unfold Rounded.add. cbn [num_add Rounded.round].
      apply round_overflow_above. lra. }
    assert (Ecos : Math_cos (Finite (PI / 4)) = Finite s)
      by (cbn; now rewrite cos_PI4).
    assert (Esin : Math_sin (Finite (PI / 4)) = Finite s)
      by (cbn; now rewrite sin_PI4).
    assert (Ecos' : Math_cos (- Finite (PI / 4))%js = Finite s)
      by (cbn; now rewrite cos_neg, cos_PI4).
    assert (Esin' : Math_sin (- Finite (PI / 4))%js = Finite (- s))
      by (cbn; now rewrite sin_neg, sin_PI4).
    assert (Hs0 : Rounded.mul round_overflow (Finite s) (Finite 0) = Finite 0).
    { unfold Rounded.mul. cbn [num_mul Rounded.round].
      replace (s * 0) with 0 by ring.
      apply round_overflow_below. rewrite Rabs_R0. apply pow2_pos. }
    assert (Hs0' : Rounded.mul round_overflow (Finite (- s)) (Finite 0)
                   = Finite 0).
    { unfold Rounded.mul. cbn [num_mul Rounded.round].
      replace (- s * 0) with 0 by ring.
      apply round_overflow_below. rewrite Rabs_R0. apply pow2_pos. }
    assert (Hsi : Rounded.mul round_overflow (Finite s) (Infinity false)
                  = Infinity false).
    { unfold Rounded.mul. cbn. Rcases. }
    assert (Hsi' : Rounded.mul round_overflow (Finite (- s)) (Infinity false)
                   = Infinity true).
    { unfold Rounded.mul. cbn. Rcases. }
    set (q := fresh (dom far_point)).
    set (h1 := <[q := Point (Finite 0) (Infinity false)]> far_point).
    set (r := fresh (dom h1)).
    set (h2 := <[r := Point (Infinity false) (Infinity false)]> h1).
    assert (Hq : h1 !! q = Some (Point (Finite 0) (Infinity false)))
      by apply lookup_insert_eq.
    assert (Hp : far_point !! 1%positive
                 = Some (Point (Finite X) (Finite X))) by reflexivity.
    assert (Hpq : 1%positive <> q) by (eapply fresh_ne; eauto).
    assert (Hp1 : h1 !! 1%positive = Some (Point (Finite X) (Finite X)))
      by (unfold h1; now rewrite lookup_insert_ne).
    exists q, h1, r, h2. split; [|split; [now exists 0|split; [|split]]].
    + rewrite (Rounded_rotate_run round_overflow Math_sin Math_cos far_point
                 1%positive _ _ _ Hp).
      now rewrite Ecos, Esin, Emul, Ex', Ey'.
    + rewrite (Rounded_rotate_run round_overflow Math_sin Math_cos h1 q
                 _ _ _ Hq).
      rewrite Ecos', Esin', Hs0, Hs0', Hsi, Hsi'. reflexivity.
    + apply lookup_insert_eq.
    + rewrite (Point_equals_run h2 r 1%positive
                 (Infinity false) (Infinity false) (Finite X) (Finite X)).
      * reflexivity.
      * apply lookup_insert_eq.
      * unfold h2. rewrite lookup_insert_ne; [exact Hp1|].
        apply not_eq_sym. eapply fresh_ne; eauto.
Qed.

(** ** The examples of the source and of the specification *)

Lemma wrap_unique (n w : R) (k : Z) :
  -180 < w <= 180 -> w = n + 360 * IZR k ->
  wrap (Finite n) (Finite (-180)) (Finite 180) = Finite w.
Proof.
  intros Hw Hk. destruct (wrap_Finite n) as (w' & k' & -> & Hw' & Hk').
  f_equal. assert (Hd : 360 * IZR (k' - k) = w' - w) by (rewrite minus_IZR; lra).
  assert (H1 : IZR (-1) < IZR (k' - k)) by lra.
  assert (H2 : IZR (k' - k) < IZR 1) by lra.
  apply lt_IZR in H1, H2. assert (E : (k' - k)%Z = 0%Z) by lia.
  rewrite E in Hd. lra.
Qed.

Example wrap_200 : wrap (Finite 200) (Finite (-180)) (Finite 180) = Finite (-160).
Proof. apply (wrap_unique 200 (-160) (-1)); lra. Qed.

Example wrap_180 : wrap (Finite 180) (Finite (-180)) (Finite 180) = Finite 180.
Proof. apply (wrap_unique 180 180 0); lra. Qed.

Example wrap_minus_180 :
  wrap (Finite (-180)) (Finite (-180)) (Finite 180) = Finite 180.
Proof. apply (wrap_unique (-180) 180 1); lra. Qed.

Example wrap_286 :
  wrap (Finite 286.0251) (Finite (-180)) (Finite 180) = Finite (-73.9749).
Proof. apply (wrap_unique 286.0251 (-73.9749) (-1)); lra. Qed.

Example Point_mag_3_4 :
  Point_mag 1%positive point_3_4 = (Return (Finite 5), point_3_4).
Proof.
  unfold Point_mag.
  rewrite (bind_Return _ _ _ (Finite 3) point_3_4) by reflexivity.
  rewrite (bind_Return _ _ _ (Finite 4) point_3_4) by reflexivity.
  unfold ret. do 2 f_equal. cbn. Rcases. f_equal.
  replace (3 * 3 + 4 * 4) with (5 * 5) by lra. apply sqrt_square. lra.
Qed.

Example contains_manhattan :
  LngLatBounds_contains 1%positive 4%positive manhattan_box
  = (Return true, manhattan_box).
Proof.
  rewrite (LngLatBounds_contains_run manhattan_box 1%positive 4%positive
             2%positive 3%positive
             (Finite (-73.9876)) (Finite 40.7661)
             (Finite (-73.9397)) (Finite 40.8002)
             (Finite (-73.9567)) (Finite 40.7789)) by reflexivity.
  f_equal. num_unfold. Rcases.
Qed.

(** * Further properties *)

(** ** The class invariant of LngLat is kept by every method *)

Lemma heap_inv_empty : heap_inv ∅.
Proof. intros l lng lat H. rewrite lookup_empty in H. discriminate. Qed.

Lemma heap_inv_insert_LngLat (h : heap) (l : loc) (lng lat : number) :
  heap_inv h -> LngLat_inv lng lat -> heap_inv (<[l := LngLat lng lat]> h).
Proof.
  intros Hh Hi l' a b H. destruct (decide (l = l')) as [->|Hne].
  - rewrite lookup_insert_eq in H. now injection H as <- <-.
  - rewrite lookup_insert_ne in H by done. eapply Hh; eauto.
Qed.

Lemma heap_inv_insert_other (h : heap) (l : loc) (o : object) :
  heap_inv h -> (forall lng lat, o <> LngLat lng lat) -> heap_inv (<[l := o]> h).
Proof.
  intros Hh Ho l' a b H. destruct (decide (l = l')) as [->|Hne].
  - rewrite lookup_insert_eq in H. injection H as ->. now destruct (Ho a b).
  - rewrite lookup_insert_ne in H by done. eapply Hh; eauto.
Qed.

Lemma keeps_ret {A} (a : A) (Q : A -> Prop) : Q a -> keeps_inv (ret a) Q.
Proof. intros Ha h Hh. split; [exact Hh|]. now intros a' [= <-]. Qed.

Lemma keeps_throw {A} (e : error) (Q : A -> Prop) : keeps_inv (throw e) Q.
Proof. intros h Hh. split; [exact Hh|]. intros a H. discriminate. Qed.

Lemma keeps_bind {A B} (c : M A) (k : A -> M B) (Q : A -> Prop) (R : B -> Prop) :
  keeps_inv c Q -> (forall a, Q a -> keeps_inv (k a) R) ->
  keeps_inv (bind c k) R.
Proof.
  intros Hc Hk h Hh. unfold bind. destruct (Hc h Hh) as [Hh' Hq].
  destruct (c h) as [[a|e] h']; cbn in *.
  - apply Hk; [now apply Hq | exact Hh'].
  - split; [exact Hh'|]. intros a H. discriminate.
Qed.

Lemma keeps_weaken {A} (c : M A) (Q R : A -> Prop) :
  keeps_inv c Q -> (forall a, Q a -> R a) -> keeps_inv c R.
Proof.
  intros Hc HQR h Hh. destruct (Hc h Hh) as [Hh' Hq]. split; [exact Hh'|].
  intros a Ha. apply HQR, Hq, Ha.
Qed.

Lemma keeps_defined (r : option loc) : keeps_inv (defined r) (fun _ => True).
Proof. destruct r; [now apply keeps_ret | apply keeps_throw]. Qed.

Lemma keeps_get_lng (l : loc) : keeps_inv (get_lng l) (fun v => isNaN v = false).
Proof.
  intros h Hh. unfold get_lng, bind, load.
  destruct (h !! l) as [[lng lat|? ?|? ?]|] eqn:E; cbn;
    (split; [exact Hh|]); intros a [=]. subst a. now destruct (Hh l lng lat E).
Qed.

Lemma keeps_get_lat (l : loc) : keeps_inv (get_lat l) lat_in_range.
Proof.
  intros h Hh. unfold get_lat, bind, load.
  destruct (h !! l) as [[lng lat|? ?|? ?]|] eqn:E; cbn;
    (split; [exact Hh|]); intros a [=]. subst a. now destruct (Hh l lng lat E).
Qed.

Lemma keeps_set_lng (l : loc) (v : number) :
  isNaN v = false -> keeps_inv (set_lng l v) (fun _ => True).
Proof.
  intros Hv h Hh. unfold set_lng, bind, load, store.
  destruct (h !! l) as [[lng lat|? ?|? ?]|] eqn:E; cbn;
    (split; [|done]); try exact Hh.
  apply heap_inv_insert_LngLat; [exact Hh|].
  destruct (Hh l lng lat E). now split.
Qed.

Lemma keeps_set_lat (l : loc) (v : number) :
  lat_in_range v -> keeps_inv (set_lat l v) (fun _ => True).
Proof.
  intros Hv h Hh. unfold set_lat, bind, load, store.
  destruct (h !! l) as [[lng lat|? ?|? ?]|] eqn:E; cbn;
    (split; [|done]); try exact Hh.
  apply heap_inv_insert_LngLat; [exact Hh|].
  destruct (Hh l lng lat E). now split.
Qed.

Lemma keeps_get__sw (l : loc) : keeps_inv (get__sw l) (fun _ => True).
Proof.
  intros h Hh. unfold get__sw, bind, load.
  destruct (h !! l) as [[]|]; cbn; now split.
Qed.

Lemma keeps_get__ne (l : loc) : keeps_inv (get__ne l) (fun _ => True).
Proof.
  intros h Hh. unfold get__ne, bind, load.
  destruct (h !! l) as [[]|]; cbn; now split.
Qed.

Lemma keeps_set__sw (l : loc) (v : option loc) :
  keeps_inv (set__sw l v) (fun _ => True).
Proof.
  intros h Hh. unfold set__sw, bind, load, store.
  destruct (h !! l) as [[]|]; cbn; (split; [|done]); try exact Hh.
  now apply heap_inv_insert_other.
Qed.

Lemma keeps_set__ne (l : loc) (v : option loc) :
  keeps_inv (set__ne l v) (fun _ => True).
Proof.
  intros h Hh. unfold set__ne, bind, load, store.
  destruct (h !! l) as [[]|]; cbn; (split; [|done]); try exact Hh.
  now apply heap_inv_insert_other.
Qed.

Lemma keeps_instanceof_LngLat (l : loc) :
  keeps_inv (instanceof_LngLat l) (fun _ => True).
Proof.
  intros h Hh. unfold instanceof_LngLat.
  destruct (h !! l) as [[]|]; cbn; now split.
Qed.

Lemma keeps_instanceof_LngLatBounds (l : loc) :
  keeps_inv (instanceof_LngLatBounds l) (fun _ => True).
Proof.
  intros h Hh. unfold instanceof_LngLatBounds.
  destruct (h !! l) as [[]|]; cbn; now split.
Qed.

Lemma keeps_LngLat_constructor (lng lat : number) :
  keeps_inv (LngLat_constructor lng lat) (fun _ => True).
Proof.
  intros h Hh. split; [|done].
  destruct (isNaN lng) eqn:Nlng.
  { rewrite LngLat_constructor_NaN by now left. exact Hh. }
  destruct (isNaN lat) eqn:Nlat.
  { rewrite LngLat_constructor_NaN by now right. exact Hh. }
  assert (Hdec : lat_in_range lat \/ ~ lat_in_range lat).
  { unfold lat_in_range.
    destruct (Finite (-90) <=? lat)%js, (lat <=? Finite 90)%js;
      intuition discriminate. }
  destruct Hdec as [Hr | Hr].
  - rewrite LngLat_constructor_ok by done. cbn.
    apply heap_inv_insert_LngLat; [exact Hh | now split].
  - rewrite LngLat_constructor_range by done. exact Hh.
Qed.

Lemma keeps_LngLatBounds_alloc (sw ne : option loc) :
  keeps_inv (alloc (LngLatBounds sw ne)) (fun _ => True).
Proof.
  intros h Hh. split; [|done]. cbn. now apply heap_inv_insert_other.
Qed.

Lemma lat_in_range_not_NaN (lat : number) : lat_in_range lat -> isNaN lat = false.
Proof. intros [_ H]. now destruct (num_le_not_NaN _ _ H). Qed.

Lemma Math_min_lat_in_range (a b : number) :
  lat_in_range a -> lat_in_range b -> lat_in_range (Math_min a b).
Proof.
  unfold lat_in_range.
  destruct a as [|[]|x], b as [|[]|y]; num_unfold; intros [? ?] [? ?];
    split; Rcases.
Qed.

Lemma Math_max_lat_in_range (a b : number) :
  lat_in_range a -> lat_in_range b -> lat_in_range (Math_max a b).
Proof.
  unfold lat_in_range.
  destruct a as [|[]|x], b as [|[]|y]; num_unfold; intros [? ?] [? ?];
    split; Rcases.
Qed.

Lemma keeps_ref_lng (r : option loc) : keeps_inv (ref_lng r) (fun v => isNaN v = false).
Proof.
  unfold ref_lng. eapply keeps_bind; [apply keeps_defined|].
  intros l _. apply keeps_get_lng.
Qed.

Lemma keeps_ref_lat (r : option loc) : keeps_inv (ref_lat r) lat_in_range.
Proof.
  unfold ref_lat. eapply keeps_bind; [apply keeps_defined|].
  intros l _. apply keeps_get_lat.
Qed.

(** Decomposes a method body along its binds. *)
Ltac keeps_tac :=
  repeat first
    [ apply keeps_throw
    | refine (keeps_ret _ (fun _ => True) I)
    | apply keeps_LngLat_constructor
    | apply keeps_LngLatBounds_alloc
    | apply keeps_set__sw
    | apply keeps_set__ne
    | apply keeps_get_lng
    | apply keeps_get_lat
    | apply keeps_ref_lng
    | apply keeps_ref_lat
    | apply keeps_get__sw
    | apply keeps_get__ne
    | apply keeps_defined
    | apply keeps_instanceof_LngLat
    | apply keeps_instanceof_LngLatBounds
    | eapply keeps_bind; [|intros ? ?] ].

Lemma keeps_extend_target (obj : loc) :
  keeps_inv (extend_target obj) (fun _ => True).
Proof.
  unfold extend_target.
  eapply keeps_bind; [apply keeps_instanceof_LngLat|]. intros [] _.
  { now apply keeps_ret. }
  eapply keeps_bind; [apply keeps_instanceof_LngLatBounds|]. intros [] _.
  2:{ now apply keeps_ret. }
  eapply keeps_bind; [apply keeps_get__sw|]. intros sw2 _.
  eapply keeps_bind; [apply keeps_get__ne|]. intros ne2 _.
  destruct (not_ref sw2 || not_ref ne2); now apply keeps_ret.
Qed.

Lemma keeps_extend_corners (this : loc) (sw ne sw2 ne2 : option loc) :
  keeps_inv (extend_corners this sw ne sw2 ne2) (fun _ => True).
Proof.
  unfold extend_corners. destruct (not_ref sw && not_ref ne).
  - keeps_tac.
  - eapply keeps_bind with (Q := fun _ => True).
    { eapply keeps_bind; [apply keeps_ref_lng|]. intros x Hx.
      eapply keeps_bind; [apply keeps_ref_lng|]. intros y Hy.
      eapply keeps_bind; [apply keeps_defined|]. intros l _.
      apply keeps_set_lng. now apply Math_min_not_NaN. }
    intros _ _. eapply keeps_bind with (Q := fun _ => True).
    { eapply keeps_bind; [apply keeps_ref_lat|]. intros x Hx.
      eapply keeps_bind; [apply keeps_ref_lat|]. intros y Hy.
      eapply keeps_bind; [apply keeps_defined|]. intros l _.
      apply keeps_set_lat. now apply Math_min_lat_in_range. }
    intros _ _. eapply keeps_bind with (Q := fun _ => True).
    { eapply keeps_bind; [apply keeps_ref_lng|]. intros x Hx.
      eapply keeps_bind; [apply keeps_ref_lng|]. intros y Hy.
      eapply keeps_bind; [apply keeps_defined|]. intros l _.
      apply keeps_set_lng. now apply Math_max_not_NaN. }
    intros _ _.
    eapply keeps_bind; [apply keeps_ref_lat|]. intros x Hx.
    eapply keeps_bind; [apply keeps_ref_lat|]. intros y Hy.
    eapply keeps_bind; [apply keeps_defined|]. intros l _.
    apply keeps_set_lat. now apply Math_max_lat_in_range.
Qed.

Lemma keeps_LngLatBounds_extend (this obj : loc) :
  keeps_inv (LngLatBounds_extend this obj) (fun _ => True).
Proof.
  unfold LngLatBounds_extend.
  eapply keeps_bind; [apply keeps_get__sw|]. intros sw _.
  eapply keeps_bind; [apply keeps_get__ne|]. intros ne _.
  eapply keeps_bind; [apply keeps_extend_target|]. intros [[sw2 ne2]|] _.
  - eapply keeps_bind; [apply keeps_extend_corners|]. intros _ _.
    now apply keeps_ret.
  - now apply keeps_ret.
Qed.

Lemma keeps_LngLatBounds_constructor (sw ne : option loc) :
  keeps_inv (LngLatBounds_constructor sw ne) (fun _ => True).
Proof.
  unfold LngLatBounds_constructor, LngLatBounds_setSouthWest,
    LngLatBounds_setNorthEast.
  eapply keeps_bind; [apply keeps_LngLatBounds_alloc|]. intros this _.
  destruct sw as [sw|]; [|now apply keeps_ret].
  destruct ne as [ne|]; [|now apply keeps_ret].
  keeps_tac.
Qed.

Lemma keeps_andM (a b : M bool) :
  keeps_inv a (fun _ => True) -> keeps_inv b (fun _ => True) ->
  keeps_inv (andM a b) (fun _ => True).
Proof.
  intros Ha Hb. unfold andM. eapply keeps_bind; [exact Ha|].
  intros [] _; [exact Hb | now apply keeps_ret].
Qed.

Lemma keeps_this_corner (this : loc) :
  keeps_inv (this__sw_lng this) (fun _ => True)
  /\ keeps_inv (this__sw_lat this) (fun _ => True)
  /\ keeps_inv (this__ne_lng this) (fun _ => True)
  /\ keeps_inv (this__ne_lat this) (fun _ => True).
Proof.
  unfold this__sw_lng, this__sw_lat, this__ne_lng, this__ne_lat.
  split; [|split; [|split]];
    (eapply keeps_bind; [apply keeps_get__sw || apply keeps_get__ne|]);
    intros r _;
    (eapply keeps_weaken; [apply keeps_ref_lng || apply keeps_ref_lat|]); done.
Qed.

Ltac keeps_corner :=
  first [ apply (proj1 (keeps_this_corner _))
        | apply (proj1 (proj2 (keeps_this_corner _)))
        | apply (proj1 (proj2 (proj2 (keeps_this_corner _))))
        | apply (proj2 (proj2 (proj2 (keeps_this_corner _)))) ].

Lemma keeps_LngLatBounds_contains (this p : loc) :
  keeps_inv (LngLatBounds_contains this p) (fun _ => True).
Proof.
  unfold LngLatBounds_contains.
  eapply keeps_bind; [apply keeps_get_lng|]. intros lng _.
  eapply keeps_bind; [apply keeps_get_lat|]. intros lat _.
  eapply keeps_bind with (Q := fun _ => True).
  { apply keeps_andM; (eapply keeps_bind; [keeps_corner|]); intros ? _;
      now apply keeps_ret. }
  intros cLat _. eapply keeps_bind with (Q := fun _ => True).
  { apply keeps_andM; (eapply keeps_bind; [keeps_corner|]); intros ? _;
      now apply keeps_ret. }
  intros cLng _.
  eapply keeps_bind; [keeps_corner|]. intros sw_lng _.
  eapply keeps_bind; [keeps_corner|]. intros ne_lng _.
  eapply keeps_bind with (Q := fun _ => True); [|intros ? _; now apply keeps_ret].
  destruct (sw_lng >? ne_lng)%js; [|now apply keeps_ret].
  apply keeps_andM; (eapply keeps_bind; [keeps_corner|]); intros ? _;
    now apply keeps_ret.
Qed.

Lemma keeps_LngLat_toBounds (this : loc) (radius : option number) :
  keeps_inv (LngLat_toBounds this radius) (fun _ => True).
Proof.
  unfold LngLat_toBounds. cbv zeta.
  eapply keeps_bind; [apply keeps_get_lat|]. intros lat _.
  eapply keeps_bind with (Q := fun _ => True); [keeps_tac|]. intros sw _.
  eapply keeps_bind with (Q := fun _ => True); [keeps_tac|]. intros ne _.
  apply keeps_LngLatBounds_constructor.
Qed.

(** X1.  No method of [LngLat] or [LngLatBounds] leaves behind a [LngLat]
    object with a NaN coordinate or a latitude outside the interval from
    -90 to 90, whether it returns or throws: [extend] writes to the corner
    objects in place, and still every [LngLat] object of the heap satisfies
    the invariant the constructor checks. *)
Theorem LngLat_invariant_kept
    (Number_toString : number -> string) (h : heap) :
  heap_inv h ->
  (forall lng lat, heap_inv (snd (LngLat_constructor lng lat h)))
  /\ (forall p, heap_inv (snd (LngLat_wrap p h)))
  /\ (forall p q, heap_inv (snd (LngLat_distanceTo p q h)))
  /\ (forall p r, heap_inv (snd (LngLat_toBounds p r h)))
  /\ (forall p, heap_inv (snd (LngLat_toString Number_toString p h)))
  /\ (forall sw ne, heap_inv (snd (LngLatBounds_constructor sw ne h)))
  /\ (forall b sw, heap_inv (snd (LngLatBounds_setSouthWest b sw h)))
  /\ (forall b ne, heap_inv (snd (LngLatBounds_setNorthEast b ne h)))
  /\ (forall b obj, heap_inv (snd (LngLatBounds_extend b obj h)))
  /\ (forall b, heap_inv (snd (LngLatBounds_getCenter b h)))
  /\ (forall b, heap_inv (snd (LngLatBounds_getNorthWest b h)))
  /\ (forall b, heap_inv (snd (LngLatBounds_getSouthEast b h)))
  /\ (forall b p, heap_inv (snd (LngLatBounds_contains b p h)))
  /\ (forall b, heap_inv (snd (LngLatBounds_isEmpty b h)))
  /\ (forall b, heap_inv (snd (LngLatBounds_toString Number_toString b h))).
Proof.
  intros Hh.
  assert (K : forall A (c : M A), keeps_inv c (fun _ => True) ->
                                  heap_inv (snd (c h))).
  { intros A c Hc. now destruct (Hc h Hh). }
  repeat (apply conj); intros; apply K.
  - apply keeps_LngLat_constructor.
  - unfold LngLat_wrap. keeps_tac.
  - unfold LngLat_distanceTo. cbv zeta. keeps_tac.
  - apply keeps_LngLat_toBounds.
  - unfold LngLat_toString. keeps_tac.
  - apply keeps_LngLatBounds_constructor.
  - unfold LngLatBounds_setSouthWest. keeps_tac.
  - unfold LngLatBounds_setNorthEast. keeps_tac.
  - apply keeps_LngLatBounds_extend.
  - unfold LngLatBounds_getCenter.
    repeat (eapply keeps_bind; [keeps_corner|]; intros ? _).
    apply keeps_LngLat_constructor.
  - unfold LngLatBounds_getNorthWest, LngLatBounds_getWest, LngLatBounds_getNorth.
    repeat (eapply keeps_bind; [keeps_corner|]; intros ? _).
    apply keeps_LngLat_constructor.
  - unfold LngLatBounds_getSouthEast, LngLatBounds_getEast, LngLatBounds_getSouth.
    repeat (eapply keeps_bind; [keeps_corner|]; intros ? _).
    apply keeps_LngLat_constructor.
  - apply keeps_LngLatBounds_contains.
  - unfold LngLatBounds_isEmpty. keeps_tac.
  - unfold LngLatBounds_toString, LngLat_toString. keeps_tac.
Qed.

(** Proves [heap_inv] of a heap written out in full. *)
Ltac heap_inv_tac :=
  let l := fresh "l" in
  let Hl := fresh "Hl" in
  intros l ? ? Hl;
  repeat (rewrite lookup_insert in Hl; case_decide;
          [injection Hl as <- <- || discriminate Hl|]);
  try (rewrite lookup_singleton in Hl; case_decide;
       [injection Hl as <- <- || discriminate Hl|discriminate Hl]);
  (split; [reflexivity|split; apply num_le_Finite; lra]).

Lemma manhattan_box_inv : heap_inv manhattan_box.
Proof. unfold manhattan_box. heap_inv_tac. Qed.

Lemma empty_bounds_and_point_heap_inv : heap_inv empty_bounds_and_point.
Proof. unfold empty_bounds_and_point. heap_inv_tac. Qed.

(** [LngLat_invariant_kept] applies to the heap of [manhattan_box]:
    extending the box by its own northeast corner keeps the invariant. *)
Lemma LngLat_invariant_kept_witness :
  heap_inv manhattan_box
  /\ heap_inv (snd (LngLatBounds_extend 1%positive 3%positive manhattan_box)).
Proof.
  split; [exact manhattan_box_inv|].
  apply (LngLat_invariant_kept (fun _ => EmptyString) manhattan_box
           manhattan_box_inv).
Defined.

(** ** LngLatBounds: what [extend] by a point achieves *)

Lemma Math_min_inside (x a : number) :
  (a <=? x)%js = true -> Math_min x a = a.
Proof. destruct x as [|[]|x], a as [|[]|a]; num_unfold; intros; Rcases; try (f_equal; lra). Qed.

Lemma Math_max_inside (x c : number) :
  (x <=? c)%js = true -> Math_max x c = c.
Proof. destruct x as [|[]|x], c as [|[]|c]; num_unfold; intros; Rcases; try (f_equal; lra). Qed.

(** Solves a lookup in a heap built by updates at locations known to be
    equal or different. *)
Ltac lookup_tac :=
  repeat first [ rewrite lookup_insert_eq
               | rewrite lookup_insert_ne by done ];
  first [ eassumption | reflexivity ].

(** Destructs the numbers of a goal about comparisons, minima and maxima
    and decides it. *)
Ltac num_cases :=
  repeat match goal with H : _ !! _ = _ |- _ => clear H end;
  repeat match goal with
    | x : number |- _ =>
        lazymatch goal with |- context [x] => destruct x as [|[]|?] end
    end;
  num_unfold; Rcases; try (f_equal; lra).

(** The growing branch of [extend], given a point: afterwards the point is
    as it was, and its coordinates lie between those of the corners,
    whatever aliasing there is among the point and the corner objects. *)
Lemma extend_corners_point (h : heap) (this sw ne p : loc) a b c d x y :
  h !! sw = Some (LngLat a b) -> h !! ne = Some (LngLat c d) ->
  h !! p = Some (LngLat x y) ->
  isNaN a = false -> isNaN b = false -> isNaN c = false -> isNaN d = false ->
  isNaN x = false -> isNaN y = false ->
  exists h' a' b' c' d',
    extend_corners this (Some sw) (Some ne) (Some p) (Some p) h = (Return tt, h')
    /\ (forall l, l <> sw -> l <> ne -> h' !! l = h !! l)
    /\ h' !! sw = Some (LngLat a' b')
    /\ h' !! ne = Some (LngLat c' d')
    /\ h' !! p = Some (LngLat x y)
    /\ (a' <=? x)%js = true /\ (x <=? c')%js = true
    /\ (b' <=? y)%js = true /\ (y <=? d')%js = true.
Proof.
  intros Hsw Hne Hp Na Nb Nc Nd Nx Ny.
  unfold extend_corners. cbn [not_ref andb].
  destruct (decide (sw = ne)) as [Esn | Nsn];
    destruct (decide (p = sw)) as [Eps | Nps];
    destruct (decide (p = ne)) as [Epn | Npn];
    try (exfalso; congruence); subst;
    repeat match goal with
      | H1 : ?h !! ?l = Some _, H2 : ?h !! ?l = Some _ |- _ =>
          rewrite H1 in H2; injection H2 as <- <-
      end;
    (erewrite bind_Return by (eapply grow_lng_run; lookup_tac));
    (erewrite bind_Return by (eapply grow_lat_run; lookup_tac));
    (erewrite bind_Return by (eapply grow_lng_run; lookup_tac));
    (erewrite grow_lat_run by lookup_tac);
    eexists _, _, _, _, _;
    (split; [reflexivity|]);
    (split; [intros l Hl1 Hl2; now rewrite !lookup_insert_ne by done|]);
    (split; [lookup_tac|]); (split; [lookup_tac|]);
    (split; [repeat first [ rewrite lookup_insert_eq
                          | rewrite lookup_insert_ne by done ];
             first [ exact Hp | do 2 f_equal; num_cases ]|]);
    repeat split; num_cases.
Qed.

Lemma LngLatBounds_extend_point_run (h : heap) (this p : loc) (x y : number) :
  heap_inv h -> empty_or_full h this -> h !! p = Some (LngLat x y) ->
  exists h' sw ne a b c d,
    LngLatBounds_extend this p h = (Return this, h')
    /\ h' !! this = Some (LngLatBounds (Some sw) (Some ne))
    /\ h' !! sw = Some (LngLat a b)
    /\ h' !! ne = Some (LngLat c d)
    /\ h' !! p = Some (LngLat x y)
    /\ (a <=? x)%js = true /\ (x <=? c)%js = true
    /\ (b <=? y)%js = true /\ (y <=? d)%js = true.
Proof.
  intros Hinv Hthis Hp.
  pose proof (Hinv p x y Hp) as [Nx Ry].
  pose proof (lat_in_range_not_NaN y Ry) as Ny.
  destruct Hthis as [Hthis | (sw & ne & a & b & c & d & Hthis & Hsw & Hne)].
  - destruct (LngLatBounds_extend_empty_point h this p x y Hthis Hp)
      as (sw & ne & h' & Hrun & Hd & Hsw0 & Hne0 & Ht & Hsw & Hne & Hframe);
      [now split|].
    exists h', sw, ne, x, y, x, y.
    repeat split; try done; try now apply num_le_refl.
    rewrite Hframe; [exact Hp | | |]; intros ->; congruence.
  - pose proof (Hinv sw a b Hsw) as [Na Rb].
    pose proof (Hinv ne c d Hne) as [Nc Rd].
    destruct (extend_corners_point h this sw ne p a b c d x y)
      as (h' & a' & b' & c' & d' & Hrun & Hframe & Hsw' & Hne' & Hp' & I);
      try done; try now apply lat_in_range_not_NaN.
    exists h', sw, ne, a', b', c', d'.
    split.
    { rewrite (LngLatBounds_extend_run h this p _ _
                 (Some (Some p, Some p)) Hthis)
        by (eapply extend_target_LngLat; eauto).
      now rewrite Hrun. }
    split.
    { rewrite Hframe; [exact Hthis | |]; intros ->; congruence. }
    done.
Qed.

Lemma contains_inside (h : heap) (this p sw ne : loc) a b c d x y :
  h !! this = Some (LngLatBounds (Some sw) (Some ne)) ->
  h !! sw = Some (LngLat a b) -> h !! ne = Some (LngLat c d) ->
  h !! p = Some (LngLat x y) ->
  (a <=? x)%js = true -> (x <=? c)%js = true ->
  (b <=? y)%js = true -> (y <=? d)%js = true ->
  LngLatBounds_contains this p h = (Return true, h).
Proof.
  intros Hthis Hsw Hne Hp H1 H2 H3 H4.
  rewrite (LngLatBounds_contains_run h this p sw ne a b c d x y) by done.
  rewrite H1, H2, H3, H4.
  assert (Hac : (a <=? c)%js = true) by (eapply num_le_trans; eauto).
  destruct (num_le_not_NaN _ _ Hac) as [Na Nc].
  rewrite (num_gt_le a c) by done. now rewrite Hac.
Qed.

(** X2.  After [extend] by a point, on a bounds that is empty or has both
    corners set, the bounds is not empty and [contains] the point; the
    point itself is as it was, also when it is one of the corner objects. *)
Theorem LngLatBounds_extend_contains
    (h : heap) (this p : loc) (x y : number) :
  heap_inv h -> empty_or_full h this -> h !! p = Some (LngLat x y) ->
  exists h',
    LngLatBounds_extend this p h = (Return this, h')
    /\ h' !! p = Some (LngLat x y)
    /\ LngLatBounds_isEmpty this h' = (Return false, h')
    /\ LngLatBounds_contains this p h' = (Return true, h').
Proof.
  intros Hinv Hthis Hp.
  destruct (LngLatBounds_extend_point_run h this p x y Hinv Hthis Hp)
    as (h' & sw & ne & a & b & c & d & Hrun & Ht & Hsw & Hne & Hp' & H1 & H2 & H3 & H4).
  exists h'. repeat split; try done.
  - mrun. reflexivity.
  - eapply contains_inside; eauto.
Qed.

(** The growing branch of [extend] writes nothing new when the point lies
    between the corners. *)
Lemma extend_corners_inside (h : heap) (this sw ne p : loc) a b c d x y :
  h !! sw = Some (LngLat a b) -> h !! ne = Some (LngLat c d) ->
  h !! p = Some (LngLat x y) ->
  (a <=? x)%js = true -> (x <=? c)%js = true ->
  (b <=? y)%js = true -> (y <=? d)%js = true ->
  extend_corners this (Some sw) (Some ne) (Some p) (Some p) h = (Return tt, h).
Proof.
  intros Hsw Hne Hp H1 H2 H3 H4.
  unfold extend_corners. cbn [not_ref andb].
  rewrite (bind_Return _ _ h tt h).
  2:{ rewrite (grow_lng_run Math_min h sw p a b x y Hsw Hp).
      rewrite Math_min_inside by done. now rewrite insert_id. }
  rewrite (bind_Return _ _ h tt h).
  2:{ rewrite (grow_lat_run Math_min h sw p a b x y Hsw Hp).
      rewrite Math_min_inside by done. now rewrite insert_id. }
  rewrite (bind_Return _ _ h tt h).
  2:{ rewrite (grow_lng_run Math_max h ne p c d x y Hne Hp).
      rewrite Math_max_inside by done. now rewrite insert_id. }
  rewrite (grow_lat_run Math_max h ne p c d x y Hne Hp).
  rewrite Math_max_inside by done. now rewrite insert_id.
Qed.

Lemma LngLatBounds_extend_inside (h : heap) (this p sw ne : loc) a b c d x y :
  h !! this = Some (LngLatBounds (Some sw) (Some ne)) ->
  h !! sw = Some (LngLat a b) -> h !! ne = Some (LngLat c d) ->
  h !! p = Some (LngLat x y) ->
  (a <=? x)%js = true -> (x <=? c)%js = true ->
  (b <=? y)%js = true -> (y <=? d)%js = true ->
  LngLatBounds_extend this p h = (Return this, h).
Proof.
  intros Hthis Hsw Hne Hp H1 H2 H3 H4.
  rewrite (LngLatBounds_extend_run h this p _ _ (Some (Some p, Some p)) Hthis)
    by (eapply extend_target_LngLat; eauto).
  now rewrite (extend_corners_inside h this sw ne p a b c d x y).
Qed.

(** X3.  [extend] by a point whose longitude and latitude lie between those
    of the corners, ends included, changes nothing: no corner object is
    written with a new value. *)
Theorem LngLatBounds_extend_inside_noop
    (h : heap) (this p sw ne : loc) (a b c d x y : number) :
  h !! this = Some (LngLatBounds (Some sw) (Some ne)) ->
  h !! sw = Some (LngLat a b) -> h !! ne = Some (LngLat c d) ->
  h !! p = Some (LngLat x y) ->
  (a <=? x)%js = true /\ (x <=? c)%js = true ->
  (b <=? y)%js = true /\ (y <=? d)%js = true ->
  LngLatBounds_extend this p h = (Return this, h).
Proof.
  intros Hthis Hsw Hne Hp [H1 H2] [H3 H4].
  eapply LngLatBounds_extend_inside; eauto.
Qed.

(** X4.  [extend] by a point is idempotent: a second [extend] by the same
    point leaves the heap of the first. *)
Theorem LngLatBounds_extend_idempotent
    (h : heap) (this p : loc) (x y : number) :
  heap_inv h -> empty_or_full h this -> h !! p = Some (LngLat x y) ->
  exists h',
    LngLatBounds_extend this p h = (Return this, h')
    /\ LngLatBounds_extend this p h' = (Return this, h').
Proof.
  intros Hinv Hthis Hp.
  destruct (LngLatBounds_extend_point_run h this p x y Hinv Hthis Hp)
    as (h' & sw & ne & a & b & c & d & Hrun & Ht & Hsw & Hne & Hp' & H1 & H2 & H3 & H4).
  exists h'. split; [exact Hrun|].
  eapply LngLatBounds_extend_inside; eauto.
Qed.

Lemma manhattan_box_full : empty_or_full manhattan_box 1%positive.
Proof.
  right. exists 2%positive, 3%positive. do 4 eexists.
  repeat split; reflexivity.
Qed.

(** [LngLatBounds_extend_contains] applies to an empty bounds and the point
    (30, 40). *)
Lemma LngLatBounds_extend_contains_witness :
  exists h',
    LngLatBounds_extend 1%positive 2%positive empty_bounds_and_point
    = (Return 1%positive, h')
    /\ LngLatBounds_contains 1%positive 2%positive h' = (Return true, h').
Proof.
  destruct (LngLatBounds_extend_contains empty_bounds_and_point
              1%positive 2%positive (Finite 30) (Finite 40))
    as (h' & Hrun & _ & _ & Hc).
  - exact empty_bounds_and_point_heap_inv.
  - left. reflexivity.
  - reflexivity.
  - exists h'. split; assumption.
Defined.

(** [LngLatBounds_extend_inside_noop] applies to the box and the point of
    [manhattan_box]. *)
Lemma LngLatBounds_extend_inside_noop_witness :
  LngLatBounds_extend 1%positive 4%positive manhattan_box
  = (Return 1%positive, manhattan_box).
Proof.
  apply (LngLatBounds_extend_inside_noop manhattan_box 1%positive 4%positive
           2%positive 3%positive
           (Finite (-73.9876)) (Finite 40.7661)
           (Finite (-73.9397)) (Finite 40.8002)
           (Finite (-73.9567)) (Finite 40.7789));
    try reflexivity; split; apply num_le_Finite; lra.
Defined.

(** [LngLatBounds_extend_idempotent] applies to the box of [manhattan_box]
    and its southwest corner. *)
Lemma LngLatBounds_extend_idempotent_witness :
  exists h',
    LngLatBounds_extend 1%positive 2%positive manhattan_box
    = (Return 1%positive, h')
    /\ LngLatBounds_extend 1%positive 2%positive h' = (Return 1%positive, h').
Proof.
  apply (LngLatBounds_extend_idempotent manhattan_box 1%positive 2%positive
           (Finite (-73.9876)) (Finite 40.7661)).
  - exact manhattan_box_inv.
  - exact manhattan_box_full.
  - reflexivity.
Defined.

(** ** LngLatBounds: [extend] at the edges *)

(** X5.  [extend] by a bounds that lacks a corner returns the receiver and
    changes nothing, whatever corners the receiver has. *)
Theorem LngLatBounds_extend_by_empty
    (h : heap) (this obj : loc) (sw ne sw2 ne2 : option loc) :
  h !! this = Some (LngLatBounds sw ne) ->
  h !! obj = Some (LngLatBounds sw2 ne2) ->
  sw2 = None \/ ne2 = None ->
  LngLatBounds_extend this obj h = (Return this, h).
Proof.
  intros Hthis Hobj Hnone.
  rewrite (LngLatBounds_extend_run h this obj sw ne None Hthis); [reflexivity|].
  rewrite (extend_target_Bounds h obj sw2 ne2 Hobj).
  destruct Hnone as [-> | ->]; [reflexivity|].
  now destruct sw2.
Qed.

(** [LngLatBounds_extend_by_empty] applies to the box of [manhattan_box]
    extended by an empty bounds. *)
Lemma LngLatBounds_extend_by_empty_witness :
  LngLatBounds_extend 1%positive 5%positive
    (<[5%positive := LngLatBounds None None]> manhattan_box)
  = (Return 1%positive, <[5%positive := LngLatBounds None None]> manhattan_box).
Proof.
  apply (LngLatBounds_extend_by_empty _ 1%positive 5%positive
           (Some 2%positive) (Some 3%positive) None None);
    [reflexivity | reflexivity | now left].
Defined.

(** X6.  On a bounds with exactly one corner set, [extend] by a point
    throws the error of a property access on [undefined].  When the corner
    that is set is the southwest one, its object has been written before
    the throw; when it is the northeast one, nothing has been written. *)
Theorem LngLatBounds_extend_half_set
    (h : heap) (this c p : loc) (a b x y : number) :
  h !! c = Some (LngLat a b) -> h !! p = Some (LngLat x y) ->
  (h !! this = Some (LngLatBounds (Some c) None) ->
   LngLatBounds_extend this p h
   = (Throw TypeError, <[c := LngLat (Math_min x a) (Math_min y b)]> h))
  /\ (h !! this = Some (LngLatBounds None (Some c)) ->
      LngLatBounds_extend this p h = (Throw TypeError, h)).
Proof.
  intros Hc Hp. split; intros Hthis.
  - rewrite (LngLatBounds_extend_run h this p _ _ (Some (Some p, Some p)) Hthis)
      by (eapply extend_target_LngLat; eauto).
    unfold extend_corners. cbn [not_ref andb].
    rewrite (bind_Return _ _ h tt _ (grow_lng_run Math_min h c p a b x y Hc Hp)).
    set (h1 := <[c := LngLat (Math_min x a) b]> h).
    assert (H1c : h1 !! c = Some (LngLat (Math_min x a) b))
      by apply lookup_insert_eq.
    assert (H1p : exists x', h1 !! p = Some (LngLat x' y)).
    { unfold h1. destruct (decide (c = p)) as [->|].
      - rewrite lookup_insert_eq. rewrite Hc in Hp. injection Hp as -> ->. eauto.
      - rewrite lookup_insert_ne by done. eauto. }
    destruct H1p as [x' H1p].
    rewrite (bind_Return _ _ h1 tt _
               (grow_lat_run Math_min h1 c p _ b x' y H1c H1p)).
    unfold h1. rewrite insert_insert_eq.
    set (h2 := <[c := LngLat (Math_min x a) (Math_min y b)]> h).
    assert (H2p : exists x'' y'', h2 !! p = Some (LngLat x'' y'')).
    { unfold h2. destruct (decide (c = p)) as [->|].
      - rewrite lookup_insert_eq. eauto.
      - rewrite lookup_insert_ne by done. eauto. }
    destruct H2p as (x'' & y'' & H2p).
    erewrite bind_Throw; [reflexivity|].
    rewrite (bind_Return _ _ h2 x'' h2)
      by (unfold ref_lng, defined; erewrite bind_Return by reflexivity;
          eapply get_lng_run; eauto).
    reflexivity.
  - rewrite (LngLatBounds_extend_run h this p _ _ (Some (Some p, Some p)) Hthis)
      by (eapply extend_target_LngLat; eauto).
    unfold extend_corners. cbn [not_ref andb].
    erewrite bind_Throw; [reflexivity|].
    rewrite (bind_Return _ _ h x h)
      by (unfold ref_lng, defined; erewrite bind_Return by reflexivity;
          eapply get_lng_run; eauto).
    reflexivity.
Qed.

(** [LngLatBounds_extend_half_set] applies to the bounds and the point of
    [half_set_bounds]. *)
Lemma LngLatBounds_extend_half_set_witness :
  LngLatBounds_extend 1%positive 3%positive half_set_bounds
  = (Throw TypeError,
     <[2%positive := LngLat (Math_min (Finite 0) (Finite 10))
                            (Math_min (Finite 0) (Finite 20))]> half_set_bounds).
Proof.
  apply (LngLatBounds_extend_half_set half_set_bounds 1%positive 2%positive
           3%positive (Finite 10) (Finite 20) (Finite 0) (Finite 0));
    reflexivity.
Defined.

(** ** LngLatBounds: construction, setters and getters *)

Lemma LngLatBounds_constructor_run (h : heap) (sw ne : option loc) :
  LngLatBounds_constructor sw ne h
  = (Return (fresh (dom h)),
     <[fresh (dom h) := match sw, ne with
                        | Some _, Some _ => LngLatBounds sw ne
                        | _, _ => LngLatBounds None None
                        end]> h).
Proof.
  destruct sw as [sw|], ne as [ne|]; try reflexivity.
  apply LngLatBounds_constructor_two.
Qed.

(** X7.  The constructor sets the corners only when it is given both: a
    lone corner is dropped and the new bounds is empty.  When it is given
    both, the getters return the very references given, not copies. *)
Theorem LngLatBounds_constructor_corners (h : heap) (sw ne : option loc) :
  exists (b : loc) (h' : heap),
    LngLatBounds_constructor sw ne h = (Return b, h')
    /\ h !! b = None
    /\ (forall l, l <> b -> h' !! l = h !! l)
    /\ LngLatBounds_isEmpty b h'
       = (Return (not_ref sw || not_ref ne), h')
    /\ LngLatBounds_getSouthWest b h'
       = (Return (if not_ref sw || not_ref ne then None else sw), h')
    /\ LngLatBounds_getNorthEast b h'
       = (Return (if not_ref sw || not_ref ne then None else ne), h').
Proof.
  eexists _, _. split; [apply LngLatBounds_constructor_run|].
  split; [apply fresh_None|].
  split; [intros l Hl; now rewrite lookup_insert_ne|].
  destruct sw, ne; cbn [not_ref orb];
    repeat split; repeat (munfold; rewrite lookup_insert_eq); reflexivity.
Qed.

Lemma LngLatBounds_setSouthWest_run (h : heap) (b sw : loc) (s n : option loc) :
  h !! b = Some (LngLatBounds s n) ->
  LngLatBounds_setSouthWest b sw h
  = (Return b, <[b := LngLatBounds (Some sw) n]> h).
Proof.
  intros H. unfold LngLatBounds_setSouthWest.
  now rewrite (bind_Return _ _ h tt _ (set__sw_run h b s n (Some sw) H)).
Qed.

Lemma LngLatBounds_setNorthEast_run (h : heap) (b ne : loc) (s n : option loc) :
  h !! b = Some (LngLatBounds s n) ->
  LngLatBounds_setNorthEast b ne h
  = (Return b, <[b := LngLatBounds s (Some ne)]> h).
Proof.
  intros H. unfold LngLatBounds_setNorthEast.
  now rewrite (bind_Return _ _ h tt _ (set__ne_run h b s n (Some ne) H)).
Qed.

(** X8.  A setter replaces one corner reference, leaves the other corner
    and every other object as they were, and returns the receiver; the
    matching getter then returns the reference given.  Building a bounds
    empty and setting both corners gives the heap the two-corner
    constructor gives. *)
Theorem LngLatBounds_setters (h : heap) (b sw ne : loc) (s n : option loc) :
  h !! b = Some (LngLatBounds s n) ->
  (exists h', LngLatBounds_setSouthWest b sw h = (Return b, h')
              /\ LngLatBounds_getSouthWest b h' = (Return (Some sw), h')
              /\ LngLatBounds_getNorthEast b h' = (Return n, h')
              /\ (forall l, l <> b -> h' !! l = h !! l))
  /\ (exists h', LngLatBounds_setNorthEast b ne h = (Return b, h')
                 /\ LngLatBounds_getNorthEast b h' = (Return (Some ne), h')
                 /\ LngLatBounds_getSouthWest b h' = (Return s, h')
                 /\ (forall l, l <> b -> h' !! l = h !! l))
  /\ construct_then_set sw ne h
     = LngLatBounds_constructor (Some sw) (Some ne) h.
Proof.
  intros Hb. split; [|split].
  - eexists. split; [eapply LngLatBounds_setSouthWest_run; eauto|].
    repeat split;
      try (repeat (munfold; rewrite lookup_insert_eq); reflexivity).
    intros l Hl. now rewrite lookup_insert_ne.
  - eexists. split; [eapply LngLatBounds_setNorthEast_run; eauto|].
    repeat split;
      try (repeat (munfold; rewrite lookup_insert_eq); reflexivity).
    intros l Hl. now rewrite lookup_insert_ne.
  - unfold construct_then_set.
    rewrite (bind_Return _ _ h _ _ (LngLatBounds_constructor_run h None None)).
    erewrite bind_Return
      by (eapply LngLatBounds_setSouthWest_run; apply lookup_insert_eq).
    erewrite LngLatBounds_setNorthEast_run by apply lookup_insert_eq.
    rewrite !insert_insert_eq.
    now rewrite LngLatBounds_constructor_two.
Qed.

(** [LngLatBounds_setters] applies to the empty bounds of
    [empty_bounds_and_point]. *)
Lemma LngLatBounds_setters_witness :
  exists h',
    LngLatBounds_setSouthWest 1%positive 2%positive empty_bounds_and_point
    = (Return 1%positive, h')
    /\ LngLatBounds_getSouthWest 1%positive h' = (Return (Some 2%positive), h')
    /\ LngLatBounds_getNorthEast 1%positive h' = (Return None, h').
Proof.
  destruct (LngLatBounds_setters empty_bounds_and_point 1%positive 2%positive
              2%positive None None) as [(h' & H1 & H2 & H3 & _) _];
    [reflexivity|].
  exists h'. repeat split; assumption.
Defined.

(** X9.  The two-corner constructor keeps the objects it is given as the
    corners, and [extend] writes to them: after
    [new LngLatBounds(sw, ne).extend(p)], the object [sw] of the caller
    holds the smaller longitude and the smaller latitude of [sw] and [p],
    the object [ne] the greater ones, and [p] is as it was. *)
Theorem LngLatBounds_extend_writes_given_corners
    (h : heap) (sw ne p : loc) (a b c d x y : number) :
  h !! sw = Some (LngLat a b) -> h !! ne = Some (LngLat c d) ->
  h !! p = Some (LngLat x y) ->
  sw <> ne -> p <> sw -> p <> ne ->
  exists (this : loc) (h' : heap),
    construct_then_extend sw ne p h = (Return this, h')
    /\ h !! this = None
    /\ h' !! this = Some (LngLatBounds (Some sw) (Some ne))
    /\ h' !! sw = Some (LngLat (Math_min x a) (Math_min y b))
    /\ h' !! ne = Some (LngLat (Math_max x c) (Math_max y d))
    /\ h' !! p = Some (LngLat x y).
Proof.
  intros Hsw Hne Hp Nsn Nps Npn.
  set (this := fresh (dom h)).
  assert (Hfresh : h !! this = None) by apply fresh_None.
  assert (this <> sw) by (intros E; rewrite E in Hfresh; congruence).
  assert (this <> ne) by (intros E; rewrite E in Hfresh; congruence).
  assert (this <> p) by (intros E; rewrite E in Hfresh; congruence).
  set (h0 := <[this := LngLatBounds (Some sw) (Some ne)]> h).
  assert (H0t : h0 !! this = Some (LngLatBounds (Some sw) (Some ne)))
    by apply lookup_insert_eq.
  assert (H0sw : h0 !! sw = Some (LngLat a b))
    by (unfold h0; now rewrite lookup_insert_ne).
  assert (H0ne : h0 !! ne = Some (LngLat c d))
    by (unfold h0; now rewrite lookup_insert_ne).
  assert (H0p : h0 !! p = Some (LngLat x y))
    by (unfold h0; now rewrite lookup_insert_ne).
  eexists this, _. split.
  - unfold construct_then_extend.
    rewrite (bind_Return _ _ h _ _ (LngLatBounds_constructor_two h sw ne)).
    fold this. fold h0.
    rewrite (LngLatBounds_extend_run h0 this p _ _ (Some (Some p, Some p)) H0t)
      by (eapply extend_target_LngLat; eauto).
    unfold extend_corners. cbn [not_ref andb].
    erewrite bind_Return by (eapply grow_lng_run; lookup_tac).
    erewrite bind_Return by (eapply grow_lat_run; lookup_tac).
    erewrite bind_Return by (eapply grow_lng_run; lookup_tac).
    erewrite grow_lat_run by lookup_tac.
    reflexivity.
  - repeat split; try done; lookup_tac.
Qed.

(** [LngLatBounds_extend_writes_given_corners] applies to the points of
    [three_points]. *)
Lemma LngLatBounds_extend_writes_given_corners_witness :
  exists (this : loc) (h' : heap),
    construct_then_extend 1%positive 2%positive 3%positive three_points
    = (Return this, h')
    /\ h' !! 1%positive
       = Some (LngLat (Math_min (Finite 50) (Finite 10))
                      (Math_min (Finite 0) (Finite 20)))
    /\ h' !! 2%positive
       = Some (LngLat (Math_max (Finite 50) (Finite 30))
                      (Math_max (Finite 0) (Finite 40))).
Proof.
  destruct (LngLatBounds_extend_writes_given_corners three_points
              1%positive 2%positive 3%positive
              (Finite 10) (Finite 20) (Finite 30) (Finite 40)
              (Finite 50) (Finite 0))
    as (this & h' & Hrun & _ & _ & Hsw & Hne & _); try reflexivity; try done.
  exists this, h'. repeat split; assumption.
Defined.

(** ** LngLatBounds: the corners lie in the box *)

Lemma lng_ends_inside (a c : number) :
  isNaN a = false -> isNaN c = false ->
  (if a >? c then (a >=? a) && (a >=? c) else (a <=? a) && (a <=? c))%js = true
  /\ (if a >? c then (a >=? c) && (c >=? c) else (a <=? c) && (c <=? c))%js = true.
Proof. intros Na Nc. split; num_cases. Qed.

(** X10.  A bounds whose corners are set with [sw.lat <= ne.lat] contains
    its four corners, the two it stores and the two [getNorthWest] and
    [getSouthEast] build, whether [sw.lng <= ne.lng] or [sw.lng > ne.lng]:
    the edges belong to the box. *)
Theorem LngLatBounds_contains_corners
    (h : heap) (this sw ne : loc) (a b c d : number) :
  h !! this = Some (LngLatBounds (Some sw) (Some ne)) ->
  h !! sw = Some (LngLat a b) -> h !! ne = Some (LngLat c d) ->
  LngLat_inv a b -> LngLat_inv c d ->
  (b <=? d)%js = true ->
  LngLatBounds_contains this sw h = (Return true, h)
  /\ LngLatBounds_contains this ne h = (Return true, h)
  /\ (exists nw h1,
         LngLatBounds_getNorthWest this h = (Return nw, h1)
         /\ h1 !! nw = Some (LngLat a d)
         /\ LngLatBounds_contains this nw h1 = (Return true, h1))
  /\ (exists se h1,
         LngLatBounds_getSouthEast this h = (Return se, h1)
         /\ h1 !! se = Some (LngLat c b)
         /\ LngLatBounds_contains this se h1 = (Return true, h1)).
Proof.
  intros Hthis Hsw Hne [Na Rb] [Nc Rd] Hle.
  destruct (num_le_not_NaN _ _ Hle) as [Nb Nd].
  destruct (lng_ends_inside a c Na Nc) as [La Lc].
  pose proof (num_le_refl b Nb) as Hbb.
  pose proof (num_le_refl d Nd) as Hdd.
  assert (Hnew : forall lng lat,
             (lng = a \/ lng = c) -> (lat = b \/ lat = d) ->
             LngLat_inv lng lat ->
             forall f h1, f = fresh (dom h) -> h1 = <[f := LngLat lng lat]> h ->
             LngLatBounds_contains this f h1 = (Return true, h1)).
  { intros lng lat Hlng Hlat Hi f h1 -> ->.
    assert (this <> fresh (dom h)) by (eapply fresh_ne; eauto).
    assert (sw <> fresh (dom h)) by (eapply fresh_ne; eauto).
    assert (ne <> fresh (dom h)) by (eapply fresh_ne; eauto).
    rewrite (LngLatBounds_contains_run _ this _ sw ne a b c d lng lat);
      try lookup_tac.
    destruct Hlng as [-> | ->], Hlat as [-> | ->];
      rewrite ?Hbb, ?Hdd, ?Hle, ?La, ?Lc; reflexivity. }
  split; [|split; [|split]].
  - rewrite (LngLatBounds_contains_run h this sw sw ne a b c d a b) by done.
    now rewrite Hbb, Hle, La.
  - rewrite (LngLatBounds_contains_run h this ne sw ne a b c d c d) by done.
    now rewrite Hdd, Hle, Lc.
  - exists (fresh (dom h)), (<[fresh (dom h) := LngLat a d]> h). split; [|split].
    + mrun. apply LngLat_constructor_ok; [done | done | exact Rd].
    + apply lookup_insert_eq.
    + apply (Hnew a d); [now left | now right | now split | done | done].
  - exists (fresh (dom h)), (<[fresh (dom h) := LngLat c b]> h). split; [|split].
    + mrun. apply LngLat_constructor_ok; [done | done | exact Rb].
    + apply lookup_insert_eq.
    + apply (Hnew c b); [now right | now left | now split | done | done].
Qed.

(** [LngLatBounds_contains_corners] applies to the box of
    [manhattan_box]. *)
Lemma LngLatBounds_contains_corners_witness :
  LngLatBounds_contains 1%positive 2%positive manhattan_box
  = (Return true, manhattan_box)
  /\ LngLatBounds_contains 1%positive 3%positive manhattan_box
     = (Return true, manhattan_box).
Proof.
  destruct (LngLatBounds_contains_corners manhattan_box 1%positive
              2%positive 3%positive
              (Finite (-73.9876)) (Finite 40.7661)
              (Finite (-73.9397)) (Finite 40.8002)) as (H1 & H2 & _);
    try reflexivity;
    try (split; [reflexivity|split; apply num_le_Finite; lra]).
  - apply num_le_Finite. lra.
  - split; assumption.
Defined.

(** ** LngLat: [distanceTo], continued *)

Lemma LngLat_distanceTo_run (h : heap) (p q : loc) lng1 lat1 lng2 lat2 :
  h !! p = Some (LngLat lng1 lat1) -> h !! q = Some (LngLat lng2 lat2) ->
  LngLat_distanceTo p q h
  = (Return (great_circle_distance lng1 lat1 lng2 lat2), h).
Proof. intros Hp Hq. mrun. rewrite Math_min_clamp. reflexivity. Qed.

Lemma num_mul_comm (a b : number) : (a * b)%js = (b * a)%js.
Proof.
  destruct a as [|[]|x], b as [|[]|y]; cbn; try reflexivity;
    try (now destruct (Reqb _ 0)).
  f_equal. ring.
Qed.

Lemma cos_difference_sym (a b : number) :
  Math_cos (to_radians (a - b)) = Math_cos (to_radians (b - a)).
Proof.
  pose proof PI_RGT_0 as HPI. unfold to_radians.
  destruct a as [|[]|x], b as [|[]|y]; cbn; Rcases.
  all: try (f_equal;
            replace ((y + - x) * (PI / 180)) with (- ((x + - y) * (PI / 180)))
              by lra;
            now rewrite cos_neg).
Qed.

Lemma great_circle_distance_sym (lng1 lat1 lng2 lat2 : number) :
  great_circle_distance lng1 lat1 lng2 lat2
  = great_circle_distance lng2 lat2 lng1 lat1.
Proof.
  unfold great_circle_distance, law_of_cosines.
  rewrite (cos_difference_sym lng2 lng1).
  rewrite (num_mul_comm (Math_sin (to_radians lat1))).
  rewrite (num_mul_comm (Math_cos (to_radians lat1))).
  reflexivity.
Qed.

Lemma cos_difference_Infinity (lng : number) (s : bool) :
  Math_cos (to_radians (lng - Infinity s)) = NaN.
Proof.
  pose proof PI_RGT_0 as HPI. unfold to_radians.
  destruct lng as [|[]|x], s; cbn; Rcases.
Qed.

Lemma great_circle_distance_Infinity (s : bool) (lat1 lng2 lat2 : number) :
  great_circle_distance (Infinity s) lat1 lng2 lat2 = NaN.
Proof.
  unfold great_circle_distance, law_of_cosines.
  rewrite cos_difference_Infinity.
  assert (Hmul : forall a, (a * NaN)%js = NaN) by (intros [|[]|]; reflexivity).
  assert (Hadd : forall a, (a + NaN)%js = NaN) by (intros [|[]|]; reflexivity).
  rewrite Hmul, Hadd. reflexivity.
Qed.

(** X11.  [distanceTo] is symmetric: [p.distanceTo(q)] and
    [q.distanceTo(p)] return the same number, whatever the coordinates. *)
Theorem LngLat_distanceTo_sym
    (h : heap) (p q : loc) (lng1 lat1 lng2 lat2 : number) :
  h !! p = Some (LngLat lng1 lat1) -> h !! q = Some (LngLat lng2 lat2) ->
  LngLat_distanceTo p q h = LngLat_distanceTo q p h.
Proof.
  intros Hp Hq.
  rewrite (LngLat_distanceTo_run h p q lng1 lat1 lng2 lat2 Hp Hq).
  rewrite (LngLat_distanceTo_run h q p lng2 lat2 lng1 lat1 Hq Hp).
  do 2 f_equal. apply great_circle_distance_sym.
Qed.

(** [LngLat_distanceTo_sym] applies to New York and Los Angeles. *)
Lemma LngLat_distanceTo_sym_witness :
  LngLat_distanceTo 1%positive 2%positive new_york_los_angeles
  = LngLat_distanceTo 2%positive 1%positive new_york_los_angeles.
Proof.
  apply (LngLat_distanceTo_sym new_york_los_angeles 1%positive 2%positive
           (Finite (-74.0060)) (Finite 40.7128)
           (Finite (-118.2437)) (Finite 34.0522)); reflexivity.
Defined.

(** X12.  The constructor accepts an infinite longitude; [distanceTo] from
    or to such a point does not throw, it returns NaN. *)
Theorem LngLat_distanceTo_Infinity
    (h : heap) (p q : loc) (s : bool) (lat1 lng2 lat2 : number) :
  h !! p = Some (LngLat (Infinity s) lat1) ->
  h !! q = Some (LngLat lng2 lat2) ->
  LngLat_distanceTo p q h = (Return NaN, h)
  /\ LngLat_distanceTo q p h = (Return NaN, h).
Proof.
  intros Hp Hq.
  pose proof (great_circle_distance_Infinity s lat1 lng2 lat2) as E.
  split.
  - now rewrite (LngLat_distanceTo_run h p q _ _ _ _ Hp Hq), E.
  - rewrite (LngLat_distanceTo_run h q p _ _ _ _ Hq Hp).
    now rewrite great_circle_distance_sym, E.
Qed.

(** [LngLat_distanceTo_Infinity] applies to the points of
    [infinite_longitude]. *)
Lemma LngLat_distanceTo_Infinity_witness :
  LngLat_distanceTo 1%positive 2%positive infinite_longitude
  = (Return NaN, infinite_longitude).
Proof.
  apply (LngLat_distanceTo_Infinity infinite_longitude 1%positive 2%positive
           false (Finite 10) (Finite 20) (Finite 30)); reflexivity.
Defined.

(** ** LngLat: [toBounds], continued *)

Lemma cos_lat_pos (lat : R) : -90 < lat < 90 -> 0 < cos (PI / 180 * lat).
Proof.
  intros [Hlo Hhi]. pose proof PI_RGT_0 as HPI.
  assert (H180 : 0 < PI / 180) by lra.
  apply cos_gt_0.
  - replace (- (PI / 2)) with (PI / 180 * -90) by lra.
    now apply Rmult_lt_compat_l.
  - replace (PI / 2) with (PI / 180 * 90) by lra.
    now apply Rmult_lt_compat_l.
Qed.

(** [toBounds] away from the poles, when both corner latitudes stay in
    range: the two corners and the bounds are new objects. *)
Lemma LngLat_toBounds_run (h : heap) (p : loc) (lng lat r : R) :
  h !! p = Some (LngLat (Finite lng) (Finite lat)) ->
  0 <= r -> -90 < lat < 90 ->
  -90 <= lat - 360 * r / 40075017 -> lat + 360 * r / 40075017 <= 90 ->
  exists (sw ne b : loc) (h' : heap),
    LngLat_toBounds p (Some (Finite r)) h = (Return b, h')
    /\ h !! sw = None /\ h !! ne = None /\ h !! b = None
    /\ (forall l o, h !! l = Some o -> h' !! l = Some o)
    /\ h' !! b = Some (LngLatBounds (Some sw) (Some ne))
    /\ h' !! sw
       = Some (LngLat
                 (Finite (lng - 360 * r / 40075017 / cos (PI / 180 * lat)))
                 (Finite (lat - 360 * r / 40075017)))
    /\ h' !! ne
       = Some (LngLat
                 (Finite (lng + 360 * r / 40075017 / cos (PI / 180 * lat)))
                 (Finite (lat + 360 * r / 40075017))).
Proof.
  intros Hp Hr Hlat Hlo Hhi.
  pose proof (cos_lat_pos lat Hlat) as Hcos.
  assert (HA : 0 <= 360 * r / 40075017) by lra.
  set (A := 360 * r / 40075017) in *.
  set (L := A / cos (PI / 180 * lat)).
  assert (EA : (Finite 360 * Finite r / Finite 40075017)%js = Finite A)
    by (cbn; Rcases).
  assert (EL : (Finite A / Math_cos (Math_PI / Finite 180 * Finite lat))%js
               = Finite L) by (cbn; Rcases).
  set (sw := fresh (dom h)).
  set (h1 := <[sw := LngLat (Finite (lng - L)) (Finite (lat - A))]> h).
  set (ne := fresh (dom h1)).
  set (h2 := <[ne := LngLat (Finite (lng + L)) (Finite (lat + A))]> h1).
  set (b := fresh (dom h2)).
  set (h3 := <[b := LngLatBounds (Some sw) (Some ne)]> h2).
  assert (Hsw : h !! sw = None) by apply fresh_None.
  assert (H1ne : h1 !! ne = None) by apply fresh_None.
  assert (H2b : h2 !! b = None) by apply fresh_None.
  assert (Nsn : sw <> ne).
  { intros E. rewrite <- E in H1ne. unfold h1 in H1ne.
    rewrite lookup_insert_eq in H1ne. discriminate. }
  assert (Nbn : ne <> b).
  { intros E. rewrite <- E in H2b. unfold h2 in H2b.
    rewrite lookup_insert_eq in H2b. discriminate. }
  assert (Nbs : sw <> b).
  { intros E. rewrite <- E in H2b. unfold h2, h1 in H2b.
    rewrite lookup_insert_ne, lookup_insert_eq in H2b by done. discriminate. }
  assert (Hne : h !! ne = None).
  { unfold h1 in H1ne. now rewrite lookup_insert_ne in H1ne. }
  assert (Hb : h !! b = None).
  { unfold h2, h1 in H2b. now rewrite !lookup_insert_ne in H2b. }
  assert (Hold : forall l o, h !! l = Some o -> h3 !! l = Some o).
  { intros l o Hl. unfold h3, h2, h1.
    rewrite !lookup_insert_ne; [exact Hl | | |]; intros E; congruence. }
  exists sw, ne, b, h3. repeat split; try done.
  - unfold LngLat_toBounds. cbv zeta.
    change (default (Finite 0) (Some (Finite r))) with (Finite r).
    rewrite (bind_Return _ _ h (Finite lat) h) by (eapply get_lat_run; eauto).
    rewrite EA, EL.
    rewrite (bind_Return _ _ h sw h1).
    2:{ rewrite (corner_run (fun x y => LngLat_constructor (x - Finite L)%js
                                          (y - Finite A)%js) h p _ _ Hp).
        apply LngLat_constructor_ok; [reflexivity | reflexivity |].
        split; apply num_le_Finite; lra. }
    rewrite (bind_Return _ _ h1 ne h2).
    2:{ rewrite (corner_run (fun x y => LngLat_constructor (x + Finite L)%js
                                          (y + Finite A)%js) h1 p
                   (Finite lng) (Finite lat))
          by (unfold h1; rewrite lookup_insert_ne; [exact Hp|congruence]).
        apply LngLat_constructor_ok; [reflexivity | reflexivity |].
        split; apply num_le_Finite; lra. }
    apply LngLatBounds_constructor_two.
  - apply lookup_insert_eq.
  - unfold h3, h2. rewrite !lookup_insert_ne by done. apply lookup_insert_eq.
  - unfold h3. rewrite lookup_insert_ne by done. apply lookup_insert_eq.
Qed.

(** What a returning constructor call has checked and done. *)
Lemma LngLat_constructor_Return (lng lat : number) (h h' : heap) (l : loc) :
  LngLat_constructor lng lat h = (Return l, h') ->
  isNaN lng = false /\ isNaN lat = false /\ lat_in_range lat
  /\ l = fresh (dom h) /\ h' = <[fresh (dom h) := LngLat lng lat]> h.
Proof.
  intros H.
  destruct (isNaN lng) eqn:Nlng.
  { rewrite LngLat_constructor_NaN in H by now left. discriminate. }
  destruct (isNaN lat) eqn:Nlat.
  { rewrite LngLat_constructor_NaN in H by now right. discriminate. }
  destruct (Finite (-90) <=? lat)%js eqn:Hlo.
  - destruct (lat <=? Finite 90)%js eqn:Hhi.
    + rewrite LngLat_constructor_ok in H by (try done; now split).
      injection H as <- <-. repeat split; done.
    + rewrite LngLat_constructor_range in H; [discriminate | done | done |].
      intros [_ E]. congruence.
  - rewrite LngLat_constructor_range in H; [discriminate | done | done |].
    intros [E _]. congruence.
Qed.

Lemma num_sub_le (x a : number) :
  (Finite 0 <=? a)%js = true -> isNaN (x - a)%js = false ->
  (x - a <=? x)%js = true.
Proof.
  destruct x as [|[]|x], a as [|[]|a]; num_unfold; cbn; intros; Rcases.
Qed.

Lemma num_add_le (x a : number) :
  (Finite 0 <=? a)%js = true -> isNaN (x + a)%js = false ->
  (x <=? x + a)%js = true.
Proof.
  destruct x as [|[]|x], a as [|[]|a]; num_unfold; cbn; intros; Rcases.
Qed.

(** The latitude accuracy of a radius that is not negative is not
    negative. *)
Lemma latAccuracy_nonneg (radius : number) :
  (Finite 0 <=? radius)%js = true ->
  (Finite 0 <=? Finite 360 * radius / Finite 40075017)%js = true.
Proof.
  destruct radius as [|[]|r]; num_unfold; cbn; intros; Rcases.
Qed.

Lemma cos_lat_nonneg (lat : R) : -90 <= lat <= 90 -> 0 <= cos (PI / 180 * lat).
Proof.
  intros [Hlo Hhi]. pose proof PI_RGT_0 as HPI.
  assert (H180 : 0 <= PI / 180) by lra.
  apply cos_ge_0.
  - replace (- (PI / 2)) with (PI / 180 * -90) by lra.
    now apply Rmult_le_compat_l.
  - replace (PI / 2) with (PI / 180 * 90) by lra.
    now apply Rmult_le_compat_l.
Qed.

(** The longitude accuracy is NaN or not negative. *)
Lemma lngAccuracy_nonneg (A : number) (c : R) :
  (Finite 0 <=? A)%js = true -> 0 <= c ->
  (A / Finite c)%js = NaN \/ (Finite 0 <=? A / Finite c)%js = true.
Proof.
  intros HA Hc. destruct A as [|[]|a]; try discriminate.
  - right. num_unfold. cbn. Rcases.
  - apply num_le_Finite in HA. cbn. unfold Reqb.
    destruct (Req_dec_T c 0) as [E|E].
    + destruct (Req_dec_T a 0); [now left|]. right.
      num_unfold. cbn. Rcases.
    + right. apply num_le_Finite. apply Rmult_le_pos; [exact HA|].
      left. apply Rinv_0_lt_compat. lra.
Qed.



(** X14.  Away from the poles, [toBounds()] with the radius left out
    returns a box of no extent: both corners are new objects that hold the
    coordinates of the point. *)
Theorem LngLat_toBounds_default (h : heap) (p : loc) (lng lat : R) :
  h !! p = Some (LngLat (Finite lng) (Finite lat)) ->
  -90 < lat < 90 ->
  exists (sw ne b : loc) (h' : heap),
    LngLat_toBounds p None h = (Return b, h')
    /\ h !! sw = None /\ h !! ne = None /\ h !! b = None
    /\ h' !! b = Some (LngLatBounds (Some sw) (Some ne))
    /\ h' !! sw = Some (LngLat (Finite lng) (Finite lat))
    /\ h' !! ne = Some (LngLat (Finite lng) (Finite lat)).
Proof.
  intros Hp Hlat.
  destruct (LngLat_toBounds_run h p lng lat 0 Hp (Rle_refl 0) Hlat)
    as (sw & ne & b & h' & Hrun & H1 & H2 & H3 & _ & Hb' & Hsw' & Hne');
    try lra.
  pose proof (cos_lat_pos lat Hlat) as Hcos.
  exists sw, ne, b, h'. repeat split; try done.
  - rewrite Hsw'. do 3 f_equal; lra.
  - rewrite Hne'. do 3 f_equal; lra.
Qed.

(** [LngLat_toBounds_default] applies to the point (200, 10). *)
Lemma LngLat_toBounds_default_witness :
  exists (sw ne b : loc) (h' : heap),
    LngLat_toBounds 1%positive None point_200_10 = (Return b, h')
    /\ h' !! b = Some (LngLatBounds (Some sw) (Some ne))
    /\ h' !! sw = Some (LngLat (Finite 200) (Finite 10))
    /\ h' !! ne = Some (LngLat (Finite 200) (Finite 10)).
Proof.
  destruct (LngLat_toBounds_default point_200_10 1%positive 200 10)
    as (sw & ne & b & h' & Hrun & _ & _ & _ & H1 & H2 & H3);
    [reflexivity | lra |].
  exists sw, ne, b, h'. repeat split; assumption.
Defined.

(** ** Point: running the methods *)

(** Runs a method of [Point] on a heap whose lookups are known. *)
Ltac run_point :=
  lazymatch goal with
  | |- bind _ _ _ = _ => (erewrite bind_Return by run_point); run_point
  | |- get_x _ _ = _ => eapply get_x_run; lookup_tac
  | |- get_y _ _ = _ => eapply get_y_run; lookup_tac
  | |- set_x _ _ _ = _ => eapply set_x_run; lookup_tac
  | |- set_y _ _ _ = _ => eapply set_y_run; lookup_tac
  | |- Point_constructor _ _ _ = _ => reflexivity
  | |- ret _ _ = _ => reflexivity
  end.

Lemma Point__perp_run (h : heap) (p : loc) (x y : number) :
  h !! p = Some (Point x y) ->
  Point__perp p h = (Return p, <[p := Point (- y) x]> h).
Proof.
  intros H. unfold Point__perp.
  transitivity (Return p, <[p := Point (- y)%js x]> (<[p := Point x x]> h)).
  - run_point.
  - now rewrite insert_insert_eq.
Qed.

Lemma Point__round_run (h : heap) (p : loc) (x y : number) :
  h !! p = Some (Point x y) ->
  Point__round p h = (Return p, <[p := Point (Math_round x) (Math_round y)]> h).
Proof.
  intros H. unfold Point__round.
  transitivity (Return p, <[p := Point (Math_round x) (Math_round y)]>
                            (<[p := Point (Math_round x) y]> h)).
  - run_point.
  - now rewrite insert_insert_eq.
Qed.

Lemma Point__rotateAround_run (h : heap) (p o : loc) (x y ox oy a : number) :
  h !! p = Some (Point x y) -> h !! o = Some (Point ox oy) ->
  Point__rotateAround p a o h
  = (Return p,
     <[p := Point (ox + Math_cos a * (x - ox) - Math_sin a * (y - oy))
                  (oy + Math_sin a * (x - ox) + Math_cos a * (y - oy))]> h).
Proof.
  intros Hp Ho. unfold Point__rotateAround. cbv zeta.
  transitivity
    (Return p,
     <[p := Point (ox + Math_cos a * (x - ox) - Math_sin a * (y - oy))%js
                  (oy + Math_sin a * (x - ox) + Math_cos a * (y - oy))%js]>
       (<[p := Point (ox + Math_cos a * (x - ox) - Math_sin a * (y - oy))%js
                     y]> h)).
  - run_point.
  - now rewrite insert_insert_eq.
Qed.

Lemma Point__matMult_run (h : heap) (p : loc) (x y : number) (m : list number) :
  h !! p = Some (Point x y) ->
  Point__matMult p m h
  = (Return p,
     <[p := Point (index m 0 * x + index m 1 * y)
                  (index m 2 * x + index m 3 * y)]> h).
Proof.
  intros Hp. unfold Point__matMult. cbv zeta.
  transitivity
    (Return p,
     <[p := Point (index m 0 * x + index m 1 * y)%js
                  (index m 2 * x + index m 3 * y)%js]>
       (<[p := Point (index m 0 * x + index m 1 * y)%js y]> h)).
  - run_point.
  - now rewrite insert_insert_eq.
Qed.

Lemma Point__div_run (h : heap) (p : loc) (x y k : number) :
  h !! p = Some (Point x y) ->
  Point__div p k h = (Return p, <[p := Point (x / k) (y / k)]> h).
Proof.
  intros Hp. unfold Point__div.
  transitivity (Return p, <[p := Point (x / k)%js (y / k)%js]>
                            (<[p := Point (x / k)%js y]> h)).
  - run_point.
  - now rewrite insert_insert_eq.
Qed.

Lemma Point_mag_run (h : heap) (p : loc) (x y : number) :
  h !! p = Some (Point x y) ->
  Point_mag p h = (Return (Math_sqrt (x * x + y * y)), h).
Proof. intros Hp. unfold Point_mag. run_point. Qed.

Lemma Point__unit_run (h : heap) (p : loc) (x y : number) :
  h !! p = Some (Point x y) ->
  Point__unit p h
  = (Return p,
     <[p := Point (x / Math_sqrt (x * x + y * y))
                  (y / Math_sqrt (x * x + y * y))]> h).
Proof.
  intros Hp. unfold Point__unit.
  rewrite (bind_Return _ _ h p
             (<[p := Point (x / Math_sqrt (x * x + y * y))%js
                           (y / Math_sqrt (x * x + y * y))%js]> h)).
  - reflexivity.
  - rewrite (bind_Return _ _ h _ h (Point_mag_run h p x y Hp)).
    now apply Point__div_run.
Qed.

Lemma Point_distSqr_run (h : heap) (p q : loc) (x y qx qy : number) :
  h !! p = Some (Point x y) -> h !! q = Some (Point qx qy) ->
  Point_distSqr p q h
  = (Return ((qx - x) * (qx - x) + (qy - y) * (qy - y))%js, h).
Proof. intros Hp Hq. unfold Point_distSqr. cbv zeta. run_point. Qed.

Lemma Point_dist_run (h : heap) (p q : loc) (x y qx qy : number) :
  h !! p = Some (Point x y) -> h !! q = Some (Point qx qy) ->
  Point_dist p q h
  = (Return (Math_sqrt ((qx - x) * (qx - x) + (qy - y) * (qy - y))), h).
Proof.
  intros Hp Hq. unfold Point_dist.
  now rewrite (bind_Return _ _ h _ h (Point_distSqr_run h p q x y qx qy Hp Hq)).
Qed.

Lemma Point__sub_run (h : heap) (c p : loc) (x y px py : number) :
  h !! c = Some (Point x y) -> h !! p = Some (Point px py) -> c <> p ->
  Point__sub c p h = (Return c, <[c := Point (x - px) (y - py)]> h).
Proof.
  intros Hc Hp Hne. unfold Point__sub.
  transitivity (Return c, <[c := Point (x - px)%js (y - py)%js]>
                            (<[c := Point (x - px)%js y]> h)).
  - run_point.
  - now rewrite insert_insert_eq.
Qed.

(** ** Point: [equals] and [clone] *)

Lemma num_eq_refl (a : number) : (a =? a)%js = negb (isNaN a).
Proof. destruct a as [|[]|x]; cbn; Rcases. Qed.

Lemma num_eq_sym (a b : number) : (a =? b)%js = (b =? a)%js.
Proof. destruct a as [|[]|x], b as [|[]|y]; cbn; Rcases. Qed.

(** X15.  [equals] compares with [===]: a point equals itself, and a clone
    equals its original, exactly when neither coordinate is NaN.  [equals]
    is symmetric. *)
Theorem Point_equals_self
    (h : heap) (p q : loc) (x y qx qy : number) :
  h !! p = Some (Point x y) -> h !! q = Some (Point qx qy) ->
  Point_equals p p h = (Return (negb (isNaN x) && negb (isNaN y)), h)
  /\ (exists c h1,
         Point_clone p h = (Return c, h1)
         /\ h !! c = None
         /\ Point_equals c p h1
            = (Return (negb (isNaN x) && negb (isNaN y)), h1))
  /\ Point_equals p q h = Point_equals q p h.
Proof.
  intros Hp Hq. split; [|split].
  - rewrite (Point_equals_run h p p x y x y Hp Hp).
    now rewrite !num_eq_refl.
  - exists (fresh (dom h)), (<[fresh (dom h) := Point x y]> h).
    split; [now apply Point_clone_run|]. split; [apply fresh_None|].
    rewrite (Point_equals_run _ (fresh (dom h)) p x y x y).
    + now rewrite !num_eq_refl.
    + apply lookup_insert_eq.
    + rewrite lookup_insert_ne; [exact Hp|].
      apply not_eq_sym. eapply fresh_ne; eauto.
  - rewrite (Point_equals_run h p q x y qx qy Hp Hq).
    rewrite (Point_equals_run h q p qx qy x y Hq Hp).
    now rewrite (num_eq_sym x qx), (num_eq_sym y qy).
Qed.

(** [Point_equals_self] applies to a point with a NaN coordinate, which
    does not equal itself. *)
Lemma Point_equals_self_witness :
  Point_equals 1%positive 1%positive point_NaN = (Return false, point_NaN).
Proof.
  apply (Point_equals_self point_NaN 1%positive 1%positive
           NaN (Finite 4) NaN (Finite 4)); reflexivity.
Defined.

(** ** Point: [_perp] *)

Lemma num_neg_involutive (a : number) : (- - a)%js = a.
Proof.
  destruct a as [|[]|x]; cbn; try reflexivity. now rewrite Ropp_involutive.
Qed.

(** X16.  [_perp] is a quarter turn: applied twice it negates both
    coordinates, applied four times it puts the point back as it was. *)
Theorem Point_perp_turns (h : heap) (p : loc) (x y : number) :
  h !! p = Some (Point x y) ->
  perp_twice p h = (Return p, <[p := Point (- x) (- y)]> h)
  /\ perp_four_times p h = (Return p, h).
Proof.
  intros Hp.
  assert (Htwice : forall h' u v,
             h' !! p = Some (Point u v) ->
             perp_twice p h' = (Return p, <[p := Point (- u) (- v)]> h')).
  { intros h' u v H'. unfold perp_twice.
    rewrite (bind_Return _ _ h' _ _ (Point__perp_run h' p u v H')).
    erewrite Point__perp_run by apply lookup_insert_eq.
    now rewrite insert_insert_eq. }
  split; [now apply Htwice|].
  unfold perp_four_times.
  rewrite (bind_Return _ _ h _ _ (Htwice h x y Hp)).
  erewrite Htwice by apply lookup_insert_eq.
  rewrite insert_insert_eq, !num_neg_involutive.
  now rewrite insert_id.
Qed.

(** [Point_perp_turns] applies to the point (3, 4). *)
Lemma Point_perp_turns_witness :
  perp_four_times 1%positive point_3_4 = (Return 1%positive, point_3_4).
Proof.
  apply (Point_perp_turns point_3_4 1%positive (Finite 3) (Finite 4)).
  reflexivity.
Defined.

(** ** Point: [rotateAround] *)

Lemma num_sub_0_r (a : number) : (a - Finite 0)%js = a.
Proof. destruct a as [|[]|x]; cbn; try reflexivity. f_equal. lra. Qed.

Lemma num_add_0_l (a : number) : (Finite 0 + a)%js = a.
Proof. destruct a as [|[]|x]; cbn; try reflexivity. f_equal. lra. Qed.

(** X17.  Rotating around the origin with [rotateAround] is [rotate]:
    both return the same new point.  And a finite point is a fixed point
    of the rotation around itself: [p._rotateAround(a, p)] reads its
    coordinates before it writes, and leaves [p] as it was. *)
Theorem Point_rotateAround_origin
    (h : heap) (p o : loc) (x y a : number) :
  h !! p = Some (Point x y) ->
  h !! o = Some (Point (Finite 0) (Finite 0)) ->
  Point_rotateAround p a o h = Point_rotate p a h
  /\ (forall rx ry ra : R,
         x = Finite rx -> y = Finite ry ->
         Point__rotateAround p (Finite ra) p h = (Return p, h)).
Proof.
  intros Hp Ho. split.
  - rewrite (Point_rotate_run h p x y a Hp).
    unfold Point_rotateAround.
    rewrite (bind_Return _ _ h _ _ (Point_clone_run h p x y Hp)).
    erewrite (Point__rotateAround_run _ _ o x y (Finite 0) (Finite 0)).
    + rewrite insert_insert_eq, !num_sub_0_r, !num_add_0_l. reflexivity.
    + apply lookup_insert_eq.
    + rewrite lookup_insert_ne; [exact Ho|].
      apply not_eq_sym. eapply fresh_ne; eauto.
  - intros rx ry ra -> ->.
    rewrite (Point__rotateAround_run h p p _ _ _ _ (Finite ra) Hp Hp).
    f_equal. apply insert_id. rewrite Hp. cbn. do 3 f_equal; ring.
Qed.

(** [Point_rotateAround_origin] applies to the point (3, 4) and the
    origin. *)
Lemma Point_rotateAround_origin_witness :
  Point_rotateAround 1%positive (Finite 1) 2%positive point_and_origin
  = Point_rotate 1%positive (Finite 1) point_and_origin
  /\ Point__rotateAround 1%positive (Finite 1) 1%positive point_and_origin
     = (Return 1%positive, point_and_origin).
Proof.
  destruct (Point_rotateAround_origin point_and_origin 1%positive 2%positive
              (Finite 3) (Finite 4) (Finite 1)) as [H1 H2];
    [reflexivity | reflexivity |].
  split; [exact H1|]. now apply (H2 3 4 1).
Defined.

(** ** Point: [_round] *)

Lemma Int_part_IZR_half (n : Z) : Int_part (IZR n + / 2) = n.
Proof.
  unfold Int_part.
  rewrite <- (up_tech (IZR n + / 2) n); [lia | lra |].
  rewrite plus_IZR. lra.
Qed.

Lemma Math_round_idempotent (a : number) :
  Math_round (Math_round a) = Math_round a.
Proof.
  destruct a as [| |x]; cbn; try reflexivity.
  now rewrite Int_part_IZR_half.
Qed.

Lemma Math_round_nearest (r : R) :
  exists n : Z, Math_round (Finite r) = Finite (IZR n)
                /\ r - / 2 < IZR n <= r + / 2.
Proof.
  exists (Int_part (r + / 2)). split; [reflexivity|].
  destruct (base_Int_part (r + / 2)) as [H1 H2]. lra.
Qed.

(** X18.  [_round] is idempotent: rounding a rounded point changes
    nothing.  A finite coordinate goes to an integer at most one half
    away from it, and a NaN or infinite coordinate stays as it is. *)
Theorem Point_round_idempotent (h : heap) (p : loc) (x y : number) :
  h !! p = Some (Point x y) ->
  round_twice p h = Point__round p h
  /\ (exists x' y',
         Point__round p h = (Return p, <[p := Point x' y']> h)
         /\ (forall r, x = Finite r ->
               exists n : Z, x' = Finite (IZR n) /\ r - / 2 < IZR n <= r + / 2)
         /\ (forall r, y = Finite r ->
               exists n : Z, y' = Finite (IZR n) /\ r - / 2 < IZR n <= r + / 2)
         /\ (isFinite x = false -> x' = x)
         /\ (isFinite y = false -> y' = y)).
Proof.
  intros Hp. split.
  - unfold round_twice.
    rewrite (bind_Return _ _ h _ _ (Point__round_run h p x y Hp)).
    erewrite Point__round_run by apply lookup_insert_eq.
    rewrite insert_insert_eq, !Math_round_idempotent.
    symmetry. now apply Point__round_run.
  - exists (Math_round x), (Math_round y).
    split; [now apply Point__round_run|].
    repeat (apply conj).
    + intros r ->. apply Math_round_nearest.
    + intros r ->. apply Math_round_nearest.
    + destruct x; cbn; congruence.
    + destruct y; cbn; congruence.
Qed.

(** [Point_round_idempotent] applies to the point (3, 4). *)
Lemma Point_round_idempotent_witness :
  round_twice 1%positive point_3_4 = Point__round 1%positive point_3_4.
Proof.
  apply (Point_round_idempotent point_3_4 1%positive (Finite 3) (Finite 4)).
  reflexivity.
Defined.

(** ** Point: [dist] and [distSqr] *)

Lemma num_sq_sub_sym (a b : number) :
  ((a - b) * (a - b))%js = ((b - a) * (b - a))%js.
Proof.
  destruct a as [|[]|x], b as [|[]|y]; cbn; try reflexivity.
  f_equal. ring.
Qed.

Lemma Math_sqrt_nonneg (a : number) :
  Math_sqrt a = NaN \/ (Finite 0 <=? Math_sqrt a)%js = true.
Proof.
  destruct a as [|[]|x]; cbn; auto.
  unfold Rltb. destruct (Rlt_dec x 0); auto.
  right. apply num_le_Finite. apply sqrt_pos.
Qed.

(** X19.  [dist] is symmetric; it is [q.sub(p).mag()]; the distance of a
    point with finite coordinates to itself is 0; and a distance is never
    negative: it is NaN or at least 0. *)
Theorem Point_dist_metric (h : heap) (p q : loc) (x y qx qy : number) :
  h !! p = Some (Point x y) -> h !! q = Some (Point qx qy) ->
  Point_dist p q h = Point_dist q p h
  /\ (exists d, Point_dist p q h = (Return d, h)
                /\ (d = NaN \/ (Finite 0 <=? d)%js = true)
                /\ exists c h', sub_then_mag q p h = (Return d, h')
                                /\ h !! c = None
                                /\ h' = <[c := Point (qx - x) (qy - y)]> h)
  /\ (isFinite x = true -> isFinite y = true ->
      Point_dist p p h = (Return (Finite 0), h)).
Proof.
  intros Hp Hq. split; [|split].
  - rewrite (Point_dist_run h p q x y qx qy Hp Hq).
    rewrite (Point_dist_run h q p qx qy x y Hq Hp).
    now rewrite (num_sq_sub_sym qx x), (num_sq_sub_sym qy y).
  - eexists. split; [exact (Point_dist_run h p q x y qx qy Hp Hq)|].
    split; [apply Math_sqrt_nonneg|].
    exists (fresh (dom h)), (<[fresh (dom h) := Point (qx - x) (qy - y)]> h).
    split; [|split; [apply fresh_None | reflexivity]].
    unfold sub_then_mag, Point_sub.
    rewrite (bind_Return _ _ h (fresh (dom h))
               (<[fresh (dom h) := Point (qx - x) (qy - y)]> h)).
    + erewrite Point_mag_run by apply lookup_insert_eq. reflexivity.
    + rewrite (bind_Return _ _ h _ _ (Point_clone_run h q qx qy Hq)).
      erewrite (Point__sub_run _ _ p qx qy x y).
      * now rewrite insert_insert_eq.
      * apply lookup_insert_eq.
      * rewrite lookup_insert_ne; [exact Hp|].
        apply not_eq_sym. eapply fresh_ne; eauto.
      * apply not_eq_sym. eapply fresh_ne; eauto.
  - intros Hx Hy. rewrite (Point_dist_run h p p x y x y Hp Hp).
    destruct x as [| |rx]; try discriminate.
    destruct y as [| |ry]; try discriminate.
    cbn. replace ((rx + - rx) * (rx + - rx) + (ry + - ry) * (ry + - ry))%R
      with 0%R by ring.
    rewrite sqrt_0. Rcases.
Qed.

(** [Point_dist_metric] applies to the point (3, 4) and the origin. *)
Lemma Point_dist_metric_witness :
  Point_dist 1%positive 2%positive point_and_origin
  = Point_dist 2%positive 1%positive point_and_origin
  /\ Point_dist 1%positive 1%positive point_and_origin
     = (Return (Finite 0), point_and_origin).
Proof.
  destruct (Point_dist_metric point_and_origin 1%positive 2%positive
              (Finite 3) (Finite 4) (Finite 0) (Finite 0)) as (H1 & _ & H3);
    [reflexivity | reflexivity |].
  split; [exact H1 | now apply H3].
Defined.

(** ** Point: [matMult] with a short array *)

Lemma index_out_of_range (m : list number) (i : nat) :
  (length m <= i)%nat -> index m i = NaN.
Proof.
  intros H. unfold index. now rewrite (proj2 (lookup_ge_None m i) H).
Qed.

Lemma num_add_NaN_r (a : number) : (a + NaN)%js = NaN.
Proof. now destruct a. Qed.

Lemma num_mul_NaN_l (a : number) : (NaN * a)%js = NaN.
Proof. reflexivity. Qed.

(** X20.  [matMult] never checks the length of its array: an index past
    the end reads [undefined], and the coordinate computed from it is NaN.
    With fewer than four elements the new point's [y] is NaN, with fewer
    than two its [x] is too; nothing is thrown and [this] is not
    changed. *)
Theorem Point_matMult_short
    (h : heap) (p : loc) (x y : number) (m : list number) :
  h !! p = Some (Point x y) ->
  (length m < 4)%nat ->
  exists c x' y',
    Point_matMult p m h = (Return c, <[c := Point x' y']> h)
    /\ h !! c = None
    /\ y' = NaN
    /\ ((length m < 2)%nat -> x' = NaN).
Proof.
  intros Hp Hlen.
  exists (fresh (dom h)), (index m 0 * x + index m 1 * y)%js,
    (index m 2 * x + index m 3 * y)%js.
  split; [|split; [apply fresh_None | split]].
  - unfold Point_matMult.
    rewrite (bind_Return _ _ h _ _ (Point_clone_run h p x y Hp)).
    erewrite Point__matMult_run by apply lookup_insert_eq.
    now rewrite insert_insert_eq.
  - rewrite (index_out_of_range m 3) by lia.
    now rewrite num_mul_NaN_l, num_add_NaN_r.
  - intros H2. rewrite (index_out_of_range m 1) by lia.
    now rewrite num_mul_NaN_l, num_add_NaN_r.
Qed.

(** [Point_matMult_short] applies to the point (3, 4) and an array of
    three numbers. *)
Lemma Point_matMult_short_witness :
  exists c x' y',
    Point_matMult 1%positive [Finite 1; Finite 0; Finite 0] point_3_4
    = (Return c, <[c := Point x' y']> point_3_4)
    /\ point_3_4 !! c = None
    /\ y' = NaN
    /\ ((length [Finite 1; Finite 0; Finite 0] < 2)%nat -> x' = NaN).
Proof.
  apply (Point_matMult_short point_3_4 1%positive (Finite 3) (Finite 4)
           [Finite 1; Finite 0; Finite 0]); [reflexivity | cbn; lia].
Defined.

(** ** Point: [unit] *)

(** X21.  [unit] divides by the magnitude without testing it, and never
    throws: it returns a new point and leaves the receiver as it was.  The
    unit vector of the origin is (NaN, NaN); so is that of a point with a
    NaN coordinate; and a coordinate that is infinite becomes NaN. *)
Theorem Point_unit_spec (h : heap) (p : loc) (x y : number) :
  h !! p = Some (Point x y) ->
  exists c x' y',
    Point_unit p h = (Return c, <[c := Point x' y']> h)
    /\ h !! c = None
    /\ (x = Finite 0 -> y = Finite 0 -> x' = NaN /\ y' = NaN)
    /\ (isNaN x || isNaN y = true -> x' = NaN /\ y' = NaN)
    /\ (isFinite x = false -> x' = NaN)
    /\ (isFinite y = false -> y' = NaN).
Proof.
  intros Hp.
  exists (fresh (dom h)),
    (x / Math_sqrt (x * x + y * y))%js, (y / Math_sqrt (x * x + y * y))%js.
  split; [|split; [apply fresh_None | split; [|split; [|split]]]].
  - unfold Point_unit.
    rewrite (bind_Return _ _ h _ _ (Point_clone_run h p _ _ Hp)).
    erewrite Point__unit_run by apply lookup_insert_eq.
    now rewrite insert_insert_eq.
  - intros -> ->. cbn.
    replace (0 * 0 + 0 * 0)%R with 0%R by ring.
    rewrite sqrt_0. Rcases.
  - destruct x as [|[]|x], y as [|[]|y]; cbn; intros H;
      try discriminate; split; reflexivity.
  - destruct x as [|[]|x], y as [|[]|y]; cbn; intros H;
      try discriminate; reflexivity.
  - destruct x as [|[]|x], y as [|[]|y]; cbn; intros H;
      try discriminate; reflexivity.
Qed.

(** [Point_unit_spec] applies to the origin, whose unit vector is
    (NaN, NaN). *)
Lemma Point_unit_spec_witness :
  exists c,
    Point_unit 2%positive point_and_origin
    = (Return c, <[c := Point NaN NaN]> point_and_origin)
    /\ point_and_origin !! c = None.
Proof.
  destruct (Point_unit_spec point_and_origin 2%positive (Finite 0) (Finite 0))
    as (c & x' & y' & Hrun & Hc & Hz & _); [reflexivity|].
  destruct (Hz eq_refl eq_refl) as [-> ->].
  exists c. split; [exact Hrun | exact Hc].
Defined.

(** ** Point: [angleWith] *)

Lemma sum_squares_pos (x y : R) : x <> 0 \/ y <> 0 -> 0 < x * x + y * y.
Proof.
  intros [H|H].
  - pose proof (Rsqr_pos_lt x H) as H1. pose proof (Rle_0_sqr y) as H2.
    unfold Rsqr in *. lra.
  - pose proof (Rsqr_pos_lt y H) as H1. pose proof (Rle_0_sqr x) as H2.
    unfold Rsqr in *. lra.
Qed.

Lemma Point_angleWith_run (h : heap) (p b : loc) (x y bx b_y : number) :
  h !! p = Some (Point x y) -> h !! b = Some (Point bx b_y) ->
  Point_angleWith p b h
  = (Return (Math_atan2 (x * b_y - y * bx) (x * bx + y * b_y)), h).
Proof.
  intros Hp Hb. unfold Point_angleWith, Point_angleWithSep. cbv zeta.
  run_point.
Qed.


Lemma small_below_pow2_500 (r : R) : Rabs r <= 128 -> Rabs r <= pow2 500.
Proof.
  intros H. pose proof (pow2_le 7 500 ltac:(lia)) as P.
  rewrite (pow2_IZR 7) in P by lia. change (IZR (2 ^ 7)) with 128 in P. lra.
Qed.


(** ** Point: [angleTo] *)

Lemma Point_angleTo_run (h : heap) (p b : loc) (x y bx b_y : number) :
  h !! p = Some (Point x y) -> h !! b = Some (Point bx b_y) ->
  Point_angleTo p b h = (Return (Math_atan2 (y - b_y) (x - bx)), h).
Proof. intros Hp Hb. unfold Point_angleTo. run_point. Qed.

Lemma Point_angle_run (h : heap) (p : loc) (x y : number) :
  h !! p = Some (Point x y) ->
  Point_angle p h = (Return (Math_atan2 y x), h).
Proof. intros Hp. unfold Point_angle. run_point. Qed.

(** X23.  [p.angleTo(q)] is the angle of the difference vector,
    [p.sub(q).angle()], without the new point the latter builds; and the
    angle from a point with finite coordinates to itself is 0. *)
Theorem Point_angleTo_sub (h : heap) (p q : loc) (x y qx qy : number) :
  h !! p = Some (Point x y) -> h !! q = Some (Point qx qy) ->
  (exists a c,
      Point_angleTo p q h = (Return a, h)
      /\ sub_then_angle p q h
         = (Return a, <[c := Point (x - qx) (y - qy)]> h)
      /\ h !! c = None)
  /\ (isFinite x = true -> isFinite y = true ->
      Point_angleTo p p h = (Return (Finite 0), h)).
Proof.
  intros Hp Hq. split.
  - exists (Math_atan2 (y - qy) (x - qx)), (fresh (dom h)).
    split; [now apply Point_angleTo_run|]. split; [|apply fresh_None].
    unfold sub_then_angle, Point_sub.
    rewrite (bind_Return _ _ h (fresh (dom h))
               (<[fresh (dom h) := Point (x - qx) (y - qy)]> h)).
    + erewrite Point_angle_run by apply lookup_insert_eq. reflexivity.
    + rewrite (bind_Return _ _ h _ _ (Point_clone_run h p x y Hp)).
      erewrite (Point__sub_run _ _ q x y qx qy).
      * now rewrite insert_insert_eq.
      * apply lookup_insert_eq.
      * rewrite lookup_insert_ne; [exact Hq|].
        apply not_eq_sym. eapply fresh_ne; eauto.
      * apply not_eq_sym. eapply fresh_ne; eauto.
  - intros Hx Hy. rewrite (Point_angleTo_run h p p x y x y Hp Hp).
    destruct x as [| |rx]; try discriminate.
    destruct y as [| |ry]; try discriminate.
    cbn. replace (rx + - rx)%R with 0%R by ring.
    replace (ry + - ry)%R with 0%R by ring.
    unfold Rltb. destruct (Rlt_dec 0 0); [lra | reflexivity].
Qed.

(** [Point_angleTo_sub] applies to the point (3, 4) and the origin. *)
Lemma Point_angleTo_sub_witness :
  Point_angleTo 1%positive 1%positive point_and_origin
  = (Return (Finite 0), point_and_origin).
Proof.
  destruct (Point_angleTo_sub point_and_origin 1%positive 2%positive
              (Finite 3) (Finite 4) (Finite 0) (Finite 0)) as [_ H];
    [reflexivity | reflexivity |].
  now apply H.
Defined.
